(** * GovWatcher archive: capture-and-diff pipeline

    A shallow embedding of the archive service
    (work queue, catalog queries, crawl manager, diff processor)
    and the properties of its specification. *)

From Stdlib Require Import ZArith Lia Ascii String.
From stdpp Require Import base option gmap strings list pretty sorting.

Local Open Scope Z_scope.

(** ** Python helpers *)

(** Truthiness of an optional string ([if error:], [if x or default]). *)
Definition truthy_str (s : option string) : bool :=
  match s with
  | Some s => negb (String.eqb s "")
  | None => false
  end.

(** [str(x) if x else d] on an optional string. *)
Definition str_or (s : option string) (d : string) : string :=
  match s with
  | Some s => if String.eqb s "" then d else s
  | None => d
  end.

(** ** Work queue: [utils/redis_client.py] *)

Module Redis.

(** A job payload is a flat JSON object. *)
Inductive jval := JNull | JInt (z : Z) | JStr (s : string).

Definition payload := gmap string jval.

(** The text redis keeps in a hash field.  [RInt z] is the decimal text of
    [z] (what the client writes for an [int]), [RJson d] the text
    [json.dumps(d)], [RStr s] any other text. *)
Inductive rval := RInt (z : Z) | RStr (s : string) | RJson (d : gmap string jval).

(** The four key families of the client never collide (their prefixes
    [jobs:], [queue:], [processing:], [stats:] differ in the first
    character), so each family has its own map, keyed by the full key. *)
Record redis := mkRedis {
  hashes : gmap string (gmap string rval);
  zsets : gmap string (gmap string Z);
  psets : gmap string (gset string);
  counters : gmap string Z
}.

Definition empty_redis : redis := mkRedis ∅ ∅ ∅ ∅.

Definition hget (r : redis) (key field : string) : option rval :=
  h ← hashes r !! key; h !! field.

Definition hset (r : redis) (key field : string) (v : rval) : redis :=
  mkRedis (<[key := <[field := v]> (default ∅ (hashes r !! key))]> (hashes r))
          (zsets r) (psets r) (counters r).

(** [HINCRBY]: a missing field counts as 0; a field that is not an
    integer is an error. *)
Definition hincrby (r : redis) (key field : string) (n : Z) : option redis :=
  match hget r key field with
  | None => Some (hset r key field (RInt n))
  | Some (RInt z) => Some (hset r key field (RInt (z + n)))
  | Some _ => None
  end.

Definition zscore (r : redis) (key member : string) : option Z :=
  z ← zsets r !! key; z !! member.

Definition zadd (r : redis) (key member : string) (score : Z) : redis :=
  mkRedis (hashes r)
          (<[key := <[member := score]> (default ∅ (zsets r !! key))]> (zsets r))
          (psets r) (counters r).

Definition smembers (r : redis) (key : string) : gset string :=
  default ∅ (psets r !! key).

Definition srem (r : redis) (key member : string) : redis :=
  mkRedis (hashes r) (zsets r)
          (<[key := smembers r key ∖ {[member]}]> (psets r)) (counters r).

Definition get_counter (r : redis) (key : string) : Z :=
  default 0 (counters r !! key).

Definition incr (r : redis) (key : string) : redis :=
  mkRedis (hashes r) (zsets r) (psets r)
          (<[key := get_counter r key + 1]> (counters r)).

(** [int(v or d)] on the answer of [HGET]: [None] and the empty text are
    falsy, text that is no integer raises [ValueError]. *)
Definition int_or (v : option rval) (d : Z) : option Z :=
  match v with
  | None => Some d
  | Some (RInt z) => Some z
  | Some (RStr s) => if String.eqb s "" then Some d else None
  | Some (RJson _) => None
  end.

Definition jval_str (v : option jval) : string :=
  match v with
  | None => ""
  | Some JNull => "None"
  | Some (JInt z) => pretty z
  | Some (JStr s) => s
  end.

Definition job_key (job_id : string) : string := "jobs:" +:+ job_id.
Definition queue_key (queue_name : string) : string := "queue:" +:+ queue_name.
Definition processing_key (queue_name : string) : string :=
  "processing:" +:+ queue_name.
Definition stats_key (queue_name kind : string) : string :=
  "stats:" +:+ queue_name +:+ ":" +:+ kind.

(** [enqueue_job]; [now] is the reading of [int(time.time())]. *)
Definition enqueue_job (r : redis) (now : Z) (queue_name : string)
    (job_data : payload) (priority : Z) : string * redis :=
  let job_id := "job:" +:+ pretty now +:+ ":" +:+ jval_str (job_data !! "id") in
  let r1 := hset r (job_key job_id) "status" (RStr "pending") in
  let r2 := hset r1 (job_key job_id) "priority" (RInt priority) in
  let r3 := hset r2 (job_key job_id) "created_at" (RInt now) in
  let r4 := hset r3 (job_key job_id) "data" (RJson job_data) in
  (job_id, zadd r4 (queue_key queue_name) job_id priority).

(** [complete_job]; an empty result dict is falsy. *)
Definition complete_job (r : redis) (now : Z) (queue_name job_id : string)
    (result : option payload) : redis :=
  let r1 := hset r (job_key job_id) "status" (RStr "completed") in
  let r2 := hset r1 (job_key job_id) "completed_at" (RInt now) in
  let r3 := match result with
            | Some res =>
                if bool_decide (res = ∅) then r2
                else hset r2 (job_key job_id) "result" (RJson res)
            | None => r2
            end in
  let r4 := srem r3 (processing_key queue_name) job_id in
  incr r4 (stats_key queue_name "completed").

(** [fail_job]; [None] stands for an exception raised by [int()] or by
    [HINCRBY]. *)
Definition fail_job (r : redis) (now : Z) (queue_name job_id : string)
    (error : option string) (retry : bool) (max_retries : Z) : option redis :=
  retries ← int_or (hget r (job_key job_id) "retries") 0;
  r' ← (if retry && bool_decide (retries < max_retries) then
          r1 ← hincrby r (job_key job_id) "retries" 1;
          let r2 := hset r1 (job_key job_id) "last_error"
                      (RStr (str_or error "Unknown error")) in
          priority ← int_or (hget r2 (job_key job_id) "priority") 5;
          let r3 := zadd r2 (queue_key queue_name) job_id (priority + 1) in
          Some (hset r3 (job_key job_id) "status" (RStr "pending"))
        else
          let r1 := hset r (job_key job_id) "status" (RStr "failed") in
          let r2 := hset r1 (job_key job_id) "failed_at" (RInt now) in
          let r3 := if truthy_str error
                    then hset r2 (job_key job_id) "error" (RStr (default "" error))
                    else r2 in
          Some (incr r3 (stats_key queue_name "failed")));
  Some (srem r' (processing_key queue_name) job_id).

(** A client session after a job was enqueued: failures and completions
    of any jobs, in any order. *)
Inductive qop :=
| OpFail (now : Z) (queue_name job_id : string) (error : option string)
         (retry : bool) (max_retries : Z)
| OpComplete (now : Z) (queue_name job_id : string) (result : option payload).

Definition run_op (o : qop) (r : redis) : option redis :=
  match o with
  | OpFail now q j e retry m => fail_job r now q j e retry m
  | OpComplete now q j res => Some (complete_job r now q j res)
  end.

Fixpoint run_ops (os : list qop) (r : redis) : option redis :=
  match os with
  | [] => Some r
  | o :: os => r' ← run_op o r; run_ops os r'
  end.

(** A field that is absent or holds an integer. *)
Definition int_field (v : option rval) : bool :=
  match v with
  | None | Some (RInt _) => true
  | Some _ => false
  end.

(** The retry counter and the stored priority as [fail_job] reads them. *)
Definition retries_of (r : redis) (job_id : string) : option Z :=
  int_or (hget r (job_key job_id) "retries") 0.

Definition priority_of (r : redis) (job_id : string) : option Z :=
  int_or (hget r (job_key job_id) "priority") 5.

End Redis.

(** ** Configuration: [config.py] *)

Record Config := mkConfig {
  MAX_RETRIES : Z;
  MAX_CONCURRENT_CRAWLS : Z;
  HIGH_PRIORITY_THRESHOLD : Z;
  NORMAL_PRIORITY_THRESHOLD : Z;
  HIGH_PRIORITY_INTERVAL : Z;
  NORMAL_PRIORITY_INTERVAL : Z;
  LOW_PRIORITY_INTERVAL : Z;
  DIFF_SIZE_THRESHOLD : Z;
  ENABLE_SCREENSHOTS : bool;
  ENABLE_PDF : bool;
  ENABLE_VISUAL_DIFF : bool;
  STORAGE_PATH : string
}.

(** The defaults of [Config.__init__]. *)
Definition default_config : Config :=
  mkConfig 3 3 1 3 (7 * 24 * 3600) (14 * 24 * 3600) (30 * 24 * 3600) 10
           true true true "/data/archives".

(** ** Catalog: [utils/db.py], [models/archive.py], [models/snapshot.py] *)

Module Catalog.

(** Values of the free-form metadata map. *)
Inductive mval := MStr (s : string) | MNum (z : Z) | MBool (b : bool).

(** [Archive]: the Python object and the row of table [archives].  Times are
    clock readings. *)
Record Archive := mkArchive {
  a_id : option Z;
  domain : string;
  domain_type : option string;
  agency : option string;
  organization_name : option string;
  city : option string;
  state : option string;
  security_contact_email : option string;
  priority : Z;
  created_at : Z;
  last_checked_at : option Z;
  last_changed_at : option Z;
  enabled : bool
}.

(** [Snapshot]: the Python object and the row of table [snapshots]. *)
Record Snapshot := mkSnapshot {
  s_id : option Z;
  archive_id : option Z;
  capture_timestamp : Z;
  warc_path : option string;
  screenshot_path : option string;
  html_path : option string;
  text_path : option string;
  pdf_path : option string;
  content_hash : option string;
  status : option Z;
  size_bytes : option Z;
  error_message : option string;
  metadata : gmap string mval
}.

(** Row of table [archive_queue]. *)
Record QueueEntry := mkQueueEntry {
  q_id : Z;
  q_archive_id : option Z;
  operation : string;
  q_status : string;
  q_priority : Z;
  scheduled_for : option Z;
  started_at : option Z;
  completed_at : option Z;
  q_error_message : option string
}.

(** The result of [_calculate_diff_stats], kept in column [stats]. *)
Record Stats := mkStats {
  additions : Z;
  deletions : Z;
  changes : Z;
  total : Z
}.

(** Row of table [diffs]. *)
Record DiffRow := mkDiffRow {
  d_id : Z;
  d_archive_id : Z;
  old_snapshot_id : Z;
  new_snapshot_id : Z;
  diff_timestamp : Z;
  diff_path : string;
  stats : Stats;
  significance : Z;
  visual_diff_path : option string
}.

(** The database: each table in insertion order, and the next value of each
    table's id sequence. *)
Record db := mkDb {
  archives : list Archive;
  snapshots : list Snapshot;
  diffs : list DiffRow;
  archive_queue : list QueueEntry;
  archives_seq : Z;
  snapshots_seq : Z;
  diffs_seq : Z;
  queue_seq : Z
}.

Definition set_archives (d : db) (l : list Archive) (seq : Z) : db :=
  mkDb l (snapshots d) (diffs d) (archive_queue d)
       seq (snapshots_seq d) (diffs_seq d) (queue_seq d).

Definition set_snapshots (d : db) (l : list Snapshot) (seq : Z) : db :=
  mkDb (archives d) l (diffs d) (archive_queue d)
       (archives_seq d) seq (diffs_seq d) (queue_seq d).

Definition set_diffs (d : db) (l : list DiffRow) (seq : Z) : db :=
  mkDb (archives d) (snapshots d) l (archive_queue d)
       (archives_seq d) (snapshots_seq d) seq (queue_seq d).

Definition set_queue (d : db) (l : list QueueEntry) (seq : Z) : db :=
  mkDb (archives d) (snapshots d) (diffs d) l
       (archives_seq d) (snapshots_seq d) (diffs_seq d) seq.

(** [WHERE id = %(id)s] with a Python value that may be [None]: [NULL]
    matches no row. *)
Definition id_matches (row_id param : option Z) : bool :=
  match row_id, param with
  | Some x, Some y => bool_decide (x = y)
  | _, _ => false
  end.

(** [if self.id:] *)
Definition truthy_id (i : option Z) : bool :=
  match i with
  | Some z => negb (bool_decide (z = 0))
  | None => false
  end.

(** *** Archive *)

Definition with_times (a : Archive) (checked changed : option Z) : Archive :=
  mkArchive (a_id a) (domain a) (domain_type a) (agency a) (organization_name a)
            (city a) (state a) (security_contact_email a) (priority a)
            (created_at a) checked changed (enabled a).

Definition with_id (a : Archive) (i : option Z) : Archive :=
  mkArchive i (domain a) (domain_type a) (agency a) (organization_name a)
            (city a) (state a) (security_contact_email a) (priority a)
            (created_at a) (last_checked_at a) (last_changed_at a) (enabled a).

(** [db.update('archives', data, 'id = %(id)s', {'id': i})] *)
Definition update_archives (d : db) (i : option Z) (f : Archive → Archive) : db :=
  set_archives d
    (map (λ row, if id_matches (a_id row) i then f row else row) (archives d))
    (archives_seq d).

(** [Archive.save]: the update writes every column but [id] and
    [created_at]; the insert draws the id from the sequence. *)
Definition archive_save (self : Archive) (d : db) : option Z * Archive * db :=
  if truthy_id (a_id self) then
    (a_id self, self,
     update_archives d (a_id self) (λ row,
       mkArchive (a_id row) (domain self) (domain_type self) (agency self)
                 (organization_name self) (city self) (state self)
                 (security_contact_email self) (priority self) (created_at row)
                 (last_checked_at self) (last_changed_at self) (enabled self)))
  else
    let self' := with_id self (Some (archives_seq d)) in
    (Some (archives_seq d), self',
     set_archives d (archives d ++ [self']) (archives_seq d + 1)).

(** [Archive.update_check_time]; [now] is the reading of [datetime.now()]. *)
Definition update_check_time (self : Archive) (d : db) (now : Z) : Archive * db :=
  let self' := with_times self (Some now) (last_changed_at self) in
  (self',
   update_archives d (a_id self') (λ row,
     with_times row (last_checked_at self') (last_changed_at row))).

(** [Archive.update_change_time]: the row gets the new change time and the
    check time the object holds. *)
Definition update_change_time (self : Archive) (d : db) (now : Z) : Archive * db :=
  let self' := with_times self (last_checked_at self) (Some now) in
  (self',
   update_archives d (a_id self') (λ row,
     with_times row (last_checked_at self') (last_changed_at self'))).

(** The join condition of [get_pending]:
    [a.id = q.archive_id AND q.status IN ('pending', 'in_progress')]. *)
Definition outstanding_for (a : Archive) (q : QueueEntry) : bool :=
  id_matches (a_id a) (q_archive_id q)
  && (String.eqb (q_status q) "pending" || String.eqb (q_status q) "in_progress").

(** The [WHERE] clause of [get_pending] after the left join:
    [a.enabled = TRUE AND q.id IS NULL]. *)
Definition pending_row (d : db) (a : Archive) : bool :=
  enabled a && negb (existsb (outstanding_for a) (archive_queue d)).

(** [ORDER BY a.priority ASC, a.last_checked_at ASC NULLS FIRST] *)
Definition nulls_first_le (x y : option Z) : Prop :=
  match x, y with
  | None, _ => True
  | Some _, None => False
  | Some a, Some b => a ≤ b
  end.

Definition pending_le (a b : Archive) : Prop :=
  priority a < priority b
  ∨ (priority a = priority b ∧ nulls_first_le (last_checked_at a) (last_checked_at b)).

#[global] Instance nulls_first_le_dec x y : Decision (nulls_first_le x y).
Proof. destruct x, y; simpl; apply _. Defined.

#[global] Instance pending_le_dec a b : Decision (pending_le a b).
Proof. unfold pending_le. apply _. Defined.

(** [Archive.get_pending]: rows that compare equal keep their table order
    (one of the orders the database may choose). *)
Definition get_pending (d : db) (max_records : nat) : list Archive :=
  take max_records
    (merge_sort pending_le (filter (λ a, pending_row d a = true) (archives d))).

(** *** Snapshot *)

Definition snapshot_with_id (s : Snapshot) (i : option Z) : Snapshot :=
  mkSnapshot i (archive_id s) (capture_timestamp s) (warc_path s)
             (screenshot_path s) (html_path s) (text_path s) (pdf_path s)
             (content_hash s) (status s) (size_bytes s) (error_message s)
             (metadata s).

Definition snapshot_get_by_id (d : db) (i : Z) : option Snapshot :=
  head (filter (λ s, s_id s = Some i) (snapshots d)).

(** [ORDER BY capture_timestamp DESC LIMIT 1]: of rows with the same
    timestamp the first in table order is kept. *)
Definition newer (best : option Snapshot) (s : Snapshot) : option Snapshot :=
  match best with
  | None => Some s
  | Some b => if bool_decide (capture_timestamp b < capture_timestamp s)
              then Some s else Some b
  end.

Definition get_latest_for_archive (d : db) (i : option Z) : option Snapshot :=
  foldl newer None
    (filter (λ s, id_matches (archive_id s) i = true) (snapshots d)).

(** [Snapshot.save] *)
Definition snapshot_save (self : Snapshot) (d : db) : option Z * Snapshot * db :=
  if truthy_id (s_id self) then
    (s_id self, self,
     set_snapshots d
       (map (λ row, if id_matches (s_id row) (s_id self) then self else row)
            (snapshots d))
       (snapshots_seq d))
  else
    let self' := snapshot_with_id self (Some (snapshots_seq d)) in
    (Some (snapshots_seq d), self',
     set_snapshots d (snapshots d ++ [self']) (snapshots_seq d + 1)).

(** [db.insert('archive_queue', {archive_id, operation, status, priority,
    scheduled_for})] *)
Definition insert_queue (d : db) (aid : option Z) (op st : string) (prio now : Z) : db :=
  set_queue d
    (archive_queue d ++
       [mkQueueEntry (queue_seq d) aid op st prio (Some now) None None None])
    (queue_seq d + 1).

(** *** The due test of the specification *)

(** The interval of a site's priority tier: priorities up to
    [HIGH_PRIORITY_THRESHOLD] use [HIGH_PRIORITY_INTERVAL], up to
    [NORMAL_PRIORITY_THRESHOLD] use [NORMAL_PRIORITY_INTERVAL], the others
    [LOW_PRIORITY_INTERVAL]. *)
Definition spec_interval (cfg : Config) (a : Archive) : Z :=
  if bool_decide (priority a ≤ HIGH_PRIORITY_THRESHOLD cfg)
  then HIGH_PRIORITY_INTERVAL cfg
  else if bool_decide (priority a ≤ NORMAL_PRIORITY_THRESHOLD cfg)
  then NORMAL_PRIORITY_INTERVAL cfg
  else LOW_PRIORITY_INTERVAL cfg.

(** The effective next-check time has passed; a site never checked is due
    at once. *)
Definition spec_next_check_due (cfg : Config) (now : Z) (a : Archive) : bool :=
  match last_checked_at a with
  | None => true
  | Some t => bool_decide (t + spec_interval cfg a ≤ now)
  end.

(** A site of the first tier, checked at time 1000, with nothing queued. *)
Definition sample_site : Archive :=
  mkArchive (Some 1) "example.gov" None None None None None None 1 0
            (Some 1000) None true.

Definition sample_sites : db := mkDb [sample_site] [] [] [] 2 1 1 1.

End Catalog.

(** ** Artifact store: [storage/storage_manager.py] *)

Module Storage.

(** The file system: path to file content. *)
Abbreviation files := (gmap string string).

Definition starts_with_slash (s : string) : bool :=
  match s with
  | String c _ => Ascii.eqb c "/"%char
  | EmptyString => false
  end.

Fixpoint ends_with_slash (s : string) : bool :=
  match s with
  | EmptyString => false
  | String c EmptyString => Ascii.eqb c "/"%char
  | String _ rest => ends_with_slash rest
  end.

(** [os.path.join] of two components. *)
Definition path_join (a b : string) : string :=
  if starts_with_slash b then b
  else if String.eqb a "" || ends_with_slash a then a +:+ b
  else a +:+ "/" +:+ b.

Definition get_archive_path (cfg : Config) (archive_id : Z) : string :=
  path_join (STORAGE_PATH cfg) (pretty archive_id).

Definition get_diff_path (cfg : Config) (archive_id old_id new_id : Z) : string :=
  path_join (path_join (get_archive_path cfg archive_id) "diffs")
            (pretty old_id +:+ "_" +:+ pretty new_id).

(** [store_diff]: [text] is [json.dumps(diff_data)]. *)
Definition store_diff (cfg : Config) (fs : files) (archive_id old_id new_id : Z)
    (text : string) : string * files :=
  let target_path := path_join (get_diff_path cfg archive_id old_id new_id) "diff.json" in
  (target_path, <[target_path := text]> fs).

(** [store_visual_diff]: copies the image when the source is a file. *)
Definition store_visual_diff (cfg : Config) (fs : files) (archive_id old_id new_id : Z)
    (image : option string) : string * files :=
  let target_path :=
    path_join (get_diff_path cfg archive_id old_id new_id) "visual-diff.png" in
  (target_path,
   match image with
   | Some bytes => <[target_path := bytes]> fs
   | None => fs
   end).

End Storage.

(** ** Diff engine: [processors/diff_processor.py] *)

Module Diff.
Import Catalog.

(** An opcode of [SequenceMatcher.get_opcodes]: a tag and the ranges
    [i1, i2) of the old lines and [j1, j2) of the new lines. *)
Inductive tag := tag_equal | tag_replace | tag_delete | tag_insert.

Record opcode := mkOpcode {
  op_tag : tag;
  i1 : nat;
  i2 : nat;
  j1 : nat;
  j2 : nat
}.

(** An entry of a hunk's [changes] list. *)
Record change := mkChange {
  c_type : string;
  c_content : string;
  oldLine : option Z;
  newLine : option Z
}.

Record hunk := mkHunk {
  h_content : string;
  oldStart : Z;
  oldLines : Z;
  newStart : Z;
  newLines : Z;
  h_changes : list change
}.

(** The document [{'hunks': hunks}]. *)
Abbreviation diff_data := (list hunk).

(** The libraries the diff engine calls: [str.splitlines],
    [difflib.SequenceMatcher(None, a, b).get_opcodes()], [json.dumps], and
    the OpenCV pipeline of [_generate_visual_diff] (the annotated image, or
    nothing if any step of it fails). *)
Class DiffLib := {
  splitlines : string → list string;
  get_opcodes : list string → list string → list opcode;
  json_dumps : diff_data → string;
  cv2_visual_diff : string → string → option string
}.

(** [range(a, b)] *)
Definition range (a b : nat) : list nat := seq a (b - a).

(** [for i in range(a, b): out.append(entry(i, lines[i]))]; indexing past
    the end raises [IndexError]. *)
Definition collect (lines : list string) (a b : nat)
    (entry : nat → string → change) : option (list change) :=
  mapM (λ i, line ← lines !! i; Some (entry i line)) (range a b).

Definition is_context (c : change) : bool := String.eqb (c_type c) "context".

Definition header (old_start old_count new_start new_count : Z) : string :=
  "@@ -" +:+ pretty old_start +:+ "," +:+ pretty old_count +:+
  " +" +:+ pretty new_start +:+ "," +:+ pretty new_count +:+ " @@".

Definition make_hunk (old_start old_count new_start new_count : Z)
    (cs : list change) : hunk :=
  mkHunk (header old_start old_count new_start new_count)
         old_start old_count new_start new_count cs.

(** The variables of the loop over the opcodes. *)
Record loop_state := mkLoop {
  hunks : list hunk;
  hunk_changes : list change;
  old_start : Z;
  new_start : Z
}.

Definition loop_init : loop_state := mkLoop [] [] 1 1.

Definition append_changes (s : loop_state) (cs : list change) : loop_state :=
  mkLoop (hunks s) (hunk_changes s ++ cs) (old_start s) (new_start s).

(** The branch [tag == 'equal' and (i2 - i1) > 10]. *)
Definition split_equal (old_lines : list string) (s : loop_state) (o : opcode)
    : option loop_state :=
  lead ← collect old_lines (i1 o) (min (i1 o + 3) (i2 o)) (λ i line,
            mkChange "context" line
              (Some (old_start s + Z.of_nat i - Z.of_nat (i1 o)))
              (Some (new_start s + Z.of_nat i - Z.of_nat (i1 o))));
  let closing := hunk_changes s ++ lead in
  let hunks' :=
    if existsb (λ c, negb (is_context c)) closing then
      hunks s ++ [make_hunk (old_start s)
                            (Z.of_nat (i1 o) + 3 - old_start s)
                            (new_start s)
                            (Z.of_nat (j1 o) + 3 - new_start s)
                            closing]
    else hunks s in
  let old_start' := Z.max 1 (Z.of_nat (i2 o) - 3) in
  let new_start' := Z.max 1 (Z.of_nat (j2 o) - 3) in
  let first := max (i1 o) (i2 o - 3) in
  trail ← collect old_lines first (i2 o) (λ i line,
             mkChange "context" line
               (Some (old_start' + Z.of_nat i - Z.of_nat first))
               (Some (new_start' + Z.of_nat i - Z.of_nat first)));
  Some (mkLoop hunks' trail old_start' new_start').

Definition deletions_of (old_lines : list string) (s : loop_state) (o : opcode)
    : option (list change) :=
  collect old_lines (i1 o) (i2 o) (λ i line,
    mkChange "delete" ("-" +:+ line)
      (Some (old_start s + Z.of_nat i - Z.of_nat (i1 o))) None).

Definition insertions_of (new_lines : list string) (s : loop_state) (o : opcode)
    : option (list change) :=
  collect new_lines (j1 o) (j2 o) (λ j line,
    mkChange "insert" ("+" +:+ line)
      None (Some (new_start s + Z.of_nat j - Z.of_nat (j1 o)))).

Definition context_of (old_lines : list string) (s : loop_state) (o : opcode)
    : option (list change) :=
  collect old_lines (i1 o) (i2 o) (λ i line,
    mkChange "context" (" " +:+ line)
      (Some (old_start s + Z.of_nat i - Z.of_nat (i1 o)))
      (Some (new_start s + Z.of_nat (j1 o) + Z.of_nat i - Z.of_nat (i1 o)))).

(** One iteration of the loop. *)
Definition step (old_lines new_lines : list string) (s : loop_state) (o : opcode)
    : option loop_state :=
  match op_tag o with
  | tag_equal =>
      if bool_decide (10 < i2 o - i1 o)%nat then split_equal old_lines s o
      else append_changes s <$> context_of old_lines s o
  | tag_replace =>
      dels ← deletions_of old_lines s o;
      ins ← insertions_of new_lines s o;
      Some (append_changes s (dels ++ ins))
  | tag_delete => append_changes s <$> deletions_of old_lines s o
  | tag_insert => append_changes s <$> insertions_of new_lines s o
  end.

Fixpoint run_loop (old_lines new_lines : list string) (s : loop_state)
    (opcodes : list opcode) : option loop_state :=
  match opcodes with
  | [] => Some s
  | o :: rest => s' ← step old_lines new_lines s o; run_loop old_lines new_lines s' rest
  end.

(** The hunks built from an opcode list; after the loop, [i2] and [j2] are
    those of the last opcode. *)
Definition hunks_of_opcodes (old_lines new_lines : list string)
    (opcodes : list opcode) : option diff_data :=
  s ← run_loop old_lines new_lines loop_init opcodes;
  match hunk_changes s, last opcodes with
  | [], _ => Some (hunks s)
  | _ :: _, Some o =>
      Some (hunks s ++ [make_hunk (old_start s) (Z.of_nat (i2 o) - old_start s)
                                  (new_start s) (Z.of_nat (j2 o) - new_start s)
                                  (hunk_changes s)])
  | _ :: _, None => None
  end.

Definition _generate_text_diff `{DiffLib} (old_content new_content : string)
    : option diff_data :=
  let old_lines := splitlines old_content in
  let new_lines := splitlines new_content in
  hunks_of_opcodes old_lines new_lines (get_opcodes old_lines new_lines).

Definition count_change (acc : Z * Z * Z) (c : change) : Z * Z * Z :=
  let '(additions, deletions, changes) := acc in
  if String.eqb (c_type c) "insert" then (additions + 1, deletions, changes)
  else if String.eqb (c_type c) "delete" then (additions, deletions + 1, changes)
  else if String.eqb (c_type c) "replace" then (additions, deletions, changes + 1)
  else acc.

Definition _calculate_diff_stats (diff : diff_data) : Stats :=
  let '(additions, deletions, changes) :=
    foldl (λ acc h, foldl count_change acc (h_changes h)) (0, 0, 0) diff in
  mkStats additions deletions changes (additions + deletions + changes).

Definition _determine_significance (cfg : Config) (st : Stats) : Z :=
  let total_changes := total st in
  if bool_decide (total_changes < DIFF_SIZE_THRESHOLD cfg) then 1
  else if bool_decide (total_changes < DIFF_SIZE_THRESHOLD cfg * 5) then 2
  else 3.

(** [_check_diff_exists]: the id of the first matching row. *)
Definition _check_diff_exists (d : db) (old_id new_id : Z) : option Z :=
  d_id <$> head (filter (λ row, old_snapshot_id row = old_id
                                ∧ new_snapshot_id row = new_id) (diffs d)).

(** A path that is set, not empty, and names an existing file. *)
Definition read_if_exists (fs : Storage.files) (path : option string) : option string :=
  match path with
  | Some p => if String.eqb p "" then None else fs !! p
  | None => None
  end.

Definition _get_snapshot_content (fs : Storage.files) (s : Snapshot) : option string :=
  match read_if_exists fs (html_path s) with
  | Some text => Some text
  | None => read_if_exists fs (text_path s)
  end.

Definition set_visual_diff_path (d : db) (diff_id : Z) (path : string) : db :=
  set_diffs d
    (map (λ row, if bool_decide (d_id row = diff_id)
                 then mkDiffRow (d_id row) (d_archive_id row) (old_snapshot_id row)
                        (new_snapshot_id row) (diff_timestamp row) (diff_path row)
                        (stats row) (significance row) (Some path)
                 else row) (diffs d))
    (diffs_seq d).

(** [_generate_visual_diff]: [cv2.imread] of a missing file, like every
    other failure, ends in the handler that returns [None]. *)
Definition _generate_visual_diff `{DiffLib} (cfg : Config) (fs : Storage.files)
    (archive_id old_id new_id : Z) (old_screenshot new_screenshot : string)
    : option string * Storage.files :=
  match fs !! old_screenshot, fs !! new_screenshot with
  | Some img1, Some img2 =>
      match cv2_visual_diff img1 img2 with
      | Some image =>
          let '(path, fs') :=
            Storage.store_visual_diff cfg fs archive_id old_id new_id (Some image) in
          (Some path, fs')
      | None => (None, fs)
      end
  | _, _ => (None, fs)
  end.

(** The outcome of [generate_diff]: the returned diff id ([None] for
    Python's [None]) and the state left behind; [DiffRaised] is the
    [IndexError] of the text diff, raised before anything is written. *)
Inductive outcome :=
| DiffReturned (result : option Z) (d : db) (fs : Storage.files)
| DiffRaised.

(** The part of [generate_diff] after the existence check. *)
Definition write_diff `{DiffLib} (cfg : Config) (d : db) (fs : Storage.files)
    (now : Z) (archive_id old_id new_id : Z) (old_snapshot new_snapshot : Snapshot)
    : outcome :=
  match _get_snapshot_content fs old_snapshot,
        _get_snapshot_content fs new_snapshot with
  | Some old_content, Some new_content =>
      if String.eqb old_content "" || String.eqb new_content ""
      then DiffReturned None d fs
      else
        match _generate_text_diff old_content new_content with
        | None => DiffRaised
        | Some diff =>
            let '(diff_path, fs1) :=
              Storage.store_diff cfg fs archive_id old_id new_id (json_dumps diff) in
            let st := _calculate_diff_stats diff in
            let significance := _determine_significance cfg st in
            let diff_id := diffs_seq d in
            let d1 :=
              set_diffs d
                (diffs d ++ [mkDiffRow diff_id archive_id old_id new_id now
                               diff_path st significance None])
                (diffs_seq d + 1) in
            if ENABLE_VISUAL_DIFF cfg
               && truthy_str (screenshot_path old_snapshot)
               && truthy_str (screenshot_path new_snapshot)
            then
              match _generate_visual_diff cfg fs1 archive_id old_id new_id
                      (default "" (screenshot_path old_snapshot))
                      (default "" (screenshot_path new_snapshot)) with
              | (Some path, fs2) =>
                  DiffReturned (Some diff_id) (set_visual_diff_path d1 diff_id path) fs2
              | (None, fs2) => DiffReturned (Some diff_id) d1 fs2
              end
            else DiffReturned (Some diff_id) d1 fs1
        end
  | _, _ => DiffReturned None d fs
  end.

Definition generate_diff `{DiffLib} (cfg : Config) (d : db) (fs : Storage.files)
    (now : Z) (archive_id old_id new_id : Z) : outcome :=
  match snapshot_get_by_id d old_id, snapshot_get_by_id d new_id with
  | Some old_snapshot, Some new_snapshot =>
      let diff_exists := _check_diff_exists d old_id new_id in
      if truthy_id diff_exists then DiffReturned diff_exists d fs
      else write_diff cfg d fs now archive_id old_id new_id old_snapshot new_snapshot
  | _, _ => DiffReturned None d fs
  end.

(** *** Predicates of the statements about the diff engine *)

(** An entry whose type is one of the three the document schema allows. *)
Definition plain_change (c : change) : Prop :=
  c_type c = "context" ∨ c_type c = "delete" ∨ c_type c = "insert".

Definition plain_state (s : loop_state) : Prop :=
  Forall plain_change (hunk_changes s)
  ∧ Forall (λ h, Forall plain_change (h_changes h)) (hunks s).

(** The opcodes of [difflib] stay inside the two line arrays. *)
Definition opcodes_in_range `{DiffLib} : Prop :=
  ∀ a b : list string,
    Forall (λ o, (i2 o ≤ length a)%nat ∧ (j2 o ≤ length b)%nat) (get_opcodes a b).





(** A stand-in for the libraries, to run the engine on examples: a content
    is one line, and the matcher answers with a single replace opcode. *)
Definition sample_lib : DiffLib := {|
  splitlines := λ text, [text];
  get_opcodes := λ a b, [mkOpcode tag_replace 0 (length a) 0 (length b)];
  json_dumps := λ doc, String.concat "" (h_content <$> doc);
  cv2_visual_diff := λ _ _, None
|}.

(** Two snapshots of site 1 with their HTML on disk, and no diff yet. *)
Definition sample_snapshot (i : Z) (t : Z) (path hash : string) : Snapshot :=
  mkSnapshot (Some i) (Some 1) t None None (Some path) None None (Some hash)
             (Some 200) (Some 3) None ∅.

Definition sample_db : db :=
  mkDb [] [sample_snapshot 1 10 "/s/1.html" "h1"; sample_snapshot 2 20 "/s/2.html" "h2"]
       [] [] 2 3 1 1.

Definition sample_fs : Storage.files :=
  <["/s/2.html" := "new"]> (<["/s/1.html" := "old"]> ∅).

(** *** Predicates of the statement about hunk splitting *)

(** The entries hold a delete or an insert: the test
    [any(c['type'] != 'context' for c in hunk_changes)]. *)
Definition holds_change (cs : list change) : bool :=
  existsb (λ c, negb (is_context c)) cs.

(** An equal region long enough to split the hunk. *)
Definition splits (o : opcode) : Prop :=
  op_tag o = tag_equal ∧ (10 < i2 o - i1 o)%nat.

(** An opcode that appends a delete or an insert entry. *)
Definition adds_change (o : opcode) : bool :=
  match op_tag o with
  | tag_equal => false
  | tag_replace => bool_decide (i1 o < i2 o)%nat || bool_decide (j1 o < j2 o)%nat
  | tag_delete => bool_decide (i1 o < i2 o)%nat
  | tag_insert => bool_decide (j1 o < j2 o)%nat
  end.

(** The hunk under construction, holding context lines only, is thrown away:
    the opcodes that follow bring no change before one of them splits. *)
Definition discarded (cs : list change) (later : list opcode) : Prop :=
  holds_change cs = false ∧
  ∃ mid o rest, later = mid ++ o :: rest ∧ splits o
                ∧ Forall (λ o, adds_change o = false) mid.

(** Where the entries [cs] of the hunk under construction end up, given the
    opcodes [later] still to come: the hunk number [n] of the document
    begins with them, unless the hunk is thrown away. *)
Definition carried_into (doc : diff_data) (n : nat) (cs : list change)
    (later : list opcode) : Prop :=
  cs = []
  ∨ (∃ h, doc !! n = Some h ∧ cs `prefix_of` h_changes h)
  ∨ discarded cs later.

(** A matcher for examples: a content is split into its characters, one per
    line, and the opcodes are the common prefix as one equal region and the
    rest as one replace. *)
Fixpoint common_prefix (a b : list string) : nat :=
  match a, b with
  | x :: a', y :: b' => if String.eqb x y then S (common_prefix a' b') else 0
  | _, _ => 0
  end.

Definition prefix_lib : DiffLib := {|
  splitlines := λ text, (λ c, String c EmptyString) <$> list_ascii_of_string text;
  get_opcodes := λ a b,
    let p := common_prefix a b in
    [mkOpcode tag_equal 0 p 0 p; mkOpcode tag_replace p (length a) p (length b)];
  json_dumps := λ doc, String.concat "" (h_content <$> doc);
  cv2_visual_diff := λ _ _, None
|}.

End Diff.

(** ** Capture worker and change detector: [crawlers/webpage_crawler.py],
    [crawlers/crawler_manager.py] *)

Module Crawl.
Import Catalog.

Record CrawlResult := mkCrawlResult {
  success : bool;
  r_warc_path : option string;
  r_screenshot_path : option string;
  r_html_path : option string;
  r_text_path : option string;
  r_pdf_path : option string;
  r_content_hash : option string;
  status_code : option Z;
  r_size_bytes : option Z;
  error : option string;
  r_metadata : gmap string mval
}.

(** What [session.get] delivers: a response (status, body, final url), or
    a [requests.RequestException]. *)
Inductive fetched :=
| Response (status_code : Z) (text url : string)
| RequestException (msg : string).

(** What the collaborators of a successful fetch deliver: the temporary
    directory, and whether the screenshot, the PDF and the WARC were
    produced. *)
Record rendered := mkRendered {
  temp_dir : string;
  screenshot_ok : bool;
  pdf_ok : bool;
  warc_ok : bool
}.

(** [hashlib.sha256(...).hexdigest()] *)
Class HashLib := { sha256_hex : string → string }.

Definition produced (ok : bool) (dir name : string) : option string :=
  if ok then Some (Storage.path_join dir name) else None.

(** [WebpageCrawler.crawl]; [now] is the reading of [time.time()].  The
    local steps after a 200 response (temporary files, text extraction) are
    taken to succeed; the handler for their exceptions is not modelled. *)
Definition crawl `{HashLib} (cfg : Config) (domain : string) (now : Z)
    (f : fetched) (env : rendered) : CrawlResult :=
  let url := "https://" +:+ domain in
  let metadata : gmap string mval :=
    <["domain" := MStr domain]>
      (<["timestamp" := MNum now]> (<["url" := MStr url]> ∅)) in
  match f with
  | RequestException msg =>
      mkCrawlResult false None None None None None None None None
                    (Some ("Request error: " +:+ msg)) metadata
  | Response code text final_url =>
      let metadata := <["final_url" := MStr final_url]> metadata in
      if negb (bool_decide (code = 200)) then
        mkCrawlResult false None None None None None None (Some code) None
                      (Some ("HTTP status code: " +:+ pretty code)) metadata
      else
        let screenshot_file :=
          if ENABLE_SCREENSHOTS cfg
          then produced (screenshot_ok env) (temp_dir env) "screenshot.png"
          else None in
        let metadata :=
          if ENABLE_SCREENSHOTS cfg
          then <["screenshot_taken" := MBool (bool_decide (is_Some screenshot_file))]> metadata
          else metadata in
        let pdf_file :=
          if ENABLE_PDF cfg
          then produced (pdf_ok env) (temp_dir env) "content.pdf"
          else None in
        let metadata :=
          if ENABLE_PDF cfg
          then <["pdf_generated" := MBool (bool_decide (is_Some pdf_file))]> metadata
          else metadata in
        mkCrawlResult true
          (produced (warc_ok env) (temp_dir env) "original.warc")
          screenshot_file
          (Some (Storage.path_join (temp_dir env) "content.html"))
          (Some (Storage.path_join (temp_dir env) "content.txt"))
          pdf_file
          (Some (sha256_hex text))
          (Some code)
          (Some (Z.of_nat (String.length text)))
          None metadata
  end.

(** The state the crawler manager works on. *)
Record world := mkWorld {
  w_db : db;
  w_redis : Redis.redis;
  active_crawls : gset (option Z)
}.

(** The clock readings of one [crawl_archive], in call order. *)
Record clock := mkClock {
  t_crawl : Z;
  t_check : Z;
  t_capture : Z;
  t_change : Z;
  t_enqueue : Z;
  t_scheduled : Z
}.

Definition json_id (i : option Z) : Redis.jval :=
  match i with
  | Some z => Redis.JInt z
  | None => Redis.JNull
  end.

(** [CrawlerManager._process_changes] *)
Definition _process_changes (w : world) (archive : Archive) (new_snapshot : Snapshot)
    (t : clock) : world * Archive :=
  match get_latest_for_archive (w_db w) (a_id archive) with
  | None => (w, archive)
  | Some previous_snapshot =>
      if bool_decide (s_id previous_snapshot = s_id new_snapshot) then (w, archive)
      else if bool_decide (content_hash previous_snapshot = content_hash new_snapshot)
      then (w, archive)
      else
        let '(archive', d1) := update_change_time archive (w_db w) (t_change t) in
        let job_data : Redis.payload :=
          <["new_snapshot_id" := json_id (s_id new_snapshot)]>
            (<["old_snapshot_id" := json_id (s_id previous_snapshot)]>
               (<["archive_id" := json_id (a_id archive)]> ∅)) in
        let '(job_id, r1) :=
          Redis.enqueue_job (w_redis w) (t_enqueue t) "archive:diff" job_data 3 in
        let d2 := insert_queue d1 (a_id archive) "diff" "pending" 3 (t_scheduled t) in
        (mkWorld d2 r1 (active_crawls w), archive')
  end.

(** [CrawlerManager.crawl_archive]: the returned flag, the state left
    behind, and the [archive] object as the caller sees it afterwards. *)
Definition crawl_archive `{HashLib} (cfg : Config) (w : world) (archive : Archive)
    (f : fetched) (env : rendered) (t : clock) : bool * world * Archive :=
  if bool_decide (a_id archive ∈ active_crawls w) then (false, w, archive)
  else
    let result := crawl cfg (domain archive) (t_crawl t) f env in
    if success result then
      let '(archive1, d1) := update_check_time archive (w_db w) (t_check t) in
      let snapshot :=
        mkSnapshot None (a_id archive1) (t_capture t) (r_warc_path result)
                   (r_screenshot_path result) (r_html_path result)
                   (r_text_path result) (r_pdf_path result)
                   (r_content_hash result) (status_code result)
                   (r_size_bytes result) None (r_metadata result) in
      let '(snapshot_id, snapshot', d2) := snapshot_save snapshot d1 in
      let '(w', archive2) :=
        _process_changes (mkWorld d2 (w_redis w) ({[a_id archive]} ∪ active_crawls w))
                         archive1 snapshot' t in
      (true,
       mkWorld (w_db w') (w_redis w') (active_crawls w' ∖ {[a_id archive]}),
       archive2)
    else
      (false,
       mkWorld (w_db w) (w_redis w)
               (({[a_id archive]} ∪ active_crawls w) ∖ {[a_id archive]}),
       archive).

(** *** Histories of one site *)

(** The operations that write a site's timestamps: [Archive.save],
    [update_check_time], [update_change_time], and a capture. *)
Inductive site_op :=
| Save
| CheckAt (now : Z)
| ChangeAt (now : Z)
| Capture (f : fetched) (env : rendered) (t : clock).

Definition with_db (w : world) (d : db) : world :=
  mkWorld d (w_redis w) (active_crawls w).

Definition run_site_op `{HashLib} (cfg : Config) (st : world * Archive)
    (o : site_op) : world * Archive :=
  match o with
  | Save =>
      let '(_, a, d) := archive_save st.2 (w_db st.1) in (with_db st.1 d, a)
  | CheckAt now =>
      let '(a, d) := update_check_time st.2 (w_db st.1) now in (with_db st.1 d, a)
  | ChangeAt now =>
      let '(a, d) := update_change_time st.2 (w_db st.1) now in (with_db st.1 d, a)
  | Capture f env t =>
      let '(_, w, a) := crawl_archive cfg st.1 st.2 f env t in (w, a)
  end.

Definition run_site_ops `{HashLib} (cfg : Config) (ops : list site_op)
    (st : world * Archive) : world * Archive :=
  foldl (run_site_op cfg) st ops.

(** The readings of one capture are taken in call order. *)
Definition capture_ordered (t : clock) : Prop :=
  t_crawl t ≤ t_check t ∧ t_check t ≤ t_capture t ∧ t_capture t ≤ t_change t
  ∧ t_change t ≤ t_enqueue t ∧ t_enqueue t ≤ t_scheduled t.

(** The clock never goes back along a history that starts at time [t0];
    [last_clock] is its latest reading. *)
Fixpoint clock_ordered (t0 : Z) (ops : list site_op) : Prop :=
  match ops with
  | [] => True
  | Save :: rest => clock_ordered t0 rest
  | CheckAt now :: rest => t0 ≤ now ∧ clock_ordered now rest
  | ChangeAt now :: rest => t0 ≤ now ∧ clock_ordered now rest
  | Capture _ _ t :: rest =>
      t0 ≤ t_crawl t ∧ capture_ordered t ∧ clock_ordered (t_scheduled t) rest
  end.

Fixpoint last_clock (t0 : Z) (ops : list site_op) : Z :=
  match ops with
  | [] => t0
  | Save :: rest => last_clock t0 rest
  | CheckAt now :: rest => last_clock now rest
  | ChangeAt now :: rest => last_clock now rest
  | Capture _ _ t :: rest => last_clock (t_scheduled t) rest
  end.

(** The invariant of the specification, and its converse. *)
Definition changed_before_checked (a : Archive) : Prop :=
  ∀ c k, last_changed_at a = Some c → last_checked_at a = Some k → c ≤ k.

Definition checked_before_changed (a : Archive) : Prop :=
  ∀ c k, last_changed_at a = Some c → last_checked_at a = Some k → k ≤ c.

(** Neither timestamp lies after time [t]. *)
Definition times_bounded (t : Z) (a : Archive) : Prop :=
  (∀ k, last_checked_at a = Some k → k ≤ t)
  ∧ (∀ c, last_changed_at a = Some c → c ≤ t).

(** The check time moved forward (or was set for the first time). *)
Definition spec_check_time_advanced (before after : Archive) : Prop :=
  ∃ t', last_checked_at after = Some t'
        ∧ ∀ t0, last_checked_at before = Some t0 → t0 < t'.

(** *** Sample data *)

(** A stand-in for SHA-256 that keeps distinct texts distinct. *)
Definition sample_hash : HashLib := {| sha256_hex := λ text, "sha256:" +:+ text |}.

(** Site 1, last checked at time 5, never changed, with one snapshot taken
    at time 5; nothing queued. *)
Definition sample_site : Archive :=
  mkArchive (Some 1) "example.gov" None None None None None None 3 0
            (Some 5) None true.

Definition sample_world : world :=
  mkWorld
    (mkDb [sample_site]
          [mkSnapshot (Some 1) (Some 1) 5 None None (Some "/tmp/a/content.html")
                      (Some "/tmp/a/content.txt") None (Some "sha256:old page")
                      (Some 200) (Some 8) None ∅]
          [] [] 2 2 1 1)
    Redis.empty_redis ∅.

Definition sample_rendered : rendered := mkRendered "/tmp/b" false false true.

Definition sample_clock : clock := mkClock 10 11 12 13 14 15.

End Crawl.

(** ** Work queue, dispatch side: [utils/redis_client.py] *)

Module Queue.
Import Redis.

(** What [json.loads] returns, as far as the client looks at it: an object,
    a number, or another JSON value kept as its text. *)
Inductive jdoc := DObject (d : payload) | DNumber (z : Z) | DOther (text : string).

(** [json.loads] on a text that is not known to be the dump of a payload;
    [None] stands for [JSONDecodeError]. *)
Class JsonLib := { json_loads : string → option jdoc }.

(** The order of a sorted set: by score, then by member. *)
Definition zless (a b : string * Z) : bool :=
  (a.2 <? b.2) || ((a.2 =? b.2) && String.leb a.1 b.1).

Definition zfirst (l : list (string * Z)) : option (string * Z) :=
  foldr (λ x acc, match acc with
                  | Some y => if zless y x then Some y else Some x
                  | None => Some x
                  end) None l.

Definition zmembers (r : redis) (key : string) : gmap string Z :=
  default ∅ (zsets r !! key).

(** [ZPOPMIN key 1] *)
Definition zpopmin (r : redis) (key : string) : option (string * Z) * redis :=
  match zfirst (map_to_list (zmembers r key)) with
  | None => (None, r)
  | Some (member, score) =>
      (Some (member, score),
       mkRedis (hashes r) (<[key := delete member (zmembers r key)]> (zsets r))
               (psets r) (counters r))
  end.

Definition sadd (r : redis) (key member : string) : redis :=
  mkRedis (hashes r) (zsets r)
          (<[key := {[member]} ∪ smembers r key]> (psets r)) (counters r).

(** [HGETALL]: the empty dict for a missing key. *)
Definition hgetall (r : redis) (key : string) : gmap string rval :=
  default ∅ (hashes r !! key).

(** [int(d.get(field, default))]: text that is no integer raises. *)
Definition int_get (v : option rval) (d : Z) : option Z :=
  match v with
  | None => Some d
  | Some (RInt z) => Some z
  | Some _ => None
  end.

(** [json.loads(d.get('data', '{}'))] *)
Definition load_data `{JsonLib} (v : option rval) : option jdoc :=
  match v with
  | None => Some (DObject ∅)
  | Some (RJson d) => Some (DObject d)
  | Some (RInt z) => Some (DNumber z)
  | Some (RStr s) => json_loads s
  end.

Record job := mkJob {
  job_id : string;
  job_priority : Z;
  job_created_at : Z;
  job_data : jdoc
}.

(** The outcome of [get_next_job]: the returned job ([None] for Python's
    [None]) and the state, or the [ValueError] of [int()]. *)
Inductive popped :=
| Popped (j : option job) (r : redis)
| PopRaised.

(** [get_next_job]; [now] is the reading of [int(time.time())]. *)
Definition get_next_job `{JsonLib} (r : redis) (now : Z) (queue_name : string)
    : popped :=
  match zpopmin r (queue_key queue_name) with
  | (None, _) => Popped None r
  | (Some (job_id, _), r1) =>
      let job_data := hgetall r1 (job_key job_id) in
      if bool_decide (job_data = ∅) then Popped None r1
      else
        let r2 := hset r1 (job_key job_id) "status" (RStr "processing") in
        let r3 := hset r2 (job_key job_id) "started_at" (RInt now) in
        let r4 := sadd r3 (processing_key queue_name) job_id in
        match load_data (job_data !! "data") with
        | None => Popped None r4
        | Some data =>
            match int_get (job_data !! "priority") 5,
                  int_get (job_data !! "created_at") 0 with
            | Some priority, Some created_at =>
                Popped (Some (mkJob job_id priority created_at data)) r4
            | _, _ => PopRaised
            end
        end
  end.

Record queue_stats := mkQueueStats {
  qs_pending : Z;
  qs_processing : Z;
  qs_completed : Z;
  qs_failed : Z;
  qs_total : Z
}.

(** [get_queue_stats] *)
Definition get_queue_stats (r : redis) (queue_name : string) : queue_stats :=
  let pending := Z.of_nat (size (zmembers r (queue_key queue_name))) in
  let processing := Z.of_nat (size (smembers r (processing_key queue_name))) in
  let completed := get_counter r (stats_key queue_name "completed") in
  let failed := get_counter r (stats_key queue_name "failed") in
  mkQueueStats pending processing completed failed
               (pending + processing + completed + failed).

(** A stand-in for [json.loads] that rejects every text. *)
Definition sample_json : JsonLib := {| json_loads := λ _, None |}.

End Queue.

(** ** Catalog, lookups and listings: [models/archive.py],
    [models/snapshot.py] *)

Module Models.
Import Catalog.

(** [Archive.get_by_id]: [query_one] gives the first matching row. *)
Definition archive_get_by_id (d : db) (i : Z) : option Archive :=
  head (filter (λ a, a_id a = Some i) (archives d)).

(** [Archive.get_by_domain] *)
Definition get_by_domain (d : db) (dom : string) : option Archive :=
  head (filter (λ a, domain a = dom) (archives d)).

(** What a query with [ORDER BY] may return: the rows sorted by the key.
    The order of rows with equal keys is left to the database and may
    differ from one query to the next. *)
Definition ordered_by {A} (le : relation A) (rows result : list A) : Prop :=
  result ≡ₚ rows ∧ StronglySorted le result.




(** [ORDER BY capture_timestamp DESC] *)
Definition newest_first (a b : Snapshot) : Prop :=
  capture_timestamp b ≤ capture_timestamp a.

#[global] Instance newest_first_dec a b : Decision (newest_first a b).
Proof. unfold newest_first. apply _. Defined.

(** [Snapshot.get_for_archive]: [result] is a page the call may return. *)
Definition get_for_archive (d : db) (i : option Z) (limit offset : nat)
    (result : list Snapshot) : Prop :=
  ∃ ordered,
    ordered_by newest_first
      (filter (λ s, id_matches (archive_id s) i = true) (snapshots d)) ordered
    ∧ result = take limit (drop offset ordered).

(** No two snapshots of the site were captured at the same time. *)
Definition distinct_capture_times (d : db) (i : option Z) : Prop :=
  NoDup (capture_timestamp
           <$> filter (λ s, id_matches (archive_id s) i = true) (snapshots d)).

(** The row an [Archive.save] of [self] leaves in place of [row]: every
    column but [id] and [created_at] comes from [self]. *)
Definition saved_over (self row : Archive) : Archive :=
  mkArchive (a_id row) (domain self) (domain_type self) (agency self)
            (organization_name self) (city self) (state self)
            (security_contact_email self) (priority self) (created_at row)
            (last_checked_at self) (last_changed_at self) (enabled self).

(** No row carries the next value of the id sequence. *)
Definition archives_seq_fresh (d : db) : Prop :=
  Forall (λ row, a_id row ≠ Some (archives_seq d)) (archives d).

Definition snapshots_seq_fresh (d : db) : Prop :=
  Forall (λ row, s_id row ≠ Some (snapshots_seq d)) (snapshots d).

(** Three snapshots of site 1 and one of site 2, none at the same time. *)
Definition sample_history : db :=
  mkDb [] [mkSnapshot (Some 1) (Some 1) 10 None None None None None None None None None ∅;
           mkSnapshot (Some 2) (Some 2) 15 None None None None None None None None None ∅;
           mkSnapshot (Some 3) (Some 1) 30 None None None None None None None None None ∅;
           mkSnapshot (Some 4) (Some 1) 20 None None None None None None None None None ∅]
       [] [] 1 5 1 1.


End Models.

(** ** Scheduler: [crawlers/crawler_manager.py] *)

Module Scheduler.
Import Catalog Crawl.

(** The queue priority of a site: 1, 3 or 5 by its priority tier. *)
Definition queue_priority (cfg : Config) (archive : Archive) : Z :=
  if bool_decide (priority archive ≤ HIGH_PRIORITY_THRESHOLD cfg) then 1
  else if bool_decide (priority archive ≤ NORMAL_PRIORITY_THRESHOLD cfg) then 3
  else 5.

(** [CrawlerManager._schedule_archive]; [t] holds the readings of
    [time.time()] in [enqueue_job] and of [datetime.now()] for
    [scheduled_for]. *)
Definition _schedule_archive (cfg : Config) (w : world) (archive : Archive)
    (t : Z * Z) : world :=
  let priority := queue_priority cfg archive in
  let job_data : Redis.payload :=
    <["domain" := Redis.JStr (domain archive)]>
      (<["id" := json_id (a_id archive)]> ∅) in
  let '(job_id, r1) :=
    Redis.enqueue_job (w_redis w) t.1 "archive:crawl" job_data priority in
  mkWorld (insert_queue (w_db w) (a_id archive) "crawl" "pending" priority t.2)
          r1 (active_crawls w).

(** [for archive in pending_archives: self._schedule_archive(archive)];
    [clk k] holds the readings taken for the [k]-th archive. *)
Fixpoint schedule_all (cfg : Config) (w : world) (clk : nat → Z * Z) (k : nat)
    (pending : list Archive) : world :=
  match pending with
  | [] => w
  | archive :: rest =>
      schedule_all cfg (_schedule_archive cfg w archive (clk k)) clk (S k) rest
  end.

(** [CrawlerManager.process_queue] *)
Definition process_queue (cfg : Config) (w : world) (clk : nat → Z * Z) : world :=
  if bool_decide (MAX_CONCURRENT_CRAWLS cfg ≤ Z.of_nat (size (active_crawls w)))
  then w
  else
    let available_slots :=
      MAX_CONCURRENT_CRAWLS cfg - Z.of_nat (size (active_crawls w)) in
    let pending_archives := get_pending (w_db w) (Z.to_nat available_slots) in
    schedule_all cfg w clk 0 pending_archives.

(** The sites one [process_queue] schedules. *)
Definition scheduled (cfg : Config) (w : world) : list Archive :=
  if bool_decide (MAX_CONCURRENT_CRAWLS cfg ≤ Z.of_nat (size (active_crawls w)))
  then []
  else get_pending (w_db w)
         (Z.to_nat (MAX_CONCURRENT_CRAWLS cfg - Z.of_nat (size (active_crawls w)))).

(** The queue row written for a site. *)
Definition crawl_entry (cfg : Config) (archive : Archive) (q_id now : Z) : QueueEntry :=
  mkQueueEntry q_id (a_id archive) "crawl" "pending" (queue_priority cfg archive)
               (Some now) None None None.

Fixpoint crawl_entries (cfg : Config) (clk : nat → Z * Z) (k : nat) (q_id : Z)
    (pending : list Archive) : list QueueEntry :=
  match pending with
  | [] => []
  | archive :: rest =>
      crawl_entry cfg archive q_id (clk k).2
      :: crawl_entries cfg clk (S k) (q_id + 1) rest
  end.

(** A clock for examples: the [k]-th readings are [100 + k]. *)
Definition sample_ticks (k : nat) : Z * Z := (100 + Z.of_nat k, 100 + Z.of_nat k).

End Scheduler.

(** ** Diff engine: what the opcodes ask for *)

Module DiffCount.
Import Diff.

(** The lines an opcode inserts and deletes: the sizes of [range(j1, j2)]
    and [range(i1, i2)]. *)
Definition inserted_by (o : opcode) : Z :=
  match op_tag o with
  | tag_replace | tag_insert => Z.of_nat (j2 o - j1 o)
  | tag_equal | tag_delete => 0
  end.

Definition deleted_by (o : opcode) : Z :=
  match op_tag o with
  | tag_replace | tag_delete => Z.of_nat (i2 o - i1 o)
  | tag_equal | tag_insert => 0
  end.

Definition inserted_lines (opcodes : list opcode) : Z :=
  foldr (λ o acc, inserted_by o + acc) 0 opcodes.

Definition deleted_lines (opcodes : list opcode) : Z :=
  foldr (λ o acc, deleted_by o + acc) 0 opcodes.

(** A hunk that holds a delete or insert entry. *)
Definition has_change (h : hunk) : bool :=
  existsb (λ c, negb (is_context c)) (h_changes h).

(** The counters of [_calculate_diff_stats] over a list of entries and
    over a list of hunks. *)
Definition tally (acc : Z * Z * Z) (cs : list change) : Z * Z * Z :=
  foldl count_change acc cs.

Definition tally_hunks (acc : Z * Z * Z) (hs : list hunk) : Z * Z * Z :=
  foldl (λ acc h, tally acc (h_changes h)) acc hs.

(** The counters of a loop state: the closed hunks, then the open one. *)
Definition state_tally (s : loop_state) : Z * Z * Z :=
  tally (tally_hunks (0, 0, 0) (hunks s)) (hunk_changes s).

Definition add3 (acc : Z * Z * Z) (a d : Z) : Z * Z * Z :=
  (acc.1.1 + a, acc.1.2 + d, acc.2).

End DiffCount.

(** ** Diff jobs: [processors/diff_processor.py] *)

Module DiffJobs.
Import Catalog Diff.

(** A snapshot whose content the diff cannot use: no readable file, or an
    empty one. *)
Definition unreadable (fs : Storage.files) (s : Snapshot) : Prop :=
  match _get_snapshot_content fs s with
  | None => True
  | Some text => text = ""
  end.

(** [ORDER BY priority ASC, scheduled_for ASC] (with [NULL] last). *)
Definition nulls_last_le (x y : option Z) : Prop :=
  match x, y with
  | _, None => True
  | None, Some _ => False
  | Some a, Some b => a ≤ b
  end.

Definition job_le (a b : QueueEntry) : Prop :=
  q_priority a < q_priority b
  ∨ (q_priority a = q_priority b ∧ nulls_last_le (scheduled_for a) (scheduled_for b)).

#[global] Instance nulls_last_le_dec x y : Decision (nulls_last_le x y).
Proof. destruct x, y; simpl; apply _. Defined.

#[global] Instance job_le_dec a b : Decision (job_le a b).
Proof. unfold job_le. apply _. Defined.

(** The jobs [process_pending_diffs] fetches: at most five pending diff
    rows; rows that compare equal keep their table order. *)
Definition pending_diff_jobs (d : db) : list QueueEntry :=
  take 5
    (merge_sort job_le
       (filter (λ q, operation q = "diff" ∧ q_status q = "pending") (archive_queue d))).

(** [db.update('archive_queue', data, 'id = %(id)s', {'id': i})] *)
Definition update_queue (d : db) (i : Z) (f : QueueEntry → QueueEntry) : db :=
  set_queue d
    (map (λ q, if bool_decide (q_id q = i) then f q else q) (archive_queue d))
    (queue_seq d).

Definition mark_in_progress (now : Z) (q : QueueEntry) : QueueEntry :=
  mkQueueEntry (q_id q) (q_archive_id q) (operation q) "in_progress" (q_priority q)
               (scheduled_for q) (Some now) (completed_at q) (q_error_message q).

Definition mark_completed (now : Z) (q : QueueEntry) : QueueEntry :=
  mkQueueEntry (q_id q) (q_archive_id q) (operation q) "completed" (q_priority q)
               (scheduled_for q) (started_at q) (Some now) (q_error_message q).

Definition mark_failed (msg : string) (q : QueueEntry) : QueueEntry :=
  mkQueueEntry (q_id q) (q_archive_id q) (operation q) "failed" (q_priority q)
               (scheduled_for q) (started_at q) (completed_at q) (Some msg).

(** The first row of the self-join of the site's snapshots ordered by the
    new snapshot's time, newest first: the newest snapshot as [new] and, with
    rows of equal order kept in table order, the site's first snapshot as
    [old]. *)
Definition latest_pair (d : db) (aid : option Z) : option (option Z * option Z) :=
  let mine := filter (λ s, id_matches (archive_id s) aid = true) (snapshots d) in
  match merge_sort Models.newest_first mine, mine with
  | new :: _, old :: _ => Some (s_id old, s_id new)
  | _, _ => None
  end.

(** The body of the loop for one job; [t] holds the readings of
    [datetime.now()] for [started_at], for the diff row and for
    [completed_at].  A pair with a [NULL] id leads to no diff. *)
Definition process_job `{DiffLib} (cfg : Config) (st : db * Storage.files)
    (job : QueueEntry) (t : Z * Z * Z) : db * Storage.files :=
  let d1 := update_queue st.1 (q_id job) (mark_in_progress t.1.1) in
  let outcome :=
    match latest_pair d1 (q_archive_id job), q_archive_id job with
    | Some (Some old_id, Some new_id), Some aid =>
        if bool_decide (old_id ≠ new_id)
        then generate_diff cfg d1 st.2 t.1.2 aid old_id new_id
        else DiffReturned None d1 st.2
    | _, _ => DiffReturned None d1 st.2
    end in
  match outcome with
  | DiffReturned _ d2 fs2 => (update_queue d2 (q_id job) (mark_completed t.2), fs2)
  | DiffRaised =>
      (update_queue d1 (q_id job) (mark_failed "list index out of range"), st.2)
  end.

Fixpoint process_jobs `{DiffLib} (cfg : Config) (st : db * Storage.files)
    (clk : nat → Z * Z * Z) (k : nat) (jobs : list QueueEntry) : db * Storage.files :=
  match jobs with
  | [] => st
  | job :: rest => process_jobs cfg (process_job cfg st job (clk k)) clk (S k) rest
  end.

(** [DiffProcessor.process_pending_diffs] *)
Definition process_pending_diffs `{DiffLib} (cfg : Config) (d : db)
    (fs : Storage.files) (clk : nat → Z * Z * Z) : db * Storage.files :=
  process_jobs cfg (d, fs) clk 0 (pending_diff_jobs d).

(** The diffs sequence hands out an id no row has yet. *)
Definition diffs_seq_fresh (d : db) : Prop :=
  Forall (λ row, d_id row ≠ diffs_seq d) (diffs d).

(** A pending diff job. *)
Definition pending_diff (q : QueueEntry) : Prop :=
  operation q = "diff" ∧ q_status q = "pending".

(** A job is done when it is completed or failed. *)
Definition finished (q : QueueEntry) : Prop :=
  q_status q = "completed" ∨ q_status q = "failed".

(** How the queue rows stand after the jobs with ids [ids] were processed. *)
Definition rows_after (ids : list Z) (q q' : QueueEntry) : Prop :=
  q_id q' = q_id q ∧ operation q' = operation q ∧ q_archive_id q' = q_archive_id q
  ∧ (q_id q ∈ ids → finished q') ∧ (q_id q ∉ ids → q' = q).

(** A queue with one pending diff job for the site of [Diff.sample_db]. *)
Definition sample_jobs : db :=
  set_queue Diff.sample_db
    [mkQueueEntry 1 (Some 1) "diff" "pending" 3 (Some 40) None None None] 2.

Definition sample_ticks (k : nat) : Z * Z * Z := (50, 51, 52).

End DiffJobs.

(** ** Import of the domain list: [utils/importers.py] *)

Module Importers.
Import Catalog Models.

(** [str.lower] *)
Class TextLib := {
  lower : string → string
}.

(** A row of [csv.DictReader]: column name to field.  A column the line is
    too short for holds [None]. *)
Definition csv_row := gmap string (option string).

(** [row.get(k)] *)
Definition row_get (row : csv_row) (k : string) : option string :=
  default None (row !! k).

(** [row.get(k, '')] *)
Definition row_get_or_empty (row : csv_row) (k : string) : option string :=
  default (Some "") (row !! k).

(** The priority file: [None] is the [AttributeError] of [None.lower()]. *)
Fixpoint load_priority `{TextLib} (rows : list csv_row) (acc : gset string)
    : option (gset string) :=
  match rows with
  | [] => Some acc
  | row :: rest =>
      match row !! "domain" with
      | Some (Some v) => load_priority rest ({[lower v]} ∪ acc)
      | Some None => None
      | None => load_priority rest acc
      end
  end.

(** The counters of the loop, in the order of the returned tuple. *)
Record counts := mkCounts {
  n_total : Z;
  n_created : Z;
  n_updated : Z
}.

(** [archive_data] of a row, as the [Archive] object built from it;
    [created_at] is the reading of [datetime.now()] in the constructor. *)
Definition archive_of_row (row : csv_row) (i : option Z) (dom : string)
    (prio : Z) (now : Z) : Archive :=
  mkArchive i dom (row_get row "domainType")
            (if truthy_str (row_get row "agency") then row_get row "agency"
             else row_get row "federalAgency")
            (row_get_or_empty row "organizationName")
            (row_get_or_empty row "city")
            (row_get_or_empty row "state")
            (row_get_or_empty row "securityContact")
            prio now None None true.

(** The priority a domain is imported with. *)
Definition import_priority (priority_domains : gset string) (dom : string) : Z :=
  if bool_decide (dom ∈ priority_domains) then 1 else 3.

(** One turn of the loop over the main file. *)
Definition import_row `{TextLib} (priority_domains : gset string)
    (st : counts * db) (row : csv_row) (now : Z) : option (counts * db) :=
  let '(c, d) := st in
  let total := n_total c + 1 in
  match row_get_or_empty row "domain" with
  | None => None
  | Some raw =>
      let dom := lower raw in
      if String.eqb dom "" then Some (mkCounts total (n_created c) (n_updated c), d)
      else
        let existing := get_by_domain d dom in
        let priority := import_priority priority_domains dom in
        match existing with
        | Some e =>
            let archive := archive_of_row row (a_id e) dom priority now in
            Some (mkCounts total (n_created c) (n_updated c + 1),
                  (archive_save archive d).2)
        | None =>
            let archive := archive_of_row row None dom priority now in
            Some (mkCounts total (n_created c + 1) (n_updated c),
                  (archive_save archive d).2)
        end
  end.

Fixpoint import_rows `{TextLib} (priority_domains : gset string)
    (st : counts * db) (clk : nat → Z) (k : nat) (rows : list csv_row)
    : option (counts * db) :=
  match rows with
  | [] => Some st
  | row :: rest =>
      st' ← import_row priority_domains st row (clk k);
      import_rows priority_domains st' clk (S k) rest
  end.

(** The set [priority_domains]; [priority_rows] is [None] when no priority
    file is given or the file does not exist. *)
Definition priority_set `{TextLib} (priority_rows : option (list csv_row))
    : option (gset string) :=
  match priority_rows with
  | Some prows => load_priority prows ∅
  | None => Some ∅
  end.

(** [import_domains]: the result is [(total, created, updated)] and the
    database; [None] stands for the [AttributeError]. *)
Definition import_domains `{TextLib} (d : db) (rows : list csv_row)
    (priority_rows : option (list csv_row)) (clk : nat → Z)
    : option (Z * Z * Z * db) :=
  priority_domains ← priority_set priority_rows;
  '(c, d') ← import_rows priority_domains (mkCounts 0 0 0, d) clk 0 rows;
  Some (n_total c, n_created c, n_updated c, d').

(** *** Predicates of the statements about the import *)



(** A line too short for the domain column. *)
Definition short_row (row : csv_row) : Prop := row !! "domain" = Some None.







End Importers.

(** ** Capture worker with its exception handlers:
    [crawlers/webpage_crawler.py], [crawlers/crawler_manager.py] *)

Module Capture.
Import Catalog Crawl.

(** What [session.get] does: it delivers a response or a
    [requests.RequestException], or it raises another exception. *)
Inductive fetch_outcome :=
| Got (f : fetched)
| GetRaised (msg : string).

(** An exception in the local steps after a 200 response, by the place it
    is raised at: while the temporary directory and the HTML and text files
    are written (before any path is set on the result), while the content
    is hashed (after the paths are set), or while the temporary directory
    is removed (after [success] is set). *)
Inductive local_fault :=
| FilesRaised (msg : string)
| HashRaised (msg : string)
| CleanupRaised (msg : string).

(** The local steps get as far as [result.success = True]. *)
Definition local_ok (fault : option local_fault) : bool :=
  match fault with
  | None | Some (CleanupRaised _) => true
  | Some (FilesRaised _) | Some (HashRaised _) => false
  end.

(** The error text of the handler [except Exception]. *)
Definition unexpected (msg : string) : option string :=
  Some ("Unexpected error: " +:+ msg).

(** [WebpageCrawler.crawl] with both handlers.  Without an exception it is
    [Crawl.crawl]; the handler [except Exception] returns the result as far
    as it was filled in. *)
Definition crawl `{HashLib} (cfg : Config) (domain : string) (now : Z)
    (f : fetch_outcome) (env : rendered) (fault : option local_fault)
    : CrawlResult :=
  let url := "https://" +:+ domain in
  let metadata : gmap string mval :=
    <["domain" := MStr domain]>
      (<["timestamp" := MNum now]> (<["url" := MStr url]> ∅)) in
  match f with
  | GetRaised msg =>
      mkCrawlResult false None None None None None None None None
                    (unexpected msg) metadata
  | Got (RequestException msg) =>
      Crawl.crawl cfg domain now (RequestException msg) env
  | Got (Response code text final_url) =>
      let r := Crawl.crawl cfg domain now (Response code text final_url) env in
      if negb (bool_decide (code = 200)) then r
      else
        match fault with
        | None => r
        | Some (FilesRaised msg) =>
            mkCrawlResult false None None None None None None (Some code) None
                          (unexpected msg)
                          (<["final_url" := MStr final_url]> metadata)
        | Some (HashRaised msg) =>
            mkCrawlResult false (r_warc_path r) (r_screenshot_path r)
                          (r_html_path r) (r_text_path r) (r_pdf_path r)
                          None (Some code) None (unexpected msg) (r_metadata r)
        | Some (CleanupRaised msg) =>
            mkCrawlResult true (r_warc_path r) (r_screenshot_path r)
                          (r_html_path r) (r_text_path r) (r_pdf_path r)
                          (r_content_hash r) (Some code) (r_size_bytes r)
                          (unexpected msg) (r_metadata r)
        end
  end.

(** The database and redis calls of one capture, in call order.  A call
    that raises leaves no effect of its own: [Database.execute] rolls back,
    and a redis command is one atomic step. *)
Inductive call :=
| CheckUpdate
| SnapshotInsert
| LatestQuery
| ChangeUpdate
| JobStore
| JobQueue
| QueueInsert.

(** The first command of [enqueue_job]: the job hash. *)
Definition store_job (r : Redis.redis) (now : Z) (job_data : Redis.payload)
    (priority : Z) : string * Redis.redis :=
  let job_id := "job:" +:+ pretty now +:+ ":" +:+ Redis.jval_str (job_data !! "id") in
  let r1 := Redis.hset r (Redis.job_key job_id) "status" (Redis.RStr "pending") in
  let r2 := Redis.hset r1 (Redis.job_key job_id) "priority" (Redis.RInt priority) in
  let r3 := Redis.hset r2 (Redis.job_key job_id) "created_at" (Redis.RInt now) in
  (job_id, Redis.hset r3 (Redis.job_key job_id) "data" (Redis.RJson job_data)).

(** [CrawlerManager._process_changes]; the flag is [false] when a call
    raised, and the state is the one at that moment. *)
Definition _process_changes (raises : call → bool) (d : db) (r : Redis.redis)
    (archive : Archive) (new_snapshot : Snapshot) (t : clock)
    : bool * db * Redis.redis * Archive :=
  if raises LatestQuery then (false, d, r, archive)
  else
    match get_latest_for_archive d (a_id archive) with
    | None => (true, d, r, archive)
    | Some previous_snapshot =>
        if bool_decide (s_id previous_snapshot = s_id new_snapshot)
        then (true, d, r, archive)
        else if bool_decide (content_hash previous_snapshot = content_hash new_snapshot)
        then (true, d, r, archive)
        else
          let archive' := with_times archive (last_checked_at archive)
                                     (Some (t_change t)) in
          if raises ChangeUpdate then (false, d, r, archive')
          else
            let d1 := (update_change_time archive d (t_change t)).2 in
            let job_data : Redis.payload :=
              <["new_snapshot_id" := json_id (s_id new_snapshot)]>
                (<["old_snapshot_id" := json_id (s_id previous_snapshot)]>
                   (<["archive_id" := json_id (a_id archive)]> ∅)) in
            if raises JobStore then (false, d1, r, archive')
            else
              let '(job_id, r1) := store_job r (t_enqueue t) job_data 3 in
              if raises JobQueue then (false, d1, r1, archive')
              else
                let r2 := Redis.zadd r1 (Redis.queue_key "archive:diff") job_id 3 in
                if raises QueueInsert then (false, d1, r2, archive')
                else
                  (true,
                   insert_queue d1 (a_id archive) "diff" "pending" 3 (t_scheduled t),
                   r2, archive')
    end.

(** [CrawlerManager.crawl_archive] with its [except Exception] and its
    [finally]: the returned flag, the state left behind, and the [archive]
    object as the caller sees it afterwards. *)
Definition crawl_archive `{HashLib} (cfg : Config) (w : world) (archive : Archive)
    (f : fetch_outcome) (env : rendered) (fault : option local_fault)
    (raises : call → bool) (t : clock) : bool * world * Archive :=
  if bool_decide (a_id archive ∈ active_crawls w) then (false, w, archive)
  else
    let result := crawl cfg (domain archive) (t_crawl t) f env fault in
    let '(flag, d, r, archive') :=
      if success result then
        let archive1 := with_times archive (Some (t_check t)) (last_changed_at archive) in
        if raises CheckUpdate then (false, w_db w, w_redis w, archive1)
        else
          let d1 := (update_check_time archive (w_db w) (t_check t)).2 in
          let snapshot :=
            mkSnapshot None (a_id archive1) (t_capture t) (r_warc_path result)
                       (r_screenshot_path result) (r_html_path result)
                       (r_text_path result) (r_pdf_path result)
                       (r_content_hash result) (status_code result)
                       (r_size_bytes result) None (r_metadata result) in
          if raises SnapshotInsert then (false, d1, w_redis w, archive1)
          else
            let '(snapshot_id, snapshot', d2) := snapshot_save snapshot d1 in
            _process_changes raises d2 (w_redis w) archive1 snapshot' t
      else (false, w_db w, w_redis w, archive) in
    (flag,
     mkWorld d r (({[a_id archive]} ∪ active_crawls w) ∖ {[a_id archive]}),
     archive').

(** No call raises. *)
Definition no_call_raises (raises : call → bool) : Prop := ∀ c, raises c = false.

(** Only the insert of the snapshot row raises. *)
Definition insert_raises (c : call) : bool :=
  match c with
  | SnapshotInsert => true
  | _ => false
  end.

End Capture.

(** * Properties *)

(** ** Work queue *)

Section RedisFacts.
Import Redis.

Implicit Types (r : redis) (k f : string) (v : rval).

Lemma hget_hset r k f v k' f' :
  hget (hset r k f v) k' f' =
    if decide (k = k' ∧ f = f') then Some v else hget r k' f'.
Proof.
  unfold hget, hset; simpl.
  destruct (decide (k = k')) as [->|Hk].
  - rewrite lookup_insert_eq; simpl.
    destruct (decide (f = f')) as [->|Hf].
    + rewrite lookup_insert_eq. by rewrite decide_True.
    + rewrite lookup_insert_ne by done. rewrite decide_False by (intros [_ ?]; done).
      by destruct (hashes r !! k').
  - rewrite lookup_insert_ne by done. by rewrite decide_False by (intros [? _]; done).
Qed.

Lemma hget_hset_eq r k f v : hget (hset r k f v) k f = Some v.
Proof. rewrite hget_hset. by rewrite decide_True. Qed.

Lemma hget_hset_field_ne r k f v k' f' :
  f ≠ f' → hget (hset r k f v) k' f' = hget r k' f'.
Proof. intros Hf. rewrite hget_hset. by rewrite decide_False by (intros [_ ?]; done). Qed.

Lemma hget_hincrby r r' k f n k' f' :
  hincrby r k f n = Some r' → f ≠ f' → hget r' k' f' = hget r k' f'.
Proof.
  unfold hincrby. intros Hinc Hne.
  destruct (hget r k f) as [[z|s|d]|]; simplify_eq;
    by rewrite hget_hset_field_ne.
Qed.

Lemma zscore_zadd_eq r key member score :
  zscore (zadd r key member score) key member = Some score.
Proof. unfold zscore, zadd; simpl. rewrite lookup_insert_eq; simpl. apply lookup_insert_eq. Qed.

Lemma not_elem_of_srem r key member : member ∉ smembers (srem r key member) key.
Proof.
  unfold smembers, srem; simpl. rewrite lookup_insert_eq; simpl.
  intros [_ Hn]%elem_of_difference. apply Hn. by apply elem_of_singleton.
Qed.

Lemma get_counter_incr_eq r key : get_counter (incr r key) key = get_counter r key + 1.
Proof. unfold get_counter at 1, incr; simpl. by rewrite lookup_insert_eq. Qed.

Lemma hget_zadd r key member score k f :
  hget (zadd r key member score) k f = hget r k f.
Proof. reflexivity. Qed.

Lemma hget_srem r key member k f : hget (srem r key member) k f = hget r k f.
Proof. reflexivity. Qed.

Lemma hget_incr r key k f : hget (incr r key) k f = hget r k f.
Proof. reflexivity. Qed.

Lemma hget_hset_if (b : bool) r k f v k' f' :
  f ≠ f' → hget (if b then hset r k f v else r) k' f' = hget r k' f'.
Proof. intros. destruct b; [by apply hget_hset_field_ne|done]. Qed.

Lemma hincrby_int_field r k f n :
  int_field (hget r k f) = true →
  hincrby r k f n = Some (hset r k f (RInt (default 0 (int_or (hget r k f) 0) + n))).
Proof.
  unfold hincrby. destruct (hget r k f) as [[z|s|d]|]; simpl; try done.
Qed.

Lemma int_or_int_field o d :
  int_field o = true → int_or o d = Some (default d (int_or o d)).
Proof. by destruct o as [[z|s|d']|]. Qed.

(** What one call of [fail_job] does, for a job whose counters are well
    formed. *)
Lemma fail_job_requeue r now q j e m retries :
  int_field (hget r (job_key j) "retries") = true →
  int_field (hget r (job_key j) "priority") = true →
  retries_of r j = Some retries →
  retries < m →
  fail_job r now q j e true m =
    Some (srem (hset (zadd (hset (hset r (job_key j) "retries" (RInt (retries + 1)))
                                 (job_key j) "last_error" (RStr (str_or e "Unknown error")))
                           (queue_key q) j (default 5 (priority_of r j) + 1))
                     (job_key j) "status" (RStr "pending"))
               (processing_key q) j).
Proof.
  intros Hr Hp Hret Hlt. unfold fail_job, retries_of in *.
  rewrite Hret; simpl. rewrite bool_decide_eq_true_2 by done.
  rewrite (hincrby_int_field _ _ _ _ Hr), Hret; simpl.
  rewrite !hget_hset_field_ne by done.
  rewrite (int_or_int_field _ 5 Hp); simpl. done.
Qed.

Lemma fail_job_give_up r now q j e retry m retries :
  retries_of r j = Some retries →
  ¬ (retry = true ∧ retries < m) →
  fail_job r now q j e retry m =
    Some (srem (incr (let r2 := hset (hset r (job_key j) "status" (RStr "failed"))
                                     (job_key j) "failed_at" (RInt now) in
                      if truthy_str e
                      then hset r2 (job_key j) "error" (RStr (default "" e))
                      else r2)
                     (stats_key q "failed"))
               (processing_key q) j).
Proof.
  intros Hret Hno. unfold fail_job, retries_of in *. rewrite Hret; simpl.
  destruct retry; simpl; [|done].
  rewrite bool_decide_eq_false_2; [done|]. intros ?. by apply Hno.
Qed.

(** Reading the state after the requeue branch. *)
Lemma fail_job_requeue_reads r r' now q j e m retries priority :
  int_field (hget r (job_key j) "retries") = true →
  int_field (hget r (job_key j) "priority") = true →
  retries_of r j = Some retries →
  priority_of r j = Some priority →
  retries < m →
  fail_job r now q j e true m = Some r' →
  retries_of r' j = Some (retries + 1) ∧
  zscore r' (queue_key q) j = Some (priority + 1) ∧
  hget r' (job_key j) "status" = Some (RStr "pending") ∧
  counters r' = counters r ∧
  (j ∉ smembers r' (processing_key q)).
Proof.
  intros Hr Hp Hret Hpri Hlt Hf.
  rewrite (fail_job_requeue _ _ _ _ _ _ _ Hr Hp Hret Hlt), Hpri in Hf.
  injection Hf as <-. simpl default. unfold retries_of.
  rewrite !hget_srem, hget_hset_eq.
  rewrite hget_hset_field_ne, hget_zadd, hget_hset_field_ne, hget_hset_eq by done.
  repeat split; [apply zscore_zadd_eq|apply not_elem_of_srem].
Qed.

(** Reading the state after the final failure. *)
Lemma fail_job_give_up_reads r r' now q j e retry m retries :
  retries_of r j = Some retries →
  ¬ (retry = true ∧ retries < m) →
  fail_job r now q j e retry m = Some r' →
  hget r' (job_key j) "status" = Some (RStr "failed") ∧
  get_counter r' (stats_key q "failed") = get_counter r (stats_key q "failed") + 1 ∧
  zsets r' = zsets r ∧
  retries_of r' j = Some retries ∧
  (j ∉ smembers r' (processing_key q)).
Proof.
  intros Hret Hno Hf. rewrite (fail_job_give_up _ _ _ _ _ _ _ _ Hret Hno) in Hf.
  injection Hf as <-. cbn zeta. unfold retries_of in *.
  rewrite !hget_srem, !hget_incr, !hget_hset_if by done.
  rewrite !hget_hset_field_ne with (f := "failed_at") by done.
  rewrite hget_hset_eq, hget_hset_field_ne by done.
  split; [done|]. split.
  - change (get_counter (srem ?x ?p ?jj) ?c) with (get_counter x c).
    rewrite get_counter_incr_eq. by destruct (truthy_str e).
  - split; [by destruct (truthy_str e)|]. split; [done|apply not_elem_of_srem].
Qed.

(** Neither [fail_job] nor [complete_job] writes the [priority] field,
    of any job. *)
Lemma fail_job_priority_field r r' now q j e retry m k :
  fail_job r now q j e retry m = Some r' →
  hget r' k "priority" = hget r k "priority".
Proof.
  unfold fail_job. intros Hf.
  destruct (int_or (hget r (job_key j) "retries") 0) as [retries|]; [|done].
  simpl in Hf.
  destruct (retry && bool_decide (retries < m)).
  - destruct (hincrby r (job_key j) "retries" 1) as [r1|] eqn:Hinc; [|done].
    simpl in Hf.
    destruct (int_or _ 5) as [pri|]; [|done]. simpl in Hf.
    injection Hf as <-.
    rewrite hget_srem, hget_hset_field_ne, hget_zadd, hget_hset_field_ne by done.
    by apply (hget_hincrby _ _ _ _ _ _ _ Hinc).
  - simpl in Hf. injection Hf as <-.
    rewrite hget_srem, hget_incr, hget_hset_if by done.
    by rewrite !hget_hset_field_ne by done.
Qed.

Lemma complete_job_priority_field r now q j res k :
  hget (complete_job r now q j res) k "priority" = hget r k "priority".
Proof.
  unfold complete_job. rewrite hget_incr, hget_srem.
  destruct res as [res|]; [case_bool_decide|];
    by rewrite !hget_hset_field_ne by done.
Qed.

Lemma run_ops_priority_field os : ∀ r r' k,
  run_ops os r = Some r' → hget r' k "priority" = hget r k "priority".
Proof.
  induction os as [|o os IH]; intros r r' k Hrun; simpl in Hrun.
  - by injection Hrun as <-.
  - destruct (run_op o r) as [r1|] eqn:Hop; [|done]. simpl in Hrun.
    rewrite (IH _ _ _ Hrun). destruct o; simpl in Hop.
    + by apply (fail_job_priority_field _ _ _ _ _ _ _ _ _ Hop).
    + injection Hop as <-. apply complete_job_priority_field.
Qed.

Lemma enqueue_job_priority_field r now q data p :
  hget (enqueue_job r now q data p).2
       (job_key (enqueue_job r now q data p).1) "priority" = Some (RInt p).
Proof.
  unfold enqueue_job; simpl.
  rewrite hget_zadd, !hget_hset_field_ne by done. apply hget_hset_eq.
Qed.

(** A requeue puts the job back at the stored priority plus one. *)
Lemma fail_job_requeue_score r r' now q j e m retries :
  fail_job r now q j e true m = Some r' →
  retries_of r j = Some retries →
  retries < m →
  ∃ priority, priority_of r j = Some priority ∧
              zscore r' (queue_key q) j = Some (priority + 1).
Proof.
  unfold fail_job, retries_of, priority_of. intros Hf Hret Hlt.
  rewrite Hret in Hf. simpl in Hf. rewrite bool_decide_eq_true_2 in Hf by done.
  destruct (hincrby r (job_key j) "retries" 1) as [r1|] eqn:Hinc; [|done].
  simpl in Hf. rewrite hget_hset_field_ne in Hf by done.
  rewrite (hget_hincrby _ _ _ _ _ _ _ Hinc) in Hf by done.
  destruct (int_or (hget r (job_key j) "priority") 5) as [pri|]; [|done].
  simpl in Hf. injection Hf as <-. exists pri. split; [done|].
  change (zscore (srem (hset ?x ?k ?f ?v) ?p ?jj) ?zk ?zm) with (zscore x zk zm).
  apply zscore_zadd_eq.
Qed.

End RedisFacts.

(** ** Diff engine: the text diff *)

Section DiffFacts.
Import Catalog Diff.

Implicit Types (s : loop_state) (o : opcode) (c : change) (cs : list change).

Lemma length_range a b : length (range a b) = (b - a)%nat.
Proof. apply length_seq. Qed.

Lemma collect_Forall (P : change → Prop) lines a b entry cs :
  (∀ i line, P (entry i line)) →
  collect lines a b entry = Some cs → Forall P cs.
Proof.
  intros HP Hc. apply mapM_Some_1 in Hc.
  induction Hc as [|i c is' cs' Hi _ IH]; constructor; [|done].
  destruct (lines !! i) as [line|]; simplify_eq/=. apply HP.
Qed.

Lemma collect_length lines a b entry cs :
  collect lines a b entry = Some cs → length cs = (b - a)%nat.
Proof.
  intros Hc. apply mapM_Some_1, Forall2_length in Hc.
  by rewrite <- Hc, length_range.
Qed.

(** Ranges inside the line array never raise. *)
Lemma collect_in_range lines a b entry :
  (b ≤ length lines)%nat → is_Some (collect lines a b entry).
Proof.
  intros Hb. apply mapM_is_Some_2, Forall_forall. intros i Hi.
  unfold range in Hi. apply elem_of_seq in Hi.
  destruct (lookup_lt_is_Some_2 lines i) as [line Hl]; [lia|].
  simpl. rewrite Hl. by eexists.
Qed.

(** The entries collected from [range(a, b)] carry the lines [a .. b-1]. *)
Lemma mapM_seq_contents lines entry (f : string → string) n : ∀ a cs,
  (∀ i line, c_content (entry i line) = f line) →
  mapM (λ i, line ← lines !! i; Some (entry i line)) (seq a n) = Some cs →
  c_content <$> cs = f <$> take n (drop a lines).
Proof.
  induction n as [|n IH]; intros a cs Hf Hc; simpl in Hc.
  - injection Hc as <-. by rewrite take_0.
  - destruct (lines !! a) as [line|] eqn:Hl; [|done]. simpl in Hc.
    destruct (mapM _ (seq (S a) n)) as [cs'|] eqn:Hrest; [|done].
    simpl in Hc. injection Hc as <-.
    rewrite (drop_S _ _ _ Hl). simpl. rewrite Hf. f_equal. by apply IH.
Qed.

Lemma collect_contents lines a b entry (f : string → string) cs :
  collect lines a b entry = Some cs →
  (∀ i line, c_content (entry i line) = f line) →
  c_content <$> cs = f <$> take (b - a) (drop a lines).
Proof. intros Hc Hf. by eapply mapM_seq_contents. Qed.

Lemma existsb_app_context cs lead :
  Forall (λ c, c_type c = "context") lead →
  existsb (λ c, negb (is_context c)) (cs ++ lead)
  = existsb (λ c, negb (is_context c)) cs.
Proof.
  intros Hlead. rewrite existsb_app.
  assert (Hno : existsb (λ c, negb (is_context c)) lead = false).
  { induction Hlead as [|c lead Hc _ IH]; [done|].
    simpl. unfold is_context at 1. by rewrite Hc, IH. }
  rewrite Hno. apply orb_false_r.
Qed.

Lemma plain_append s cs :
  plain_state s → Forall plain_change cs → plain_state (append_changes s cs).
Proof.
  intros [Hc Hh] Hcs. split; [|done]. simpl. by apply Forall_app.
Qed.

Lemma deletions_plain lines s o cs :
  deletions_of lines s o = Some cs → Forall plain_change cs.
Proof. apply collect_Forall. intros; right; by left. Qed.

Lemma insertions_plain lines s o cs :
  insertions_of lines s o = Some cs → Forall plain_change cs.
Proof. apply collect_Forall. intros; right; by right. Qed.

Lemma context_plain lines s o cs :
  context_of lines s o = Some cs → Forall plain_change cs.
Proof. apply collect_Forall. intros; by left. Qed.

Lemma step_plain old_lines new_lines s s' o :
  plain_state s → step old_lines new_lines s o = Some s' → plain_state s'.
Proof.
  intros Hs. unfold step. destruct (op_tag o).
  - case_bool_decide.
    + unfold split_equal. intros Hstep.
      destruct (collect old_lines (i1 o) _ _) as [lead|] eqn:Hlead; [|done].
      simpl in Hstep.
      destruct (collect old_lines (max _ _) _ _) as [trail|] eqn:Htrail; [|done].
      simpl in Hstep. injection Hstep as <-.
      assert (Forall plain_change lead)
        by (eapply collect_Forall; [|exact Hlead]; intros; by left).
      assert (Forall plain_change trail)
        by (eapply collect_Forall; [|exact Htrail]; intros; by left).
      destruct Hs as [Hc Hh]. split; simpl; [done|].
      destruct (existsb _ _); [|done].
      apply Forall_app; split; [done|]. constructor; [|done].
      simpl. by apply Forall_app.
    + intros Hstep. destruct (context_of _ _ _) as [cs|] eqn:Hcs; [|done].
      injection Hstep as <-. apply plain_append; [done|]. by eapply context_plain.
  - intros Hstep.
    destruct (deletions_of _ _ _) as [dels|] eqn:Hd; [|done]. simpl in Hstep.
    destruct (insertions_of _ _ _) as [ins|] eqn:Hi; [|done]. simpl in Hstep.
    injection Hstep as <-. apply plain_append; [done|].
    apply Forall_app; split; [by eapply deletions_plain|by eapply insertions_plain].
  - intros Hstep. destruct (deletions_of _ _ _) as [cs|] eqn:Hcs; [|done].
    injection Hstep as <-. apply plain_append; [done|]. by eapply deletions_plain.
  - intros Hstep. destruct (insertions_of _ _ _) as [cs|] eqn:Hcs; [|done].
    injection Hstep as <-. apply plain_append; [done|]. by eapply insertions_plain.
Qed.

Lemma run_loop_plain old_lines new_lines opcodes : ∀ s s',
  plain_state s → run_loop old_lines new_lines s opcodes = Some s' → plain_state s'.
Proof.
  induction opcodes as [|o rest IH]; intros s s' Hs Hrun; simpl in Hrun.
  - by injection Hrun as <-.
  - destruct (step old_lines new_lines s o) as [s1|] eqn:Hstep; [|done].
    simpl in Hrun. eapply IH; [|exact Hrun]. by eapply step_plain.
Qed.

Lemma hunks_of_opcodes_plain old_lines new_lines opcodes doc :
  hunks_of_opcodes old_lines new_lines opcodes = Some doc →
  Forall (λ h, Forall plain_change (h_changes h)) doc.
Proof.
  unfold hunks_of_opcodes. intros Hdoc.
  destruct (run_loop _ _ _ _) as [s|] eqn:Hrun; [|done]. simpl in Hdoc.
  assert (Hinit : plain_state loop_init) by (split; constructor).
  destruct (run_loop_plain _ _ _ _ _ Hinit Hrun) as [Hc Hh].
  destruct (hunk_changes s) as [|c cs] eqn:Hcs.
  - by injection Hdoc as <-.
  - destruct (last opcodes) as [o|]; [|done]. injection Hdoc as <-.
    apply Forall_app; split; [done|]. constructor; [|done]. done.
Qed.

(** Counting over plain entries never touches the [changes] counter. *)
Lemma count_change_plain (acc : Z * Z * Z) c :
  plain_change c → (count_change acc c).2 = acc.2.
Proof.
  destruct acc as [[a d] ch]. unfold count_change.
  intros [Hc|[Hc|Hc]]; rewrite Hc; reflexivity.
Qed.

Lemma foldl_count_change_plain cs : ∀ acc : Z * Z * Z,
  Forall plain_change cs → (foldl count_change acc cs).2 = acc.2.
Proof.
  induction cs as [|c cs IH]; intros acc Hcs; [done|].
  apply Forall_cons in Hcs as [Hc Hcs]. simpl.
  rewrite IH by done. by apply count_change_plain.
Qed.

Lemma foldl_hunks_plain (doc : list hunk) : ∀ acc : Z * Z * Z,
  Forall (λ h, Forall plain_change (h_changes h)) doc →
  (foldl (λ acc h, foldl count_change acc (h_changes h)) acc doc).2 = acc.2.
Proof.
  induction doc as [|h doc IH]; intros acc Hdoc; [done|].
  apply Forall_cons in Hdoc as [Hh Hdoc]. simpl.
  rewrite IH by done. by apply foldl_count_change_plain.
Qed.

Lemma stats_total (doc : list hunk) :
  total (_calculate_diff_stats doc)
  = additions (_calculate_diff_stats doc) + deletions (_calculate_diff_stats doc)
    + changes (_calculate_diff_stats doc).
Proof.
  unfold _calculate_diff_stats.
  by destruct (foldl _ _ doc) as [[a d] ch].
Qed.

Lemma stats_changes (doc : list hunk) :
  changes (_calculate_diff_stats doc)
  = (foldl (λ acc h, foldl count_change acc (h_changes h)) (0, 0, 0) doc).2.
Proof.
  unfold _calculate_diff_stats.
  by destruct (foldl _ _ doc) as [[a d] ch].
Qed.

End DiffFacts.

(** ** Diff engine: diff rows and opcodes in range *)

Section GenerateDiffFacts.
Import Catalog Diff.
Context `{DiffLib}.






(** Resolves the next [collect] over [lines] in the goal, whose range lies
    inside [lines]. *)
Ltac collect_some lines :=
  match goal with
  | |- context [collect lines ?a ?b ?e] =>
      destruct (collect_in_range lines a b e) as [? ->]; [lia|]; simpl
  end.

Lemma step_in_range old_lines new_lines s o :
  (i2 o ≤ length old_lines)%nat → (j2 o ≤ length new_lines)%nat →
  is_Some (step old_lines new_lines s o).
Proof.
  intros Hi Hj. unfold step, split_equal, context_of, deletions_of, insertions_of.
  destruct (op_tag o).
  - case_bool_decide.
    + collect_some old_lines. collect_some old_lines. by eexists.
    + collect_some old_lines. by eexists.
  - collect_some old_lines. collect_some new_lines. by eexists.
  - collect_some old_lines. by eexists.
  - collect_some new_lines. by eexists.
Qed.

Lemma run_loop_in_range old_lines new_lines opcodes : ∀ s,
  Forall (λ o, (i2 o ≤ length old_lines)%nat ∧ (j2 o ≤ length new_lines)%nat) opcodes →
  is_Some (run_loop old_lines new_lines s opcodes).
Proof.
  induction opcodes as [|o rest IH]; intros s Hall; simpl; [by eexists|].
  apply Forall_cons in Hall as [[Hi Hj] Hall].
  destruct (step_in_range old_lines new_lines s o Hi Hj) as [s1 ->]. simpl.
  by apply IH.
Qed.

(** With opcodes in range the text diff returns a document. *)
Lemma hunks_of_opcodes_in_range old_lines new_lines opcodes :
  Forall (λ o, (i2 o ≤ length old_lines)%nat ∧ (j2 o ≤ length new_lines)%nat) opcodes →
  is_Some (hunks_of_opcodes old_lines new_lines opcodes).
Proof.
  intros Hall. unfold hunks_of_opcodes.
  destruct (run_loop_in_range old_lines new_lines opcodes loop_init Hall) as [s Hs].
  rewrite Hs. simpl.
  destruct (hunk_changes s) as [|c cs] eqn:Hcs; [by eexists|].
  destruct (last opcodes) as [o|] eqn:Hlast; [by eexists|].
  apply last_None in Hlast. subst opcodes. simpl in Hs. injection Hs as <-.
  done.
Qed.

End GenerateDiffFacts.

(** ** Diff engine: [generate_diff] *)

Section GenerateDiffRuns.
Import Catalog Diff.
Context `{DiffLib}.





End GenerateDiffRuns.

(** ** Catalog *)

Section CatalogFacts.
Import Catalog.

#[global] Instance pending_le_total : Total pending_le.
Proof.
  intros a b. unfold pending_le, nulls_first_le.
  destruct (last_checked_at a), (last_checked_at b);
    destruct (Z.lt_trichotomy (priority a) (priority b)) as [?|[?|?]]; lia.
Qed.

#[global] Instance pending_le_trans : Transitive pending_le.
Proof.
  intros a b c. unfold pending_le, nulls_first_le.
  destruct (last_checked_at a), (last_checked_at b), (last_checked_at c); lia.
Qed.

Lemma pending_row_true d a :
  pending_row d a = true →
  enabled a = true ∧
  ∀ q, q ∈ archive_queue d → id_matches (a_id a) (q_archive_id q) = true →
       q_status q ≠ "pending" ∧ q_status q ≠ "in_progress".
Proof.
  unfold pending_row. intros [Hen Hq]%andb_true_iff. split; [done|].
  intros q Hin Hid. apply negb_true_iff in Hq.
  assert (Hout : outstanding_for a q = false).
  { destruct (outstanding_for a q) eqn:Ho; [|done].
    rewrite <- Hq. symmetry. apply existsb_exists. exists q.
    split; [by apply list_elem_of_In|done]. }
  unfold outstanding_for in Hout. rewrite Hid in Hout. simpl in Hout.
  apply orb_false_iff in Hout as [Hp Hi].
  split; intros Heq; rewrite Heq in *; done.
Qed.

Lemma get_pending_sorted_prefix d n :
  get_pending d n ++ drop n (merge_sort pending_le
                               (filter (λ a, pending_row d a = true) (archives d)))
  = merge_sort pending_le (filter (λ a, pending_row d a = true) (archives d)).
Proof. apply take_drop. Qed.

End CatalogFacts.

(** ** Capture worker and change detector *)

Section CrawlFacts.
Import Catalog Crawl.
Context `{HashLib}.

Lemma crawl_non_200 cfg dom now code text url env :
  code ≠ 200 →
  crawl cfg dom now (Response code text url) env =
    mkCrawlResult false None None None None None None (Some code) None
      (Some ("HTTP status code: " +:+ pretty code))
      (<["final_url" := MStr url]>
         (<["domain" := MStr dom]>
            (<["timestamp" := MNum now]> (<["url" := MStr ("https://" +:+ dom)]> ∅)))).
Proof. intros Hcode. unfold crawl. by rewrite bool_decide_eq_false_2. Qed.

(** The object a capture hands back: untouched, checked, or checked and
    then changed. *)
Lemma crawl_archive_object cfg w a f env t :
  (crawl_archive cfg w a f env t).2 = a
  ∨ (crawl_archive cfg w a f env t).2
    = with_times a (Some (t_check t)) (last_changed_at a)
  ∨ (crawl_archive cfg w a f env t).2
    = with_times a (Some (t_check t)) (Some (t_change t)).
Proof.
  unfold crawl_archive. case_bool_decide; [by left|].
  destruct (success _); [|by left]. cbn zeta beta iota.
  unfold update_check_time, snapshot_save. simpl truthy_id. cbn zeta beta iota.
  unfold _process_changes.
  destruct (get_latest_for_archive _ _) as [previous|]; [|by right; left].
  case_bool_decide; [by right; left|].
  case_bool_decide; [by right; left|].
  right; right. reflexivity.
Qed.

(** The newest snapshot of a site is the one just saved, when all the
    stored ones are older. *)
Lemma foldl_newer_elem l : ∀ acc,
  foldl newer acc l = acc ∨ ∃ b, b ∈ l ∧ foldl newer acc l = Some b.
Proof.
  induction l as [|s l IH]; intros acc; [by left|]. simpl.
  destruct (IH (newer acc s)) as [Heq|(b & Hb & Heq)].
  - rewrite Heq. unfold newer. destruct acc as [b|].
    + case_bool_decide; [|by left]. right. exists s. split; [left|done].
    + right. exists s. split; [left|done].
  - right. exists b. split; [by right|done].
Qed.

Lemma latest_is_new d i new seq :
  id_matches (archive_id new) i = true →
  (∀ s, s ∈ snapshots d → id_matches (archive_id s) i = true →
        capture_timestamp s < capture_timestamp new) →
  get_latest_for_archive (set_snapshots d (snapshots d ++ [new]) seq) i = Some new.
Proof.
  intros Hid Hold. unfold get_latest_for_archive. simpl.
  rewrite filter_app, foldl_app.
  rewrite filter_cons, decide_True by done. simpl.
  destruct (foldl_newer_elem
              (filter (λ s, id_matches (archive_id s) i = true) (snapshots d)) None)
    as [-> | (b & Hb & ->)]; [done|].
  apply list_elem_of_filter in Hb as [Hbid Hb]. simpl.
  by rewrite bool_decide_eq_true_2 by by apply Hold.
Qed.

(** In the usual run (the site has an id, is not being crawled, and its
    stored snapshots are older than the new capture) the change detector
    finds the snapshot just saved and stops: nothing is enqueued and the
    change time stays, whatever the two hashes are. *)
Lemma crawl_archive_detects_nothing cfg w a i text url env t :
  a_id a = Some i →
  a_id a ∉ active_crawls w →
  (∀ s, s ∈ snapshots (w_db w) → id_matches (archive_id s) (Some i) = true →
        capture_timestamp s < t_capture t) →
  ∃ w' a',
    crawl_archive cfg w a (Response 200 text url) env t = (true, w', a') ∧
    w_redis w' = w_redis w ∧
    archive_queue (w_db w') = archive_queue (w_db w) ∧
    length (snapshots (w_db w')) = S (length (snapshots (w_db w))) ∧
    last_checked_at a' = Some (t_check t) ∧
    last_changed_at a' = last_changed_at a.
Proof.
  intros Hid Hfree Hold. unfold crawl_archive.
  rewrite bool_decide_eq_false_2 by done.
  unfold crawl. simpl negb. cbn iota. cbn [success].
  unfold update_check_time, snapshot_save. simpl truthy_id. cbn zeta beta iota.
  unfold _process_changes. cbn [w_db a_id with_times].
  rewrite Hid.
  rewrite (latest_is_new (update_archives (w_db w) (Some i) _) (Some i)).
  - cbn [s_id snapshot_with_id]. rewrite bool_decide_eq_true_2 by done.
    eexists _, _. split; [reflexivity|]. simpl.
    repeat split; try done. rewrite length_app. simpl. lia.
  - simpl. by rewrite bool_decide_eq_true_2.
  - simpl. intros s Hs Hm. by apply Hold.
Qed.

(** When the change detector does find an older snapshot with another
    hash, it stamps the change time, puts one job of priority 3 on the diff
    queue and appends one pending [diff] entry. *)
Lemma process_changes_enqueues w a new_snapshot previous t :
  get_latest_for_archive (w_db w) (a_id a) = Some previous →
  s_id previous ≠ s_id new_snapshot →
  content_hash previous ≠ content_hash new_snapshot →
  ∃ job_data,
    _process_changes w a new_snapshot t =
      (mkWorld (insert_queue (update_change_time a (w_db w) (t_change t)).2
                  (a_id a) "diff" "pending" 3 (t_scheduled t))
               (Redis.enqueue_job (w_redis w) (t_enqueue t) "archive:diff" job_data 3).2
               (active_crawls w),
       with_times a (last_checked_at a) (Some (t_change t))).
Proof.
  intros Hlatest Hid Hhash. unfold _process_changes. rewrite Hlatest.
  rewrite !bool_decide_eq_false_2 by done. by eexists.
Qed.

(** Otherwise it changes nothing. *)
Lemma process_changes_noop w a new_snapshot t :
  (∀ previous, get_latest_for_archive (w_db w) (a_id a) = Some previous →
               s_id previous = s_id new_snapshot
               ∨ content_hash previous = content_hash new_snapshot) →
  _process_changes w a new_snapshot t = (w, a).
Proof.
  intros Hsame. unfold _process_changes.
  destruct (get_latest_for_archive _ _) as [previous|]; [|done].
  destruct (Hsame previous eq_refl) as [Hid|Hhash].
  - by rewrite bool_decide_eq_true_2.
  - case_bool_decide; [done|]. by rewrite bool_decide_eq_true_2.
Qed.

End CrawlFacts.

(** ** Histories of one site *)

Section SiteHistories.
Import Catalog Crawl.
Context `{HashLib}.

Lemma times_bounded_mono t t' a : t ≤ t' → times_bounded t a → times_bounded t' a.
Proof.
  intros Hle [Hk Hc]. split; intros x Hx; [specialize (Hk x Hx)|specialize (Hc x Hx)]; lia.
Qed.

Lemma archive_save_times a d :
  last_checked_at (archive_save a d).1.2 = last_checked_at a
  ∧ last_changed_at (archive_save a d).1.2 = last_changed_at a.
Proof. unfold archive_save. by destruct (truthy_id _). Qed.

Lemma run_site_ops_snoc cfg ops o st :
  run_site_ops cfg (ops ++ [o]) st = run_site_op cfg (run_site_ops cfg ops st) o.
Proof. unfold run_site_ops. by rewrite foldl_app. Qed.

Lemma clock_ordered_app t0 l1 l2 :
  clock_ordered t0 (l1 ++ l2) ↔ clock_ordered t0 l1 ∧ clock_ordered (last_clock t0 l1) l2.
Proof.
  revert t0. induction l1 as [|o l1 IH]; intros t0; simpl; [tauto|].
  destruct o; rewrite ?IH; tauto.
Qed.

Lemma last_clock_app t0 l1 l2 :
  last_clock t0 (l1 ++ l2) = last_clock (last_clock t0 l1) l2.
Proof.
  revert t0. induction l1 as [|o l1 IH]; intros t0; simpl; [done|].
  by destruct o.
Qed.

(** One operation keeps both timestamps at or before the clock. *)
Lemma run_site_op_bounded cfg st o t0 :
  times_bounded t0 st.2 → clock_ordered t0 [o] →
  times_bounded (last_clock t0 [o]) (run_site_op cfg st o).2.
Proof.
  intros Hb Hord. destruct st as [w a]. destruct o as [|now|now|f env t]; simpl in *.
  - destruct (archive_save a (w_db w)) as [[i a'] d] eqn:Hsave.
    pose proof (archive_save_times a (w_db w)) as [Hk Hc].
    rewrite Hsave in Hk, Hc. simpl in *.
    destruct Hb as [Hbk Hbc]. split; intros x Hx.
    + apply Hbk. by rewrite <- Hk.
    + apply Hbc. by rewrite <- Hc.
  - destruct Hord as [Hle _]. destruct Hb as [Hbk Hbc]. split; simpl; intros x Hx.
    + injection Hx as <-. lia.
    + specialize (Hbc x Hx). lia.
  - destruct Hord as [Hle _]. destruct Hb as [Hbk Hbc]. split; simpl; intros x Hx.
    + specialize (Hbk x Hx). lia.
    + injection Hx as <-. lia.
  - destruct Hord as (Hle & (? & ? & ? & ? & ?) & _).
    pose proof (crawl_archive_object cfg w a f env t) as Hobj.
    destruct (crawl_archive cfg w a f env t) as [[ok w'] a'] eqn:Hrun.
    simpl in *. destruct Hb as [Hbk Hbc].
    destruct Hobj as [-> | [-> | ->]]; split; simpl; intros x Hx;
      first [injection Hx as <-; lia
            |specialize (Hbk x Hx); lia
            |specialize (Hbc x Hx); lia].
Qed.

Lemma run_site_ops_bounded cfg ops : ∀ st t0,
  times_bounded t0 st.2 → clock_ordered t0 ops →
  times_bounded (last_clock t0 ops) (run_site_ops cfg ops st).2.
Proof.
  induction ops as [|o ops IH] using rev_ind; intros st t0 Hb Hord; [done|].
  apply clock_ordered_app in Hord as [Hord1 Hord2].
  rewrite run_site_ops_snoc, last_clock_app.
  apply run_site_op_bounded; [|done]. by apply IH.
Qed.

End SiteHistories.

(** ** Hunk splitting *)

Section SplitFacts.
Import Catalog Diff.

Implicit Types (s : loop_state) (o : opcode) (c : change) (cs : list change).

Lemma prefix_app_self {A} (l k : list A) : l `prefix_of` l ++ k.
Proof. by exists k. Qed.

Lemma holds_change_app cs1 cs2 :
  holds_change (cs1 ++ cs2) = holds_change cs1 || holds_change cs2.
Proof. apply existsb_app. Qed.

Lemma holds_change_context cs :
  Forall (λ c, c_type c = "context") cs → holds_change cs = false.
Proof.
  induction 1 as [|c cs Hc _ IH]; [done|]. simpl.
  unfold is_context at 1. by rewrite Hc, IH.
Qed.

Lemma collect_holds_change lines a b entry cs :
  collect lines a b entry = Some cs →
  (∀ i line, is_context (entry i line) = false) →
  (a < b)%nat → holds_change cs = true.
Proof.
  intros Hc Hentry Hab. pose proof (collect_length _ _ _ _ _ Hc) as Hlen.
  destruct cs as [|c cs]; [simpl in Hlen; lia|].
  assert (Hall : Forall (λ c, is_context c = false) (c :: cs))
    by (eapply collect_Forall; [|exact Hc]; done).
  apply Forall_cons in Hall as [Hc0 _]. simpl. by rewrite Hc0.
Qed.

(** What one turn of the loop does to the closed hunks and to the hunk
    under construction. *)
Lemma step_shape old_lines new_lines s o s' :
  step old_lines new_lines s o = Some s' →
  (¬ splits o ∧ hunks s' = hunks s ∧
   ∃ cs, hunk_changes s' = hunk_changes s ++ cs
         ∧ (adds_change o = true → holds_change cs = true))
  ∨ (splits o ∧
     ∃ lead, Forall (λ c, c_type c = "context") lead ∧
       hunks s' = (if holds_change (hunk_changes s)
                   then hunks s ++ [make_hunk (old_start s)
                                      (Z.of_nat (i1 o) + 3 - old_start s)
                                      (new_start s)
                                      (Z.of_nat (j1 o) + 3 - new_start s)
                                      (hunk_changes s ++ lead)]
                   else hunks s)).
Proof.
  unfold step, splits, adds_change. destruct (op_tag o) eqn:Htag.
  - case_bool_decide as Hbig.
    + unfold split_equal. intros Hs. right. split; [done|].
      destruct (collect old_lines (i1 o) _ _) as [lead|] eqn:Hlead; [|done].
      simpl in Hs.
      destruct (collect old_lines (max (i1 o) (i2 o - 3)) _ _) as [trail|]; [|done].
      simpl in Hs. injection Hs as <-. simpl.
      assert (Hlc : Forall (λ c, c_type c = "context") lead)
        by (eapply collect_Forall; [|exact Hlead]; done).
      exists lead. split; [done|].
      fold (holds_change (hunk_changes s ++ lead)).
      rewrite holds_change_app, (holds_change_context lead Hlc), orb_false_r. done.
    + intros Hs. left. split; [intros [_ ?]; lia|].
      destruct (context_of old_lines s o) as [cs|]; [|done].
      injection Hs as <-. split; [done|]. by exists cs.
  - intros Hs. left. split; [by intros [? _]|].
    destruct (deletions_of old_lines s o) as [dels|] eqn:Hd; [|done]. simpl in Hs.
    destruct (insertions_of new_lines s o) as [ins|] eqn:Hi; [|done]. simpl in Hs.
    injection Hs as <-. split; [done|]. exists (dels ++ ins). split; [done|].
    rewrite holds_change_app. intros [Hlt|Hlt]%orb_true_iff; apply bool_decide_eq_true in Hlt.
    + by rewrite (collect_holds_change _ _ _ _ _ Hd).
    + rewrite (collect_holds_change _ _ _ _ _ Hi) by done. apply orb_true_r.
  - intros Hs. left. split; [by intros [? _]|].
    destruct (deletions_of old_lines s o) as [dels|] eqn:Hd; [|done].
    injection Hs as <-. split; [done|]. exists dels. split; [done|].
    intros Hlt%bool_decide_eq_true. by apply (collect_holds_change _ _ _ _ _ Hd).
  - intros Hs. left. split; [by intros [? _]|].
    destruct (insertions_of new_lines s o) as [ins|] eqn:Hi; [|done].
    injection Hs as <-. split; [done|]. exists ins. split; [done|].
    intros Hlt%bool_decide_eq_true. by apply (collect_holds_change _ _ _ _ _ Hi).
Qed.

Lemma run_loop_app old_lines new_lines ops1 : ∀ s ops2,
  run_loop old_lines new_lines s (ops1 ++ ops2)
  = s1 ← run_loop old_lines new_lines s ops1; run_loop old_lines new_lines s1 ops2.
Proof.
  induction ops1 as [|o ops1 IH]; intros s ops2; simpl; [done|].
  destruct (step old_lines new_lines s o) as [s1|]; simpl; [apply IH|done].
Qed.

(** Closed hunks stay, and the hunk under construction is continued, closed
    or thrown away. *)
Lemma run_loop_carries old_lines new_lines ops : ∀ s sf,
  run_loop old_lines new_lines s ops = Some sf →
  hunks s `prefix_of` hunks sf ∧
  ((hunks sf = hunks s ∧ hunk_changes s `prefix_of` hunk_changes sf)
   ∨ (∃ h, hunks sf !! length (hunks s) = Some h
           ∧ hunk_changes s `prefix_of` h_changes h)
   ∨ discarded (hunk_changes s) ops).
Proof.
  induction ops as [|o rest IH]; intros s sf; simpl.
  - intros [= <-]. split; [done|]. by left.
  - destruct (step old_lines new_lines s o) as [s1|] eqn:Hstep; [|done]. simpl.
    intros Hrest. destruct (IH s1 sf Hrest) as [Hpre Hcur].
    destruct (step_shape _ _ _ _ _ Hstep)
      as [(Hno & Hh & cs & Hcs & Hadds)|(Hsplit & lead & Hlead & Hh)].
    + rewrite Hh in Hpre, Hcur. rewrite Hcs in Hcur. split; [done|].
      destruct Hcur as [[Heq Hp]|[(h & Hh' & Hp)|(Hnone & mid & o' & rest' & -> & Hs & Hq)]].
      * left. split; [done|]. etrans; [|exact Hp]. apply prefix_app_self.
      * right. left. exists h. split; [done|]. etrans; [|exact Hp].
        apply prefix_app_self.
      * right. right. rewrite holds_change_app in Hnone.
        apply orb_false_iff in Hnone as [Hnone Hcsn]. split; [done|].
        exists (o :: mid), o', rest'. split; [done|]. split; [done|].
        constructor; [|done]. destruct (adds_change o); [|done].
        rewrite Hadds in Hcsn; done.
    + destruct (holds_change (hunk_changes s)) eqn:Hchg.
      * rewrite Hh in Hpre. split; [etrans; [|exact Hpre]; apply prefix_app_self|].
        right. left.
        exists (make_hunk (old_start s) (Z.of_nat (i1 o) + 3 - old_start s)
                  (new_start s) (Z.of_nat (j1 o) + 3 - new_start s)
                  (hunk_changes s ++ lead)).
        split; [|apply prefix_app_self].
        destruct Hpre as [more ->]. rewrite <- app_assoc. simpl.
        by rewrite list_lookup_middle.
      * rewrite Hh in Hpre. split; [done|]. right. right. split; [done|].
        exists [], o, rest. done.
Qed.

(** The same, up to the document. *)
Lemma document_carries old_lines new_lines pre post s doc :
  run_loop old_lines new_lines loop_init pre = Some s →
  hunks_of_opcodes old_lines new_lines (pre ++ post) = Some doc →
  hunks s `prefix_of` doc ∧
  carried_into doc (length (hunks s)) (hunk_changes s) post.
Proof.
  intros Hpre. unfold hunks_of_opcodes. rewrite run_loop_app, Hpre. simpl.
  destruct (run_loop old_lines new_lines s post) as [sf|] eqn:Hpost; [|done]. simpl.
  destruct (run_loop_carries _ _ _ _ _ Hpost) as [Hp Hcur].
  intros Hdoc.
  assert (Hdoc' : ∃ tail, doc = hunks sf ++ tail
                          ∧ (hunk_changes sf = [] ∧ tail = []
                             ∨ ∃ h, tail = [h] ∧ h_changes h = hunk_changes sf)).
  { destruct (hunk_changes sf) as [|c cs] eqn:Hcs.
    - injection Hdoc as <-. exists []. rewrite app_nil_r. split; [done|]. by left.
    - destruct (last (pre ++ post)) as [o|]; [|done]. injection Hdoc as <-.
      eexists. split; [done|]. right. by eexists. }
  destruct Hdoc' as (tail & -> & Htail).
  split; [etrans; [exact Hp|]; apply prefix_app_self|].
  unfold carried_into.
  destruct Hcur as [[Heq Hopen]|[(h & Hh & Hpr)|Hdis]].
  - destruct Htail as [[Hnil ->]|(h & -> & Hh)].
    + left. rewrite Hnil in Hopen. by apply prefix_nil_inv in Hopen.
    + right. left. exists h. rewrite <- Heq, list_lookup_middle by done.
      split; [done|]. by rewrite Hh.
  - right. left. exists h. split; [|done]. by apply lookup_app_l_Some.
  - by right; right.
Qed.

(** One turn of the loop on an equal region. *)
Lemma step_equal_region old_lines new_lines s o :
  op_tag o = tag_equal →
  (i2 o ≤ length old_lines)%nat →
  ∃ s', step old_lines new_lines s o = Some s' ∧
    ((i2 o - i1 o ≤ 10)%nat →
       hunks s' = hunks s ∧
       ∃ cs, hunk_changes s' = hunk_changes s ++ cs ∧
             length cs = (i2 o - i1 o)%nat ∧
             Forall (λ c, c_type c = "context") cs ∧
             c_content <$> cs
               = (λ line, " " +:+ line)
                   <$> take (i2 o - i1 o) (drop (i1 o) old_lines)) ∧
    ((11 ≤ i2 o - i1 o)%nat →
       ∃ lead,
         length lead = 3%nat ∧
         Forall (λ c, c_type c = "context") lead ∧
         c_content <$> lead = take 3 (drop (i1 o) old_lines) ∧
         hunks s' = (if holds_change (hunk_changes s)
                     then hunks s ++ [make_hunk (old_start s)
                                        (Z.of_nat (i1 o) + 3 - old_start s)
                                        (new_start s)
                                        (Z.of_nat (j1 o) + 3 - new_start s)
                                        (hunk_changes s ++ lead)]
                     else hunks s) ∧
         length (hunk_changes s') = 3%nat ∧
         Forall (λ c, c_type c = "context") (hunk_changes s') ∧
         c_content <$> hunk_changes s' = take 3 (drop (i2 o - 3) old_lines)).
Proof.
  intros Htag Hrange. unfold step. rewrite Htag.
  case_bool_decide as Hbig.
  - unfold split_equal.
    destruct (collect_in_range old_lines (i1 o) (min (i1 o + 3) (i2 o))
                (λ i line, mkChange "context" line
                   (Some (old_start s + Z.of_nat i - Z.of_nat (i1 o)))
                   (Some (new_start s + Z.of_nat i - Z.of_nat (i1 o)))))
      as [lead Hlead]; [lia|].
    rewrite Hlead. simpl.
    match goal with
    | |- context [collect old_lines ?a ?b ?e] =>
        destruct (collect_in_range old_lines a b e) as [trail Htrail]; [lia|];
        rewrite Htrail
    end.
    simpl. eexists. split; [reflexivity|]. split; [intros; lia|]. intros _.
    assert (Hlc : Forall (λ c, c_type c = "context") lead)
      by (eapply collect_Forall; [|exact Hlead]; done).
    exists lead. simpl.
    split; [rewrite (collect_length _ _ _ _ _ Hlead); lia|].
    split; [exact Hlc|].
    split.
    { rewrite (collect_contents _ _ _ _ id _ Hlead) by done.
      rewrite list_fmap_id. f_equal. lia. }
    split.
    { fold (holds_change (hunk_changes s ++ lead)).
      by rewrite holds_change_app, (holds_change_context lead Hlc), orb_false_r. }
    split; [rewrite (collect_length _ _ _ _ _ Htrail); lia|].
    split; [eapply collect_Forall; [|exact Htrail]; done|].
    rewrite (collect_contents _ _ _ _ id _ Htrail) by done.
    rewrite list_fmap_id. f_equal; [lia|f_equal; lia].
  - destruct (collect_in_range old_lines (i1 o) (i2 o)
                (λ i line, mkChange "context" (" " +:+ line)
                   (Some (old_start s + Z.of_nat i - Z.of_nat (i1 o)))
                   (Some (new_start s + Z.of_nat (j1 o) + Z.of_nat i
                          - Z.of_nat (i1 o)))))
      as [cs Hcs]; [done|].
    unfold context_of. rewrite Hcs. simpl.
    eexists. split; [reflexivity|]. split; [|intros; lia]. intros _. simpl.
    split; [done|]. exists cs. split; [done|].
    split; [by rewrite (collect_length _ _ _ _ _ Hcs)|].
    split; [eapply collect_Forall; [|exact Hcs]; done|].
    by rewrite (collect_contents _ _ _ _ (λ line, " " +:+ line) _ Hcs).
Qed.

End SplitFacts.

(** * The claims of the specification *)

(** C1 on a site whose page changed.  The site has a snapshot with hash
    [sha256:old page]; the capture at time 12 saves a snapshot with hash
    [sha256:new page].  The change detector reads the latest snapshot, which
    is the one just saved, and returns: [last_changed_at] stays unset, no job
    reaches the diff queue and no queue entry is written. *)
Theorem change_detection_misses_change :
  ∃ w' a',
    Crawl.crawl_archive (H := Crawl.sample_hash) default_config Crawl.sample_world
      Crawl.sample_site (Crawl.Response 200 "new page" "https://example.gov")
      Crawl.sample_rendered Crawl.sample_clock = (true, w', a') ∧
    Catalog.content_hash <$> Catalog.snapshots (Crawl.w_db w')
      = [Some "sha256:old page"; Some "sha256:new page"] ∧
    Catalog.last_checked_at a' = Some 11 ∧
    Catalog.last_changed_at a' = None ∧
    Catalog.last_changed_at <$> Catalog.archives (Crawl.w_db w') = [None] ∧
    Catalog.archive_queue (Crawl.w_db w') = [] ∧
    Redis.zsets (Crawl.w_redis w') = ∅ ∧
    Redis.hashes (Crawl.w_redis w') = ∅.
Proof.
  eexists _, _. split; [vm_compute; reflexivity|].
  vm_compute. repeat split.
Qed.

(** C2, as it holds on the code.  [get_pending] returns at most [n] sites;
    each is an enabled row of the table with no queue entry in status
    pending or in_progress; they come ordered by priority, then
    [last_checked_at] with [NULL] first, and no eligible site left out
    precedes a returned one.  The query tests no check interval. *)
Theorem get_pending_spec (d : Catalog.db) (n : nat) :
  (length (Catalog.get_pending d n) ≤ n)%nat ∧
  (∀ a, a ∈ Catalog.get_pending d n →
     a ∈ Catalog.archives d ∧
     Catalog.enabled a = true ∧
     ∀ q, q ∈ Catalog.archive_queue d →
          Catalog.id_matches (Catalog.a_id a) (Catalog.q_archive_id q) = true →
          Catalog.q_status q ≠ "pending" ∧ Catalog.q_status q ≠ "in_progress") ∧
  StronglySorted Catalog.pending_le (Catalog.get_pending d n) ∧
  ∃ rest,
    Catalog.get_pending d n ++ rest
      ≡ₚ filter (λ a, Catalog.pending_row d a = true) (Catalog.archives d) ∧
    (length rest = 0%nat ∨ length (Catalog.get_pending d n) = n) ∧
    ∀ a b, a ∈ Catalog.get_pending d n → b ∈ rest → Catalog.pending_le a b.
Proof.
  pose proof (get_pending_sorted_prefix d n) as Hsplit.
  pose proof (StronglySorted_merge_sort Catalog.pending_le
                (filter (λ a, Catalog.pending_row d a = true) (Catalog.archives d)))
    as Hsorted.
  pose proof (merge_sort_Permutation Catalog.pending_le
                (filter (λ a, Catalog.pending_row d a = true) (Catalog.archives d)))
    as Hperm.
  rewrite <- Hsplit in Hsorted, Hperm.
  split; [unfold Catalog.get_pending; rewrite length_take; lia|].
  split.
  - intros a Ha.
    assert (Hin : a ∈ filter (λ a, Catalog.pending_row d a = true) (Catalog.archives d)).
    { rewrite <- Hperm. apply elem_of_app. by left. }
    apply list_elem_of_filter in Hin as [Hrow Hin]. split; [done|].
    by apply pending_row_true.
  - split; [by eapply StronglySorted_app_1_l|].
    eexists. split; [exact Hperm|]. split.
    + unfold Catalog.get_pending. rewrite length_drop, length_take. lia.
    + intros a b Ha Hb. by eapply StronglySorted_app_1_elem_of.
Qed.

(** C2 as stated fails: a site checked one time unit ago, long before its
    interval has passed, is returned. *)
Lemma get_pending_returns_site_not_due :
  ¬ (∀ (cfg : Config) (now : Z) (d : Catalog.db) (n : nat) (a : Catalog.Archive),
       a ∈ Catalog.get_pending d n → Catalog.spec_next_check_due cfg now a = true).
Proof.
  intros Hclaim.
  specialize (Hclaim default_config 1001 Catalog.sample_sites 1%nat Catalog.sample_site).
  assert (Hres : Catalog.get_pending Catalog.sample_sites 1 = [Catalog.sample_site])
    by (vm_compute; reflexivity).
  rewrite Hres in Hclaim. specialize (Hclaim (list_elem_of_here _ _)).
  vm_compute in Hclaim. discriminate Hclaim.
Qed.

(** C3, as it holds on the code.  A response whose status is not 200 ends
    the capture: the result carries the status in [status_code] and in
    [error], no snapshot row is written, and [crawl_archive] returns [False]
    leaving the database, the queue and the site object as they were; the
    site's [last_checked_at] is not touched. *)
Theorem non_200_is_terminal {hl : Crawl.HashLib} (cfg : Config) (w : Crawl.world)
    (a : Catalog.Archive) (code : Z) (text url : string) (env : Crawl.rendered)
    (t : Crawl.clock) :
  code ≠ 200 →
  Crawl.success (Crawl.crawl cfg (Catalog.domain a) (Crawl.t_crawl t)
                   (Crawl.Response code text url) env) = false ∧
  Crawl.status_code (Crawl.crawl cfg (Catalog.domain a) (Crawl.t_crawl t)
                       (Crawl.Response code text url) env) = Some code ∧
  Crawl.error (Crawl.crawl cfg (Catalog.domain a) (Crawl.t_crawl t)
                 (Crawl.Response code text url) env)
    = Some ("HTTP status code: " +:+ pretty code) ∧
  ∃ w',
    Crawl.crawl_archive cfg w a (Crawl.Response code text url) env t = (false, w', a) ∧
    Crawl.w_db w' = Crawl.w_db w ∧
    Crawl.w_redis w' = Crawl.w_redis w ∧
    Crawl.active_crawls w' = Crawl.active_crawls w.
Proof.
  intros Hcode. rewrite (crawl_non_200 _ _ _ _ _ _ _ Hcode). simpl.
  do 3 (split; [done|]).
  unfold Crawl.crawl_archive. case_bool_decide as Hactive.
  - by exists w.
  - rewrite (crawl_non_200 _ _ _ _ _ _ _ Hcode). simpl.
    eexists. split; [reflexivity|]. simpl. do 2 (split; [done|]).
    apply set_eq. intros x.
    rewrite elem_of_difference, elem_of_union, elem_of_singleton.
    split; [intros [[?|?] ?]; done|].
    intros Hx. split; [by right|]. intros ->. done.
Qed.

Lemma non_200_is_terminal_witness :
  503 ≠ 200 ∧
  ∃ w',
    Crawl.crawl_archive (H := Crawl.sample_hash) default_config Crawl.sample_world
      Crawl.sample_site (Crawl.Response 503 "" "https://example.gov")
      Crawl.sample_rendered Crawl.sample_clock = (false, w', Crawl.sample_site) ∧
    Crawl.w_db w' = Crawl.w_db Crawl.sample_world.
Proof.
  split; [lia|].
  destruct (non_200_is_terminal (hl := Crawl.sample_hash) default_config
              Crawl.sample_world Crawl.sample_site 503 "" "https://example.gov"
              Crawl.sample_rendered Crawl.sample_clock)
    as (_ & _ & _ & w' & Hrun & Hdb & _); [lia|].
  exists w'. split; [exact Hrun|exact Hdb].
Defined.

(** C3 as stated fails: after a 503 the site's [last_checked_at] is what it
    was before the capture. *)
Lemma non_200_leaves_check_time :
  ¬ (∀ (cfg : Config) (w : Crawl.world) (a : Catalog.Archive) (code : Z)
       (text url : string) (env : Crawl.rendered) (t : Crawl.clock),
       code ≠ 200 →
       Crawl.spec_check_time_advanced a
         (Crawl.crawl_archive (H := Crawl.sample_hash) cfg w a
            (Crawl.Response code text url) env t).2).
Proof.
  intros Hclaim.
  destruct (Hclaim default_config Crawl.sample_world Crawl.sample_site 503 ""
              "https://example.gov" Crawl.sample_rendered Crawl.sample_clock)
    as (t' & Ht' & Hlater); [lia|].
  vm_compute in Ht'. injection Ht' as <-.
  specialize (Hlater 5 eq_refl). lia.
Qed.

(** C4, as it holds on the code.  Along every history of [save],
    [update_check_time], [update_change_time] and captures whose clock
    never goes back, both timestamps of a site stay at or before the latest
    clock reading; right after [update_check_time] the change time is at or
    before the check time; right after [update_change_time] the change time
    is the current time and the check time is at or before it. *)
Theorem site_times_along_history {hl : Crawl.HashLib} (cfg : Config)
    (w : Crawl.world) (a : Catalog.Archive) (ops : list Crawl.site_op) (t0 : Z) :
  Crawl.times_bounded t0 a →
  Crawl.clock_ordered t0 ops →
  Crawl.times_bounded (Crawl.last_clock t0 ops) (Crawl.run_site_ops cfg ops (w, a)).2 ∧
  (∀ ops' now, ops = ops' ++ [Crawl.CheckAt now] →
     Catalog.last_checked_at (Crawl.run_site_ops cfg ops (w, a)).2 = Some now ∧
     Crawl.changed_before_checked (Crawl.run_site_ops cfg ops (w, a)).2) ∧
  (∀ ops' now, ops = ops' ++ [Crawl.ChangeAt now] →
     Catalog.last_changed_at (Crawl.run_site_ops cfg ops (w, a)).2 = Some now ∧
     Crawl.checked_before_changed (Crawl.run_site_ops cfg ops (w, a)).2).
Proof.
  intros Hb Hord. split; [by apply run_site_ops_bounded|]. split.
  - intros ops' now ->. apply clock_ordered_app in Hord as [Hord1 [Hle _]].
    pose proof (run_site_ops_bounded cfg ops' (w, a) t0 Hb Hord1) as [_ Hc].
    rewrite run_site_ops_snoc. simpl. split; [done|].
    intros c k Hchanged Hchecked. simpl in *. injection Hchecked as <-.
    specialize (Hc c Hchanged). lia.
  - intros ops' now ->. apply clock_ordered_app in Hord as [Hord1 [Hle _]].
    pose proof (run_site_ops_bounded cfg ops' (w, a) t0 Hb Hord1) as [Hk _].
    rewrite run_site_ops_snoc. simpl. split; [done|].
    intros c k Hchanged Hchecked. simpl in *. injection Hchanged as <-.
    specialize (Hk k Hchecked). lia.
Qed.

Lemma site_times_along_history_witness :
  Crawl.times_bounded 5 Crawl.sample_site ∧
  Crawl.clock_ordered 5 [Crawl.CheckAt 10; Crawl.ChangeAt 11] ∧
  Catalog.last_changed_at
    (Crawl.run_site_ops (H := Crawl.sample_hash) default_config
       [Crawl.CheckAt 10; Crawl.ChangeAt 11]
       (Crawl.sample_world, Crawl.sample_site)).2 = Some 11 ∧
  Crawl.checked_before_changed
    (Crawl.run_site_ops (H := Crawl.sample_hash) default_config
       [Crawl.CheckAt 10; Crawl.ChangeAt 11]
       (Crawl.sample_world, Crawl.sample_site)).2.
Proof.
  assert (Hb : Crawl.times_bounded 5 Crawl.sample_site).
  { split; intros x Hx; simpl in Hx; [injection Hx as <-; lia|discriminate]. }
  assert (Hord : Crawl.clock_ordered 5 [Crawl.CheckAt 10; Crawl.ChangeAt 11])
    by (simpl; lia).
  split; [exact Hb|]. split; [exact Hord|].
  exact (proj2 (proj2 (site_times_along_history (hl := Crawl.sample_hash)
                         default_config Crawl.sample_world Crawl.sample_site
                         [Crawl.CheckAt 10; Crawl.ChangeAt 11] 5 Hb Hord))
           [Crawl.CheckAt 10] 11 eq_refl).
Defined.

(** C4 as stated fails: a check at time 10 followed by a change at time 11
    leaves [last_changed_at] after [last_checked_at]. *)
Lemma change_time_after_check_time :
  ¬ (∀ (cfg : Config) (w : Crawl.world) (a : Catalog.Archive)
       (ops : list Crawl.site_op) (t0 : Z),
       Crawl.times_bounded t0 a →
       Crawl.changed_before_checked a →
       Crawl.clock_ordered t0 ops →
       Crawl.changed_before_checked
         (Crawl.run_site_ops (H := Crawl.sample_hash) cfg ops (w, a)).2).
Proof.
  intros Hclaim.
  specialize (Hclaim default_config Crawl.sample_world Crawl.sample_site
                [Crawl.CheckAt 10; Crawl.ChangeAt 11] 5).
  assert (Hbad : 11 ≤ 10); [|lia].
  apply Hclaim.
  - split; intros x Hx; simpl in Hx; [injection Hx as <-; lia|discriminate].
  - intros c k Hc. discriminate Hc.
  - simpl. lia.
  - reflexivity.
  - reflexivity.
Qed.



(** C6. [fail_job]: when a retry is asked for and the retry counter is
    strictly below [max_retries], the counter grows by one, the job goes
    back to the queue with score priority + 1 and status pending, and the
    failed counter stays; otherwise (also when the counter equals
    [max_retries]) the status becomes failed and the failed counter grows by
    one.  Either way the job leaves the processing set. *)
Theorem fail_job_semantics (r : Redis.redis) (now : Z) (q j : string)
    (e : option string) (retry : bool) (m : Z) :
  Redis.int_field (Redis.hget r (Redis.job_key j) "retries") = true →
  Redis.int_field (Redis.hget r (Redis.job_key j) "priority") = true →
  ∃ r' retries priority,
    Redis.fail_job r now q j e retry m = Some r' ∧
    Redis.retries_of r j = Some retries ∧
    Redis.priority_of r j = Some priority ∧
    (j ∉ Redis.smembers r' (Redis.processing_key q)) ∧
    (retry = true → retries < m →
       Redis.retries_of r' j = Some (retries + 1) ∧
       Redis.zscore r' (Redis.queue_key q) j = Some (priority + 1) ∧
       Redis.hget r' (Redis.job_key j) "status" = Some (Redis.RStr "pending") ∧
       Redis.get_counter r' (Redis.stats_key q "failed") =
         Redis.get_counter r (Redis.stats_key q "failed")) ∧
    (¬ (retry = true ∧ retries < m) →
       Redis.hget r' (Redis.job_key j) "status" = Some (Redis.RStr "failed") ∧
       Redis.get_counter r' (Redis.stats_key q "failed") =
         Redis.get_counter r (Redis.stats_key q "failed") + 1 ∧
       Redis.zsets r' = Redis.zsets r ∧
       Redis.retries_of r' j = Some retries) ∧
    (retry = true → retries = m →
       Redis.hget r' (Redis.job_key j) "status" = Some (Redis.RStr "failed") ∧
       Redis.zsets r' = Redis.zsets r).
Proof.
  intros Hr Hp.
  pose proof (int_or_int_field _ 0 Hr) as Hret.
  pose proof (int_or_int_field _ 5 Hp) as Hpri.
  set (retries := default 0 (Redis.int_or (Redis.hget r (Redis.job_key j) "retries") 0)) in *.
  set (priority := default 5 (Redis.int_or (Redis.hget r (Redis.job_key j) "priority") 5)) in *.
  destruct (decide (retry = true ∧ retries < m)) as [[-> Hlt]|Hno].
  - pose proof (fail_job_requeue r now q j e m retries Hr Hp Hret Hlt) as Hf.
    destruct (fail_job_requeue_reads _ _ _ _ _ _ _ _ _ Hr Hp Hret Hpri Hlt Hf)
      as (H1 & H2 & H3 & H4 & H5).
    eexists _, retries, priority. split; [exact Hf|].
    do 3 (split; [done|]). split; [|split].
    + intros _ _. unfold Redis.get_counter. by rewrite H4.
    + intros Hc. exfalso. by apply Hc.
    + intros _ ?. lia.
  - pose proof (fail_job_give_up r now q j e retry m retries Hret Hno) as Hf.
    destruct (fail_job_give_up_reads _ _ _ _ _ _ _ _ _ Hret Hno Hf)
      as (H1 & H2 & H3 & H4 & H5).
    eexists _, retries, priority. split; [exact Hf|].
    do 3 (split; [done|]). split; [|split].
    + intros ??. exfalso. by apply Hno.
    + done.
    + done.
Qed.

Lemma fail_job_semantics_witness :
  ∃ r' retries priority,
    Redis.fail_job (Redis.enqueue_job Redis.empty_redis 100 "archive:crawl"
                      {[ "id" := Redis.JInt 7 ]} 3).2
      101 "archive:crawl" "job:100:7" (Some "timeout") true 3 = Some r' ∧
    Redis.retries_of (Redis.enqueue_job Redis.empty_redis 100 "archive:crawl"
                        {[ "id" := Redis.JInt 7 ]} 3).2 "job:100:7" = Some retries ∧
    Redis.priority_of (Redis.enqueue_job Redis.empty_redis 100 "archive:crawl"
                         {[ "id" := Redis.JInt 7 ]} 3).2 "job:100:7" = Some priority ∧
    retries = 0 ∧ priority = 3 ∧
    Redis.zscore r' (Redis.queue_key "archive:crawl") "job:100:7" = Some 4.
Proof.
  destruct (fail_job_semantics
              (Redis.enqueue_job Redis.empty_redis 100 "archive:crawl"
                 {[ "id" := Redis.JInt 7 ]} 3).2
              101 "archive:crawl" "job:100:7" (Some "timeout") true 3)
    as (r' & retries & priority & Hf & Hr & Hp & _ & Hre & _).
  - vm_compute. reflexivity.
  - vm_compute. reflexivity.
  - assert (retries = 0) as Hr0 by (vm_compute in Hr; congruence).
    assert (priority = 3) as Hp0 by (vm_compute in Hp; congruence).
    exists r', retries, priority.
    split; [exact Hf|]. split; [exact Hr|]. split; [exact Hp|].
    split; [exact Hr0|]. split; [exact Hp0|].
    destruct Hre as (_ & Hz & _); [reflexivity|lia|].
    rewrite Hp0 in Hz. exact Hz.
Defined.

(** C7. Significance depends on [stats.total] alone: below the threshold
    it is 1, from the threshold up to five times the threshold it is 2,
    from there on 3; a total one below the threshold gives 1, a total at the
    threshold gives 2. *)
Theorem significance_classification (cfg : Config) (st st' : Catalog.Stats) :
  0 < DIFF_SIZE_THRESHOLD cfg →
  (Catalog.total st = Catalog.total st' →
     Diff._determine_significance cfg st = Diff._determine_significance cfg st') ∧
  (Catalog.total st < DIFF_SIZE_THRESHOLD cfg →
     Diff._determine_significance cfg st = 1) ∧
  (DIFF_SIZE_THRESHOLD cfg ≤ Catalog.total st < DIFF_SIZE_THRESHOLD cfg * 5 →
     Diff._determine_significance cfg st = 2) ∧
  (DIFF_SIZE_THRESHOLD cfg * 5 ≤ Catalog.total st →
     Diff._determine_significance cfg st = 3) ∧
  (Catalog.total st = DIFF_SIZE_THRESHOLD cfg - 1 →
     Diff._determine_significance cfg st = 1) ∧
  (Catalog.total st = DIFF_SIZE_THRESHOLD cfg →
     Diff._determine_significance cfg st = 2).
Proof.
  intros Hpos. unfold Diff._determine_significance.
  repeat split; intros; repeat case_bool_decide; (done || lia).
Qed.

Lemma significance_classification_witness :
  0 < DIFF_SIZE_THRESHOLD default_config ∧
  Diff._determine_significance default_config (Catalog.mkStats 4 5 0 9) = 1 ∧
  Diff._determine_significance default_config (Catalog.mkStats 6 4 0 10) = 2.
Proof.
  split; [reflexivity|]. split.
  - apply (significance_classification default_config (Catalog.mkStats 4 5 0 9)
             (Catalog.mkStats 4 5 0 9)); reflexivity.
  - apply (significance_classification default_config (Catalog.mkStats 6 4 0 10)
             (Catalog.mkStats 6 4 0 10)); reflexivity.
Defined.

(** C8. For every pair of contents whose opcodes stay inside the line
    arrays, the textual diff produces a document, and for every equal
    opcode of the matcher: the hunks closed before it are the first hunks
    of the document; a region of at most 10 lines goes whole into the
    current hunk, as context entries after the entries the hunk already
    holds, in one hunk of the document (unless that hunk, holding no
    change, is thrown away at a later split); a region of 11 or more lines
    splits the hunk: its first three lines are appended as trailing context
    and the hunk is closed, if it holds a change, as the next hunk of the
    document, and the hunk after it opens with the last three lines of the
    region as leading context. *)
Theorem equal_region_split {lib : Diff.DiffLib} (old_content new_content : string) :
  Diff.opcodes_in_range →
  ∃ doc,
    Diff._generate_text_diff old_content new_content = Some doc ∧
    ∀ pre o post,
      Diff.get_opcodes (Diff.splitlines old_content) (Diff.splitlines new_content)
        = pre ++ o :: post →
      Diff.op_tag o = Diff.tag_equal →
      ∃ s,
        Diff.run_loop (Diff.splitlines old_content) (Diff.splitlines new_content)
          Diff.loop_init pre = Some s ∧
        Diff.hunks s `prefix_of` doc ∧
        ((Diff.i2 o - Diff.i1 o ≤ 10)%nat →
           ∃ cs,
             length cs = (Diff.i2 o - Diff.i1 o)%nat ∧
             Forall (λ c, Diff.c_type c = "context") cs ∧
             Diff.c_content <$> cs
               = (λ line, " " +:+ line)
                   <$> take (Diff.i2 o - Diff.i1 o)
                         (drop (Diff.i1 o) (Diff.splitlines old_content)) ∧
             Diff.carried_into doc (length (Diff.hunks s))
               (Diff.hunk_changes s ++ cs) post) ∧
        ((11 ≤ Diff.i2 o - Diff.i1 o)%nat →
           ∃ lead trail,
             length lead = 3%nat ∧
             length trail = 3%nat ∧
             Forall (λ c, Diff.c_type c = "context") lead ∧
             Forall (λ c, Diff.c_type c = "context") trail ∧
             Diff.c_content <$> lead
               = take 3 (drop (Diff.i1 o) (Diff.splitlines old_content)) ∧
             Diff.c_content <$> trail
               = take 3 (drop (Diff.i2 o - 3) (Diff.splitlines old_content)) ∧
             (Diff.holds_change (Diff.hunk_changes s) = true →
                (∃ h, doc !! length (Diff.hunks s) = Some h
                      ∧ Diff.h_changes h = Diff.hunk_changes s ++ lead) ∧
                Diff.carried_into doc (S (length (Diff.hunks s))) trail post) ∧
             (Diff.holds_change (Diff.hunk_changes s) = false →
                Diff.carried_into doc (length (Diff.hunks s)) trail post)).
Proof.
  intros Hrange. unfold Diff._generate_text_diff.
  set (old_lines := Diff.splitlines old_content).
  set (new_lines := Diff.splitlines new_content).
  specialize (Hrange old_lines new_lines).
  destruct (hunks_of_opcodes_in_range old_lines new_lines _ Hrange) as [doc Hdoc].
  exists doc. split; [exact Hdoc|]. intros pre o post Hops Htag.
  rewrite Hops in Hdoc, Hrange.
  assert (Ho : (Diff.i2 o ≤ length old_lines)%nat).
  { apply Forall_app in Hrange as [_ Hrange].
    by apply Forall_cons in Hrange as [[? _] _]. }
  assert (Hpre : is_Some (Diff.run_loop old_lines new_lines Diff.loop_init pre)).
  { apply run_loop_in_range. by apply Forall_app in Hrange as [? _]. }
  destruct Hpre as [s Hpre]. exists s. split; [exact Hpre|].
  destruct (document_carries _ _ _ _ _ _ Hpre Hdoc) as [Hclosed _].
  split; [exact Hclosed|].
  destruct (step_equal_region old_lines new_lines s o Htag Ho)
    as (s' & Hstep & Hsmall & Hbig).
  assert (Hpre' : Diff.run_loop old_lines new_lines Diff.loop_init (pre ++ [o])
                  = Some s').
  { rewrite run_loop_app, Hpre. simpl. by rewrite Hstep. }
  assert (Hdoc' : Diff.hunks_of_opcodes old_lines new_lines ((pre ++ [o]) ++ post)
                  = Some doc).
  { rewrite <- (assoc_L (++)). exact Hdoc. }
  destruct (document_carries _ _ _ _ _ _ Hpre' Hdoc') as [Hclosed' Hcarried].
  split.
  - intros Hlen. destruct (Hsmall Hlen) as (Hh & cs & Hcs & Hn & Hctx & Hcont).
    exists cs. do 3 (split; [done|]). by rewrite <- Hh, <- Hcs.
  - intros Hlen.
    destruct (Hbig Hlen) as (lead & Hn & Hctx & Hcont & Hh & Hn' & Hctx' & Hcont').
    exists lead, (Diff.hunk_changes s'). do 6 (split; [done|]).
    destruct (Diff.holds_change (Diff.hunk_changes s)); split; try done; intros _.
    + rewrite Hh in Hclosed', Hcarried. split.
      * exists (Diff.make_hunk (Diff.old_start s)
                  (Z.of_nat (Diff.i1 o) + 3 - Diff.old_start s) (Diff.new_start s)
                  (Z.of_nat (Diff.j1 o) + 3 - Diff.new_start s)
                  (Diff.hunk_changes s ++ lead)).
        split; [|done]. destruct Hclosed' as [more ->].
        rewrite <- (assoc_L (++)). simpl. by rewrite list_lookup_middle.
      * rewrite length_app, Nat.add_1_r in Hcarried. exact Hcarried.
    + by rewrite Hh in Hcarried.
Qed.

Lemma equal_region_split_witness :
  ∃ doc h,
    Diff._generate_text_diff (H := Diff.prefix_lib) "abcdefghijklmX" "abcdefghijklmYZ"
      = Some doc ∧
    doc !! 0%nat = Some h ∧
    Diff.c_content <$> take 3 (Diff.h_changes h) = ["k"; "l"; "m"].
Proof.
  destruct (equal_region_split (lib := Diff.prefix_lib)
              "abcdefghijklmX" "abcdefghijklmYZ")
    as (doc & Hdoc & Hsplit).
  - intros a b. constructor; [|constructor; [|constructor]]; simpl.
    + assert (Hp : ∀ a b : list string,
                (Diff.common_prefix a b ≤ length a)%nat
                ∧ (Diff.common_prefix a b ≤ length b)%nat).
      { clear. induction a as [|x a IH]; intros [|y b]; simpl; try lia.
        destruct (String.eqb x y); simpl; [|lia]. destruct (IH b). lia. }
      apply Hp.
    + lia.
  - destruct (Hsplit [] (Diff.mkOpcode Diff.tag_equal 0 13 0 13)
                [Diff.mkOpcode Diff.tag_replace 13 14 13 15])
      as (s & Hs & _ & _ & Hbig); [reflexivity|reflexivity|].
    injection Hs as <-.
    destruct Hbig as (lead & trail & _ & Hlen & _ & _ & _ & Htrail & _ & Hcarried);
      [simpl; lia|].
    destruct (Hcarried eq_refl) as [->|[(h & Hh & Hpre)|(_ & mid & o & rest & Hl & [Ht _] & Hq)]].
    + discriminate Hlen.
    + exists doc, h. split; [exact Hdoc|]. split; [exact Hh|].
      destruct Hpre as [more ->]. rewrite take_app_length' by (symmetry; exact Hlen).
      exact Htrail.
    + exfalso. destruct mid as [|o1 [|o2 mid]]; simplify_eq/=.
Defined.

(** C9. Every change entry of a document built by the textual diff has type
    context, delete or insert (a replace opcode becomes delete entries
    followed by insert entries), so the statistics have [changes = 0] and
    [total = additions + deletions]; and for opcodes inside the two line
    arrays the document is built. *)
Theorem text_diff_plain_changes (old_lines new_lines : list string)
    (opcodes : list Diff.opcode) :
  (Forall (λ o, (Diff.i2 o ≤ length old_lines)%nat
                ∧ (Diff.j2 o ≤ length new_lines)%nat) opcodes →
   is_Some (Diff.hunks_of_opcodes old_lines new_lines opcodes)) ∧
  ∀ doc,
    Diff.hunks_of_opcodes old_lines new_lines opcodes = Some doc →
    (∀ h c, h ∈ doc → c ∈ Diff.h_changes h →
       Diff.c_type c = "context" ∨ Diff.c_type c = "delete"
       ∨ Diff.c_type c = "insert") ∧
    Catalog.changes (Diff._calculate_diff_stats doc) = 0 ∧
    Catalog.total (Diff._calculate_diff_stats doc)
      = Catalog.additions (Diff._calculate_diff_stats doc)
        + Catalog.deletions (Diff._calculate_diff_stats doc).
Proof.
  split; [apply hunks_of_opcodes_in_range|].
  intros doc Hdoc. pose proof (hunks_of_opcodes_plain _ _ _ _ Hdoc) as Hplain.
  assert (Hch : Catalog.changes (Diff._calculate_diff_stats doc) = 0).
  { rewrite stats_changes. by rewrite foldl_hunks_plain. }
  split; [|split; [exact Hch|]].
  - intros h c Hh Hc.
    rewrite Forall_forall in Hplain. specialize (Hplain h Hh).
    rewrite Forall_forall in Hplain. by apply Hplain.
  - rewrite stats_total, Hch. lia.
Qed.

Lemma text_diff_plain_changes_witness :
  ∃ doc,
    Diff.hunks_of_opcodes ["a"; "b"] ["a"; "c"]
      [Diff.mkOpcode Diff.tag_equal 0 1 0 1;
       Diff.mkOpcode Diff.tag_replace 1 2 1 2] = Some doc ∧
    Catalog.changes (Diff._calculate_diff_stats doc) = 0 ∧
    Catalog.total (Diff._calculate_diff_stats doc)
      = Catalog.additions (Diff._calculate_diff_stats doc)
        + Catalog.deletions (Diff._calculate_diff_stats doc) ∧
    Catalog.total (Diff._calculate_diff_stats doc) = 2.
Proof.
  destruct (text_diff_plain_changes ["a"; "b"] ["a"; "c"]
              [Diff.mkOpcode Diff.tag_equal 0 1 0 1;
               Diff.mkOpcode Diff.tag_replace 1 2 1 2]) as [Hsome Hall].
  destruct Hsome as [doc Hdoc].
  { repeat constructor; simpl; lia. }
  exists doc. split; [exact Hdoc|].
  destruct (Hall doc Hdoc) as (_ & Hch & Htot).
  split; [exact Hch|]. split; [exact Htot|].
  vm_compute in Hdoc. injection Hdoc as <-. reflexivity.
Defined.

(** C10. Retry urgency does not compound: the [priority] field written by
    [enqueue_job] survives every [fail_job] and [complete_job], and every
    requeue done by [fail_job] puts the job back at that priority plus one,
    however often it was retried before. *)
Theorem retry_priority_does_not_compound (r0 : Redis.redis) (now0 : Z)
    (q : string) (data : Redis.payload) (p : Z) (ops : list Redis.qop)
    (r : Redis.redis) :
  Redis.run_ops ops (Redis.enqueue_job r0 now0 q data p).2 = Some r →
  Redis.hget r (Redis.job_key (Redis.enqueue_job r0 now0 q data p).1) "priority"
    = Some (Redis.RInt p) ∧
  ∀ now qn e retry m r',
    Redis.fail_job r now qn (Redis.enqueue_job r0 now0 q data p).1 e retry m
      = Some r' →
    Redis.hget r' (Redis.job_key (Redis.enqueue_job r0 now0 q data p).1) "priority"
      = Some (Redis.RInt p) ∧
    ∀ retries,
      retry = true →
      Redis.retries_of r (Redis.enqueue_job r0 now0 q data p).1 = Some retries →
      retries < m →
      Redis.zscore r' (Redis.queue_key qn) (Redis.enqueue_job r0 now0 q data p).1
        = Some (p + 1).
Proof.
  intros Hrun.
  assert (Hpri : Redis.hget r (Redis.job_key (Redis.enqueue_job r0 now0 q data p).1)
                   "priority" = Some (Redis.RInt p)).
  { rewrite (run_ops_priority_field _ _ _ _ Hrun).
    apply enqueue_job_priority_field. }
  split; [exact Hpri|].
  intros now qn e retry m r' Hf. split.
  - by rewrite (fail_job_priority_field _ _ _ _ _ _ _ _ _ Hf).
  - intros retries -> Hret Hlt.
    destruct (fail_job_requeue_score _ _ _ _ _ _ _ _ Hf Hret Hlt) as (pri & Hp & Hz).
    unfold Redis.priority_of in Hp. rewrite Hpri in Hp. simpl in Hp.
    by injection Hp as <-.
Qed.

Lemma retry_priority_does_not_compound_witness :
  ∃ r r',
    Redis.run_ops
      [Redis.OpFail 101 "archive:crawl" "job:100:7" (Some "timeout") true 3;
       Redis.OpFail 102 "archive:crawl" "job:100:7" None true 3]
      (Redis.enqueue_job Redis.empty_redis 100 "archive:crawl"
         {[ "id" := Redis.JInt 7 ]} 3).2 = Some r ∧
    Redis.fail_job r 103 "archive:crawl"
      (Redis.enqueue_job Redis.empty_redis 100 "archive:crawl"
         {[ "id" := Redis.JInt 7 ]} 3).1 None true 3 = Some r' ∧
    Redis.retries_of r
      (Redis.enqueue_job Redis.empty_redis 100 "archive:crawl"
         {[ "id" := Redis.JInt 7 ]} 3).1 = Some 2 ∧
    Redis.zscore r' (Redis.queue_key "archive:crawl")
      (Redis.enqueue_job Redis.empty_redis 100 "archive:crawl"
         {[ "id" := Redis.JInt 7 ]} 3).1 = Some (3 + 1).
Proof.
  set (st := Redis.enqueue_job Redis.empty_redis 100 "archive:crawl"
               {[ "id" := Redis.JInt 7 ]} 3).
  set (ops := [Redis.OpFail 101 "archive:crawl" "job:100:7" (Some "timeout") true 3;
               Redis.OpFail 102 "archive:crawl" "job:100:7" None true 3]).
  set (r := default Redis.empty_redis (Redis.run_ops ops st.2)).
  set (r' := default Redis.empty_redis
               (Redis.fail_job r 103 "archive:crawl" st.1 None true 3)).
  assert (Hrun : Redis.run_ops ops st.2 = Some r) by (vm_compute; reflexivity).
  assert (Hf : Redis.fail_job r 103 "archive:crawl" st.1 None true 3 = Some r')
    by (vm_compute; reflexivity).
  assert (Hret : Redis.retries_of r st.1 = Some 2) by (vm_compute; reflexivity).
  exists r, r'.
  split; [exact Hrun|]. split; [exact Hf|]. split; [exact Hret|].
  refine (proj2 (proj2 (retry_priority_does_not_compound Redis.empty_redis 100
            "archive:crawl" {[ "id" := Redis.JInt 7 ]} 3 ops r Hrun)
            103 "archive:crawl" None true 3 r' Hf) 2 eq_refl Hret _).
  lia.
Defined.

(** * Further properties of the code *)

(** ** Work queue, dispatch side *)

Section QueueFacts.
Import Redis Queue.
Context `{JsonLib}.

Implicit Types (r : redis) (l : list (string * Z)).

Lemma zless_false_le (a b : string * Z) : zless a b = false → b.2 ≤ a.2.
Proof.
  unfold zless. intros [Hlt _]%orb_false_iff. by apply Z.ltb_ge in Hlt.
Qed.

Lemma zless_true_le (a b : string * Z) : zless a b = true → a.2 ≤ b.2.
Proof.
  unfold zless. intros [Hlt|[Heq _]%andb_true_iff]%orb_true_iff.
  - apply Z.ltb_lt in Hlt. lia.
  - apply Z.eqb_eq in Heq. lia.
Qed.

Lemma zfirst_nil_iff l : zfirst l = None ↔ l = [].
Proof.
  split; [|by intros ->].
  destruct l as [|x l]; [done|]. simpl.
  destruct (zfirst l) as [y|]; [by destruct (zless y x)|done].
Qed.

(** The first element of a sorted set has the lowest score. *)
Lemma zfirst_min l x :
  zfirst l = Some x → x ∈ l ∧ ∀ y, y ∈ l → x.2 ≤ y.2.
Proof.
  revert x. induction l as [|a l IH]; intros x Hx; [done|]. simpl in Hx.
  destruct (zfirst l) as [y|] eqn:Hy.
  - destruct (IH y eq_refl) as [Hin Hmin].
    destruct (zless y a) eqn:Hless; injection Hx as <-.
    + split; [by right|]. intros z [->|Hz]%elem_of_cons; [|by apply Hmin].
      by apply zless_true_le.
    + split; [by left|]. intros z [->|Hz]%elem_of_cons; [done|].
      apply zless_false_le in Hless. specialize (Hmin z Hz). lia.
  - injection Hx as <-. apply zfirst_nil_iff in Hy as ->.
    split; [by left|]. by intros z ->%list_elem_of_singleton.
Qed.

Lemma zscore_zmembers r key member :
  zscore r key member = zmembers r key !! member.
Proof. unfold zscore, zmembers. by destruct (zsets r !! key). Qed.

Lemma hgetall_lookup r key field : hgetall r key !! field = hget r key field.
Proof. unfold hgetall, hget. by destruct (hashes r !! key). Qed.

(** What [ZPOPMIN] hands out and what it leaves. *)
Lemma zpopmin_Some r key member score r' :
  zpopmin r key = (Some (member, score), r') →
  zscore r key member = Some score ∧
  (∀ m s, zscore r key m = Some s → score ≤ s) ∧
  zmembers r' key = delete member (zmembers r key) ∧
  hashes r' = hashes r ∧ psets r' = psets r ∧ counters r' = counters r.
Proof.
  unfold zpopmin. intros Hpop.
  destruct (zfirst _) as [[m s]|] eqn:Hfirst; [|done].
  injection Hpop as -> -> <-.
  apply zfirst_min in Hfirst as [Hin Hmin].
  apply elem_of_map_to_list in Hin.
  split; [by rewrite zscore_zmembers|]. split.
  - intros m s Hm. rewrite zscore_zmembers in Hm.
    apply elem_of_map_to_list in Hm. by apply (Hmin (m, s)).
  - split; [|done]. unfold zmembers at 1. simpl. by rewrite lookup_insert_eq.
Qed.

Lemma zpopmin_None r key r' :
  zpopmin r key = (None, r') → zmembers r key = ∅ ∧ r' = r.
Proof.
  unfold zpopmin. intros Hpop.
  destruct (zfirst _) as [[m s]|] eqn:Hfirst; [done|].
  injection Hpop as <-. split; [|done].
  by apply zfirst_nil_iff, map_to_list_empty_iff in Hfirst.
Qed.

(** A member whose score is strictly the lowest is the one popped. *)
Lemma zpopmin_strict_min r key member score :
  zscore r key member = Some score →
  (∀ m s, m ≠ member → zscore r key m = Some s → score < s) →
  (zpopmin r key).1 = Some (member, score).
Proof.
  intros Hm Hstrict.
  destruct (zpopmin r key) as [[[m s]|] r'] eqn:Hpop; simpl.
  - apply zpopmin_Some in Hpop as (Hs & Hmin & _).
    destruct (decide (m = member)) as [->|Hne]; [by simplify_eq|].
    specialize (Hstrict m s Hne Hs). specialize (Hmin member score Hm). lia.
  - apply zpopmin_None in Hpop as [Hempty _].
    rewrite zscore_zmembers, Hempty in Hm. done.
Qed.

Lemma zmembers_hset r k f v key : zmembers (hset r k f v) key = zmembers r key.
Proof. reflexivity. Qed.

Lemma zmembers_sadd r k m key : zmembers (sadd r k m) key = zmembers r key.
Proof. reflexivity. Qed.

Lemma hget_sadd r k m key f : hget (sadd r k m) key f = hget r key f.
Proof. reflexivity. Qed.

Lemma elem_of_sadd r key member : member ∈ smembers (sadd r key member) key.
Proof.
  unfold smembers, sadd. simpl. rewrite lookup_insert_eq. simpl.
  apply elem_of_union. left. by apply elem_of_singleton.
Qed.

Lemma string_app_inv_head (p a b : string) : p +:+ a = p +:+ b → a = b.
Proof. induction p as [|c p IH]; simpl; [done|]. intros Heq. apply IH. by injection Heq. Qed.

Lemma stats_key_kinds q : stats_key q "completed" ≠ stats_key q "failed".
Proof.
  unfold stats_key. intros Heq.
  apply string_app_inv_head, string_app_inv_head in Heq. discriminate Heq.
Qed.

Lemma size_delete_member (z : gmap string Z) member score :
  z !! member = Some score →
  Z.of_nat (size (delete member z)) = Z.of_nat (size z) - 1.
Proof.
  intros Hm. rewrite <- (insert_delete_id z member score Hm) at 2.
  rewrite map_size_insert_None by apply lookup_delete_eq. lia.
Qed.

Lemma size_remove_member (X : gset string) member :
  member ∈ X → Z.of_nat (size (X ∖ {[member]})) = Z.of_nat (size X) - 1.
Proof.
  intros Hin.
  assert (Hsub : ({[member]} : gset string) ⊆ X)
    by (intros x ->%elem_of_singleton; done).
  rewrite (size_difference X {[member]} Hsub), size_singleton.
  apply subseteq_size in Hsub. rewrite size_singleton in Hsub. lia.
Qed.

Lemma remove_absent_member (X : gset string) member :
  member ∉ X → X ∖ {[member]} = X.
Proof.
  intros Hnot. apply set_eq. intros x.
  rewrite elem_of_difference, elem_of_singleton.
  split; [by intros [? _]|]. intros Hx. split; [done|]. by intros ->.
Qed.

Lemma run_ops_app (ops1 ops2 : list qop) r :
  run_ops (ops1 ++ ops2) r = run_ops ops1 r ≫= run_ops ops2.
Proof.
  revert r. induction ops1 as [|o ops1 IH]; intros r; simpl; [done|].
  destruct (run_op o r) as [r1|]; simpl; [apply IH|done].
Qed.

(** The final failure leaves the retry counter field as it is. *)
Lemma fail_job_give_up_retries_field r r' now q j e retry m retries :
  retries_of r j = Some retries →
  ¬ (retry = true ∧ retries < m) →
  fail_job r now q j e retry m = Some r' →
  hget r' (job_key j) "retries" = hget r (job_key j) "retries".
Proof.
  intros Hret Hno Hf. rewrite (fail_job_give_up _ _ _ _ _ _ _ _ Hret Hno) in Hf.
  injection Hf as <-. cbn zeta.
  rewrite hget_srem, hget_incr, hget_hset_if by done.
  by rewrite !hget_hset_field_ne by done.
Qed.

(** [n] failures in a row, each asking for a retry. *)
Lemma fail_job_repeat now q j e m (n : nat) : ∀ r k,
  int_field (hget r (job_key j) "retries") = true →
  int_field (hget r (job_key j) "priority") = true →
  retries_of r j = Some k → k ≤ m →
  ∃ r', run_ops (replicate n (OpFail now q j e true m)) r = Some r' ∧
        int_field (hget r' (job_key j) "retries") = true ∧
        retries_of r' j = Some (Z.min (k + Z.of_nat n) m) ∧
        get_counter r' (stats_key q "failed")
          = get_counter r (stats_key q "failed") + Z.max 0 (k + Z.of_nat n - m) ∧
        (n ≠ 0%nat →
         hget r' (job_key j) "status"
           = Some (RStr (if bool_decide (k + Z.of_nat n ≤ m) then "pending" else "failed"))).
Proof.
  induction n as [|n IH]; intros r k Hr Hp Hret Hk.
  - exists r. simpl. split; [done|]. split; [done|].
    split; [rewrite Hret; f_equal; lia|]. split; [lia|done].
  - destruct (IH r k Hr Hp Hret Hk) as (r1 & Hrun & Hr1 & Hret1 & Hcnt1 & _).
    rewrite replicate_S_end, run_ops_app, Hrun. simpl.
    assert (Hp1 : int_field (hget r1 (job_key j) "priority") = true)
      by (by rewrite (run_ops_priority_field _ _ _ _ Hrun)).
    destruct (decide (Z.min (k + Z.of_nat n) m < m)) as [Hlt|Hge].
    + pose proof (fail_job_requeue r1 now q j e m _ Hr1 Hp1 Hret1 Hlt) as Hf.
      destruct (fail_job_requeue_reads r1 _ now q j e m _ _ Hr1 Hp1 Hret1
                  (int_or_int_field _ 5 Hp1) Hlt Hf) as (Hret2 & _ & Hst & Hc & _).
      eexists. rewrite Hf. split; [done|].
      split.
      { rewrite hget_srem, hget_hset_field_ne, hget_zadd by done.
        by rewrite hget_hset_field_ne, hget_hset_eq by done. }
      split; [rewrite Hret2; f_equal; lia|].
      split; [unfold get_counter in *; rewrite Hc, Hcnt1; lia|].
      intros _. rewrite Hst. by rewrite bool_decide_eq_true_2 by lia.
    + assert (Hno : ¬ (true = true ∧ Z.min (k + Z.of_nat n) m < m)) by (intros [_ ?]; done).
      pose proof (fail_job_give_up r1 now q j e true m _ Hret1 Hno) as Hf.
      destruct (fail_job_give_up_reads r1 _ now q j e true m _ Hret1 Hno Hf)
        as (Hst & Hc & _ & Hret2 & _).
      eexists. rewrite Hf. split; [done|].
      split; [by rewrite (fail_job_give_up_retries_field _ _ _ _ _ _ _ _ _ Hret1 Hno Hf)|].
      split; [rewrite Hret2; f_equal; lia|].
      split; [rewrite Hc, Hcnt1; lia|].
      intros _. rewrite Hst. by rewrite bool_decide_eq_false_2 by lia.
Qed.

End QueueFacts.

(** X1. The job [get_next_job] returns had the lowest score of its queue;
    it has left the queue (the other members keep their scores), it is in
    the processing set with status processing, and the returned priority
    is the stored one (5 if none is stored). *)
Theorem get_next_job_lowest_score {jl : Queue.JsonLib} (r r' : Redis.redis)
    (now : Z) (q : string) (j : Queue.job) :
  Queue.get_next_job r now q = Queue.Popped (Some j) r' →
  (∃ s, Redis.zscore r (Redis.queue_key q) (Queue.job_id j) = Some s ∧
        ∀ m s', Redis.zscore r (Redis.queue_key q) m = Some s' → s ≤ s') ∧
  Redis.zscore r' (Redis.queue_key q) (Queue.job_id j) = None ∧
  (∀ m, m ≠ Queue.job_id j →
        Redis.zscore r' (Redis.queue_key q) m = Redis.zscore r (Redis.queue_key q) m) ∧
  Queue.job_id j ∈ Redis.smembers r' (Redis.processing_key q) ∧
  Redis.hget r' (Redis.job_key (Queue.job_id j)) "status"
    = Some (Redis.RStr "processing") ∧
  Queue.int_get (Redis.hget r (Redis.job_key (Queue.job_id j)) "priority") 5
    = Some (Queue.job_priority j).
Proof.
  unfold Queue.get_next_job. intros Hnext.
  destruct (Queue.zpopmin r (Redis.queue_key q)) as [[[m s]|] r1] eqn:Hpop; [|done].
  apply zpopmin_Some in Hpop as (Hs & Hmin & Hrest & Hhash & Hp & Hc).
  case_bool_decide as Hempty; [done|]. cbn zeta in Hnext.
  destruct (Queue.load_data _) as [data|]; [|done].
  destruct (Queue.int_get (Queue.hgetall r1 (Redis.job_key m) !! "priority") 5)
    as [p|] eqn:Hprio; [|done].
  destruct (Queue.int_get (Queue.hgetall r1 (Redis.job_key m) !! "created_at") 0)
    as [c|]; [|done].
  injection Hnext as <- <-. simpl.
  split; [by exists s|].
  rewrite zscore_zmembers, zmembers_sadd, !zmembers_hset, Hrest.
  split; [apply lookup_delete_eq|].
  split.
  { intros m' Hne.
    rewrite !zscore_zmembers, zmembers_sadd, !zmembers_hset, Hrest.
    by apply lookup_delete_ne. }
  split; [apply elem_of_sadd|].
  split; [rewrite hget_sadd, hget_hset_field_ne by done; apply hget_hset_eq|].
  rewrite hgetall_lookup in Hprio. unfold Redis.hget in *. by rewrite <- Hhash.
Qed.

Lemma get_next_job_lowest_score_witness :
  ∃ r' j,
    Queue.get_next_job (H := Queue.sample_json)
      (Redis.enqueue_job
         (Redis.enqueue_job Redis.empty_redis 100 "archive:crawl"
            {[ "id" := Redis.JInt 7 ]} 3).2
         100 "archive:crawl" {[ "id" := Redis.JInt 8 ]} 1).2
      105 "archive:crawl" = Queue.Popped (Some j) r' ∧
    Queue.job_id j = "job:100:8" ∧
    Redis.zscore r' (Redis.queue_key "archive:crawl") (Queue.job_id j) = None.
Proof.
  set (r := (Redis.enqueue_job
               (Redis.enqueue_job Redis.empty_redis 100 "archive:crawl"
                  {[ "id" := Redis.JInt 7 ]} 3).2
               100 "archive:crawl" {[ "id" := Redis.JInt 8 ]} 1).2).
  destruct (Queue.get_next_job (H := Queue.sample_json) r 105 "archive:crawl")
    as [[j|] r'|] eqn:Hnext; [|vm_compute in Hnext; discriminate..].
  exists r', j. split; [reflexivity|]. split.
  - vm_compute in Hnext. by injection Hnext as <- _.
  - exact (proj1 (proj2 (get_next_job_lowest_score (jl := Queue.sample_json)
                           r r' 105 "archive:crawl" j Hnext))).
Defined.

(** X2. When the popped job has no hash (it expired or was deleted),
    [get_next_job] returns nothing and the job is lost: it has left the
    queue, it is not put in the processing set, and no hash is written. *)
Theorem get_next_job_drops_job_without_hash {jl : Queue.JsonLib} (r : Redis.redis)
    (now : Z) (q member : string) (score : Z) :
  Redis.zscore r (Redis.queue_key q) member = Some score →
  (∀ m s, m ≠ member → Redis.zscore r (Redis.queue_key q) m = Some s → score < s) →
  Queue.hgetall r (Redis.job_key member) = ∅ →
  ∃ r', Queue.get_next_job r now q = Queue.Popped None r' ∧
        Redis.zscore r' (Redis.queue_key q) member = None ∧
        Redis.psets r' = Redis.psets r ∧
        Redis.hashes r' = Redis.hashes r ∧
        Queue.qs_pending (Queue.get_queue_stats r' q)
          = Queue.qs_pending (Queue.get_queue_stats r q) - 1 ∧
        Queue.qs_processing (Queue.get_queue_stats r' q)
          = Queue.qs_processing (Queue.get_queue_stats r q).
Proof.
  intros Hm Hstrict Hhash.
  pose proof (zpopmin_strict_min r _ _ _ Hm Hstrict) as Hpop.
  unfold Queue.get_next_job.
  destruct (Queue.zpopmin r (Redis.queue_key q)) as [popped r1] eqn:Hz.
  simpl in Hpop. subst popped.
  apply zpopmin_Some in Hz as (_ & _ & Hrest & Hh & Hp & Hc).
  assert (Hempty : Queue.hgetall r1 (Redis.job_key member) = ∅)
    by (unfold Queue.hgetall in *; by rewrite Hh).
  rewrite bool_decide_eq_true_2 by done.
  exists r1. split; [done|].
  split; [rewrite zscore_zmembers, Hrest; apply lookup_delete_eq|].
  do 2 (split; [done|]).
  unfold Queue.get_queue_stats, Redis.smembers. simpl. rewrite Hrest, Hp.
  split; [|done]. eapply size_delete_member. by rewrite <- zscore_zmembers.
Qed.

Lemma get_next_job_drops_job_without_hash_witness :
  ∃ r',
    Queue.get_next_job (H := Queue.sample_json)
      (Redis.zadd Redis.empty_redis (Redis.queue_key "archive:crawl") "job:1:9" 3)
      50 "archive:crawl" = Queue.Popped None r' ∧
    Queue.qs_pending (Queue.get_queue_stats r' "archive:crawl") = 0.
Proof.
  destruct (get_next_job_drops_job_without_hash (jl := Queue.sample_json)
              (Redis.zadd Redis.empty_redis (Redis.queue_key "archive:crawl") "job:1:9" 3)
              50 "archive:crawl" "job:1:9" 3)
    as (r' & Hnext & _ & _ & _ & Hpending & _).
  - apply zscore_zadd_eq.
  - intros m s Hne Hs. rewrite zscore_zmembers in Hs.
    unfold Queue.zmembers, Redis.zadd in Hs. simpl in Hs.
    rewrite lookup_insert_eq in Hs. simpl in Hs.
    rewrite lookup_insert_ne in Hs by done. done.
  - reflexivity.
  - exists r'. split; [exact Hnext|]. rewrite Hpending. vm_compute. reflexivity.
Defined.

(** X3. Enqueue then dequeue: on a queue with no pending job,
    [get_next_job] right after [enqueue_job] returns that job with its id,
    priority, creation time and payload, leaves the queue empty and holds the
    job in the processing set. *)
Theorem enqueue_then_next_job {jl : Queue.JsonLib} (r : Redis.redis)
    (now now' : Z) (q : string) (data : Redis.payload) (p : Z) :
  Queue.zmembers r (Redis.queue_key q) = ∅ →
  ∃ r',
    Queue.get_next_job (Redis.enqueue_job r now q data p).2 now' q
      = Queue.Popped
          (Some (Queue.mkJob (Redis.enqueue_job r now q data p).1 p now
                   (Queue.DObject data))) r' ∧
    Queue.zmembers r' (Redis.queue_key q) = ∅ ∧
    (Redis.enqueue_job r now q data p).1 ∈ Redis.smembers r' (Redis.processing_key q) ∧
    Redis.hget r' (Redis.job_key (Redis.enqueue_job r now q data p).1) "status"
      = Some (Redis.RStr "processing").
Proof.
  intros Hempty.
  destruct (Redis.enqueue_job r now q data p) as [id r1] eqn:Henq.
  unfold Redis.enqueue_job in Henq. injection Henq as Hid Hr1. simpl.
  assert (Hz : Queue.zmembers r1 (Redis.queue_key q) = {[ id := p ]}).
  { rewrite <- Hr1, <- Hid. unfold Queue.zmembers at 1, Redis.zadd. simpl.
    rewrite lookup_insert_eq. simpl. fold (Queue.zmembers r (Redis.queue_key q)).
    by rewrite Hempty. }
  assert (Hget : ∀ f, Queue.hgetall r1 (Redis.job_key id) !! f
                      = Redis.hget r1 (Redis.job_key id) f)
    by (intros f; apply hgetall_lookup).
  assert (Hdata : Redis.hget r1 (Redis.job_key id) "data" = Some (Redis.RJson data)).
  { rewrite <- Hr1, <- Hid. rewrite hget_zadd. apply hget_hset_eq. }
  assert (Hprio : Redis.hget r1 (Redis.job_key id) "priority" = Some (Redis.RInt p)).
  { rewrite <- Hr1, <- Hid. rewrite hget_zadd, !hget_hset_field_ne by done.
    apply hget_hset_eq. }
  assert (Hcreated : Redis.hget r1 (Redis.job_key id) "created_at" = Some (Redis.RInt now)).
  { rewrite <- Hr1, <- Hid. rewrite hget_zadd, !hget_hset_field_ne by done.
    apply hget_hset_eq. }
  unfold Queue.get_next_job, Queue.zpopmin.
  rewrite Hz, map_to_list_singleton. simpl.
  assert (Hne : Queue.hgetall
                  (Redis.mkRedis (Redis.hashes r1)
                     (<[Redis.queue_key q := delete id {[id := p]}]> (Redis.zsets r1))
                     (Redis.psets r1) (Redis.counters r1)) (Redis.job_key id) ≠ ∅).
  { intros Hnil. specialize (Hget "data"). rewrite Hdata in Hget.
    unfold Queue.hgetall in *. simpl in Hnil. rewrite Hnil in Hget. done. }
  rewrite bool_decide_eq_false_2 by done.
  change (Queue.hgetall (Redis.mkRedis (Redis.hashes r1) ?z ?ps ?c) ?k)
    with (Queue.hgetall r1 k).
  rewrite !Hget, Hdata, Hprio, Hcreated. simpl.
  eexists. split; [reflexivity|].
  rewrite zmembers_sadd, !zmembers_hset.
  split.
  { unfold Queue.zmembers. simpl. rewrite lookup_insert_eq. simpl.
    apply delete_singleton_eq. }
  split; [apply elem_of_sadd|].
  rewrite hget_sadd, hget_hset_field_ne by done. apply hget_hset_eq.
Qed.

Lemma enqueue_then_next_job_witness :
  ∃ r',
    Queue.get_next_job (H := Queue.sample_json)
      (Redis.enqueue_job Redis.empty_redis 100 "archive:crawl"
         {[ "id" := Redis.JInt 7 ]} 3).2 105 "archive:crawl"
      = Queue.Popped
          (Some (Queue.mkJob
                   (Redis.enqueue_job Redis.empty_redis 100 "archive:crawl"
                      {[ "id" := Redis.JInt 7 ]} 3).1 3 100
                   (Queue.DObject {[ "id" := Redis.JInt 7 ]}))) r' ∧
    Queue.zmembers r' (Redis.queue_key "archive:crawl") = ∅.
Proof.
  destruct (enqueue_then_next_job (jl := Queue.sample_json) Redis.empty_redis
              100 105 "archive:crawl" {[ "id" := Redis.JInt 7 ]} 3)
    as (r' & Hnext & Hempty & _); [reflexivity|].
  exists r'. split; [exact Hnext|exact Hempty].
Defined.

(** X4. Accounting of [complete_job]: the completed counter grows by one on
    every call and pending and failed stay.  For a job in the processing set
    the processing count drops by one and the total is kept; for a job that
    is not there (a second completion, say) the processing count stays and
    the total grows by one. *)
Theorem complete_job_accounting (r : Redis.redis) (now : Z) (q j : string)
    (result : option Redis.payload) :
  Queue.qs_pending (Queue.get_queue_stats (Redis.complete_job r now q j result) q)
    = Queue.qs_pending (Queue.get_queue_stats r q) ∧
  Queue.qs_failed (Queue.get_queue_stats (Redis.complete_job r now q j result) q)
    = Queue.qs_failed (Queue.get_queue_stats r q) ∧
  Queue.qs_completed (Queue.get_queue_stats (Redis.complete_job r now q j result) q)
    = Queue.qs_completed (Queue.get_queue_stats r q) + 1 ∧
  (j ∈ Redis.smembers r (Redis.processing_key q) →
     Queue.qs_processing (Queue.get_queue_stats (Redis.complete_job r now q j result) q)
       = Queue.qs_processing (Queue.get_queue_stats r q) - 1 ∧
     Queue.qs_total (Queue.get_queue_stats (Redis.complete_job r now q j result) q)
       = Queue.qs_total (Queue.get_queue_stats r q)) ∧
  (j ∉ Redis.smembers r (Redis.processing_key q) →
     Queue.qs_processing (Queue.get_queue_stats (Redis.complete_job r now q j result) q)
       = Queue.qs_processing (Queue.get_queue_stats r q) ∧
     Queue.qs_total (Queue.get_queue_stats (Redis.complete_job r now q j result) q)
       = Queue.qs_total (Queue.get_queue_stats r q) + 1).
Proof.
  set (r3 := match result with
             | Some res =>
                 if bool_decide (res = ∅)
                 then Redis.hset (Redis.hset r (Redis.job_key j) "status"
                                    (Redis.RStr "completed"))
                        (Redis.job_key j) "completed_at" (Redis.RInt now)
                 else Redis.hset
                        (Redis.hset (Redis.hset r (Redis.job_key j) "status"
                                       (Redis.RStr "completed"))
                           (Redis.job_key j) "completed_at" (Redis.RInt now))
                        (Redis.job_key j) "result" (Redis.RJson res)
             | None => Redis.hset (Redis.hset r (Redis.job_key j) "status"
                                     (Redis.RStr "completed"))
                         (Redis.job_key j) "completed_at" (Redis.RInt now)
             end).
  assert (Hframe : Redis.zsets r3 = Redis.zsets r ∧ Redis.psets r3 = Redis.psets r
                   ∧ Redis.counters r3 = Redis.counters r).
  { unfold r3. destruct result as [res|]; [case_bool_decide|]; done. }
  destruct Hframe as (Hz & Hp & Hc).
  assert (Hrun : Redis.complete_job r now q j result
                 = Redis.incr (Redis.srem r3 (Redis.processing_key q) j)
                     (Redis.stats_key q "completed")) by reflexivity.
  rewrite Hrun. unfold Queue.get_queue_stats. simpl.
  assert (Hpend : Queue.zmembers
                    (Redis.incr (Redis.srem r3 (Redis.processing_key q) j)
                       (Redis.stats_key q "completed")) (Redis.queue_key q)
                  = Queue.zmembers r (Redis.queue_key q))
    by (unfold Queue.zmembers; simpl; by rewrite Hz).
  assert (Hproc : Redis.smembers
                    (Redis.incr (Redis.srem r3 (Redis.processing_key q) j)
                       (Redis.stats_key q "completed")) (Redis.processing_key q)
                  = Redis.smembers r (Redis.processing_key q) ∖ {[j]}).
  { unfold Redis.smembers at 1. simpl. rewrite lookup_insert_eq. simpl.
    unfold Redis.smembers. by rewrite Hp. }
  assert (Hdone : Redis.get_counter
                    (Redis.incr (Redis.srem r3 (Redis.processing_key q) j)
                       (Redis.stats_key q "completed")) (Redis.stats_key q "completed")
                  = Redis.get_counter r (Redis.stats_key q "completed") + 1).
  { rewrite get_counter_incr_eq. unfold Redis.get_counter. simpl. by rewrite Hc. }
  assert (Hfail : Redis.get_counter
                    (Redis.incr (Redis.srem r3 (Redis.processing_key q) j)
                       (Redis.stats_key q "completed")) (Redis.stats_key q "failed")
                  = Redis.get_counter r (Redis.stats_key q "failed")).
  { unfold Redis.get_counter. simpl.
    rewrite lookup_insert_ne by apply stats_key_kinds. by rewrite Hc. }
  rewrite Hpend, Hproc, Hdone, Hfail.
  split; [done|]. split; [done|]. split; [done|]. split.
  - intros Hin. rewrite (size_remove_member _ _ Hin). lia.
  - intros Hnot. rewrite (remove_absent_member _ _ Hnot). lia.
Qed.

(** X5. A job is retried at most [max_retries] times: after [n] failures in
    a row, each asking for a retry, of a freshly enqueued job, the retry
    counter is the smaller of [n] and [max_retries], every failure beyond
    [max_retries] adds one to the failed counter, and the status is pending
    up to [max_retries] failures and failed after. *)
Theorem retries_are_bounded (r0 : Redis.redis) (now0 now : Z) (q : string)
    (data : Redis.payload) (p m : Z) (e : option string) (n : nat) :
  0 ≤ m →
  Redis.hget r0 (Redis.job_key (Redis.enqueue_job r0 now0 q data p).1) "retries" = None →
  ∃ r',
    Redis.run_ops
      (replicate n (Redis.OpFail now q (Redis.enqueue_job r0 now0 q data p).1 e true m))
      (Redis.enqueue_job r0 now0 q data p).2 = Some r' ∧
    Redis.retries_of r' (Redis.enqueue_job r0 now0 q data p).1
      = Some (Z.min (Z.of_nat n) m) ∧
    Redis.get_counter r' (Redis.stats_key q "failed")
      = Redis.get_counter r0 (Redis.stats_key q "failed") + Z.max 0 (Z.of_nat n - m) ∧
    Redis.hget r' (Redis.job_key (Redis.enqueue_job r0 now0 q data p).1) "status"
      = Some (Redis.RStr (if bool_decide (Z.of_nat n ≤ m) then "pending" else "failed")).
Proof.
  intros Hm Hfresh.
  set (id := (Redis.enqueue_job r0 now0 q data p).1) in *.
  set (r1 := (Redis.enqueue_job r0 now0 q data p).2).
  assert (Hret : Redis.hget r1 (Redis.job_key id) "retries" = None).
  { unfold r1, Redis.enqueue_job. simpl.
    rewrite hget_zadd, !hget_hset_field_ne by done. exact Hfresh. }
  assert (Hprio : Redis.hget r1 (Redis.job_key id) "priority" = Some (Redis.RInt p))
    by apply enqueue_job_priority_field.
  assert (Hstatus : Redis.hget r1 (Redis.job_key id) "status"
                    = Some (Redis.RStr "pending")).
  { unfold r1, Redis.enqueue_job. simpl.
    rewrite hget_zadd, !hget_hset_field_ne by done. apply hget_hset_eq. }
  destruct (fail_job_repeat now q id e m n r1 0)
    as (r' & Hrun & _ & Hretries & Hfailed & Hst).
  - by rewrite Hret.
  - by rewrite Hprio.
  - unfold Redis.retries_of. by rewrite Hret.
  - done.
  - exists r'. split; [exact Hrun|]. split; [exact Hretries|].
    split; [rewrite Hfailed; unfold r1, Redis.enqueue_job; simpl; reflexivity|].
    destruct n as [|n].
    + simpl in Hrun. injection Hrun as <-. rewrite Hstatus.
      by rewrite bool_decide_eq_true_2 by lia.
    + by apply Hst.
Qed.

Lemma retries_are_bounded_witness :
  ∃ r',
    Redis.run_ops
      (replicate 5 (Redis.OpFail 101 "archive:crawl"
                      (Redis.enqueue_job Redis.empty_redis 100 "archive:crawl"
                         {[ "id" := Redis.JInt 7 ]} 3).1 None true 3))
      (Redis.enqueue_job Redis.empty_redis 100 "archive:crawl"
         {[ "id" := Redis.JInt 7 ]} 3).2 = Some r' ∧
    Redis.retries_of r'
      (Redis.enqueue_job Redis.empty_redis 100 "archive:crawl"
         {[ "id" := Redis.JInt 7 ]} 3).1 = Some (Z.min (Z.of_nat 5) 3).
Proof.
  destruct (retries_are_bounded Redis.empty_redis 100 101 "archive:crawl"
              {[ "id" := Redis.JInt 7 ]} 3 3 None 5)
    as (r' & Hrun & Hret & _); [lia|reflexivity|].
  exists r'. split; [exact Hrun|exact Hret].
Defined.

(** X6. The job id is built from the second of the clock and the payload's
    [id] only: a second [enqueue_job] within the same second with the same
    [id] entry (or, as for diff jobs, with none) gets the same job id; the
    queue then holds one member for both, with the second priority and the
    second payload, and the first payload is gone. *)
Theorem enqueue_job_same_second (r : Redis.redis) (now : Z) (q : string)
    (d1 d2 : Redis.payload) (p1 p2 : Z) :
  d1 !! "id" = d2 !! "id" →
  (Redis.enqueue_job (Redis.enqueue_job r now q d1 p1).2 now q d2 p2).1
    = (Redis.enqueue_job r now q d1 p1).1 ∧
  Queue.zmembers (Redis.enqueue_job (Redis.enqueue_job r now q d1 p1).2 now q d2 p2).2
                 (Redis.queue_key q)
    = <[(Redis.enqueue_job r now q d1 p1).1 := p2]> (Queue.zmembers r (Redis.queue_key q)) ∧
  size (Queue.zmembers
          (Redis.enqueue_job (Redis.enqueue_job r now q d1 p1).2 now q d2 p2).2
          (Redis.queue_key q))
    = size (Queue.zmembers (Redis.enqueue_job r now q d1 p1).2 (Redis.queue_key q)) ∧
  Redis.hget (Redis.enqueue_job (Redis.enqueue_job r now q d1 p1).2 now q d2 p2).2
             (Redis.job_key (Redis.enqueue_job r now q d1 p1).1) "data"
    = Some (Redis.RJson d2).
Proof.
  intros Hid. unfold Redis.enqueue_job. simpl. rewrite <- Hid.
  split; [done|].
  assert (Hz : ∀ r' id p,
            Queue.zmembers (Redis.zadd r' (Redis.queue_key q) id p) (Redis.queue_key q)
            = <[id := p]> (Queue.zmembers r' (Redis.queue_key q))).
  { intros r' id p. unfold Queue.zmembers at 1, Redis.zadd. simpl.
    by rewrite lookup_insert_eq. }
  rewrite !Hz, !zmembers_hset, Hz, !zmembers_hset.
  split; [apply insert_insert_eq|].
  split.
  - rewrite insert_insert_eq.
    rewrite !map_size_insert. by destruct (Queue.zmembers r (Redis.queue_key q) !! _).
  - rewrite hget_zadd. apply hget_hset_eq.
Qed.

Lemma enqueue_job_same_second_witness :
  (Redis.enqueue_job
     (Redis.enqueue_job Redis.empty_redis 100 "archive:diff"
        {[ "archive_id" := Redis.JInt 1 ]} 3).2
     100 "archive:diff" {[ "archive_id" := Redis.JInt 2 ]} 3).1
  = (Redis.enqueue_job Redis.empty_redis 100 "archive:diff"
       {[ "archive_id" := Redis.JInt 1 ]} 3).1 ∧
  size (Queue.zmembers
          (Redis.enqueue_job
             (Redis.enqueue_job Redis.empty_redis 100 "archive:diff"
                {[ "archive_id" := Redis.JInt 1 ]} 3).2
             100 "archive:diff" {[ "archive_id" := Redis.JInt 2 ]} 3).2
          (Redis.queue_key "archive:diff")) = 1%nat.
Proof.
  destruct (enqueue_job_same_second Redis.empty_redis 100 "archive:diff"
              {[ "archive_id" := Redis.JInt 1 ]} {[ "archive_id" := Redis.JInt 2 ]} 3 3)
    as (Hid & _ & Hsize & _); [reflexivity|].
  split; [exact Hid|]. rewrite Hsize. vm_compute. reflexivity.
Defined.

(** ** Catalog, lookups and listings *)

Section ModelsFacts.
Import Catalog Models.

Lemma head_filter_snoc {A} (P : A → Prop) `{!∀ x, Decision (P x)}
    (l : list A) (x : A) :
  head (filter P (l ++ [x]))
  = match head (filter P l) with
    | Some y => Some y
    | None => if decide (P x) then Some x else None
    end.
Proof.
  rewrite filter_app. destruct (filter P l) as [|y l'] eqn:Hl; simpl.
  - rewrite filter_cons. by destruct (decide (P x)).
  - done.
Qed.

Lemma head_filter_None {A} (P : A → Prop) `{!∀ x, Decision (P x)} (l : list A) :
  Forall (λ x, ¬ P x) l → head (filter P l) = None.
Proof.
  induction 1 as [|x l Hx _ IH]; [done|]. by rewrite filter_cons, decide_False.
Qed.

(** Looking a row up after an update of the rows with id [i] that keeps
    the ids. *)
Lemma get_by_id_update_archives d i f j :
  (∀ row, a_id (f row) = a_id row) →
  archive_get_by_id (update_archives d i f) j
  = (λ row, if id_matches (a_id row) i then f row else row) <$> archive_get_by_id d j.
Proof.
  intros Hf. unfold archive_get_by_id, update_archives. simpl.
  induction (archives d) as [|row rows IH]; [done|].
  simpl. rewrite !filter_cons.
  assert (Hid : a_id (if id_matches (a_id row) i then f row else row) = a_id row)
    by (destruct (id_matches _ _); [apply Hf|done]).
  rewrite Hid. destruct (decide (a_id row = Some j)); [done|exact IH].
Qed.

Lemma update_archives_no_row d i f :
  Forall (λ row, id_matches (a_id row) i = false) (archives d) →
  update_archives d i f = d.
Proof.
  intros Hno. unfold update_archives, set_archives. destruct d as [rows ? ? ? ? ? ? ?].
  simpl in *. f_equal. induction Hno as [|row rows' Hrow _ IH]; [done|].
  simpl. by rewrite Hrow, IH.
Qed.

Lemma get_by_id_None_no_row d i :
  archive_get_by_id d i = None →
  Forall (λ row, id_matches (a_id row) (Some i) = false) (archives d).
Proof.
  unfold archive_get_by_id. induction (archives d) as [|row rows IH]; [done|].
  rewrite filter_cons. destruct (decide (a_id row = Some i)) as [|Hne]; [done|].
  intros Hnone. constructor; [|by apply IH].
  unfold id_matches. destruct (a_id row) as [x|]; [|done].
  apply bool_decide_eq_false_2. intros ->. done.
Qed.

Lemma get_by_id_Some_id d i row :
  archive_get_by_id d i = Some row → a_id row = Some i.
Proof.
  unfold archive_get_by_id. intros Hrow.
  assert (Hin : row ∈ filter (λ a, a_id a = Some i) (archives d)).
  { destruct (filter _ _) as [|x l]; [done|]. injection Hrow as ->. left. }
  by apply list_elem_of_filter in Hin as [? _].
Qed.

Lemma get_by_id_Some_matches d i row :
  archive_get_by_id d i = Some row → id_matches (a_id row) (Some i) = true.
Proof.
  intros Hrow. rewrite (get_by_id_Some_id _ _ _ Hrow). simpl.
  by apply bool_decide_eq_true_2.
Qed.

#[global] Instance newest_first_total : Total newest_first.
Proof. intros a b. unfold newest_first. lia. Qed.

#[global] Instance newest_first_trans : Transitive newest_first.
Proof. intros a b c. unfold newest_first. lia. Qed.

Lemma NoDup_fmap_same {A B} (f : A → B) (l : list A) x y :
  NoDup (f <$> l) → x ∈ l → y ∈ l → f x = f y → x = y.
Proof.
  induction l as [|z l IH]; [by intros _ ?%elem_of_nil|].
  rewrite fmap_cons, NoDup_cons. intros [Hz Hl].
  intros [-> | Hx]%elem_of_cons [-> | Hy]%elem_of_cons Heq; [done| | |by apply IH].
  - destruct Hz. rewrite Heq. apply list_elem_of_fmap. by exists y.
  - destruct Hz. rewrite <- Heq. apply list_elem_of_fmap. by exists x.
Qed.

(** The stable sort is one of the orders the database may choose. *)
Lemma ordered_by_merge_sort {A} (le : relation A) `{!∀ x y, Decision (le x y)}
    `{!Total le} `{!Transitive le} (rows : list A) :
  ordered_by le rows (merge_sort le rows).
Proof.
  split; [apply merge_sort_Permutation|by apply StronglySorted_merge_sort].
Qed.

(** With no two rows on the same key there is one order only. *)
Lemma ordered_by_unique {A B} (le : relation A) (key : A → B) (rows l1 l2 : list A) :
  (∀ x y, le x y → le y x → key x = key y) →
  NoDup (key <$> rows) →
  ordered_by le rows l1 → ordered_by le rows l2 → l1 = l2.
Proof.
  intros Hanti Hnd [Hp1 Hs1] [Hp2 Hs2].
  apply (StronglySorted_unique_strong le); [|done|done|by rewrite Hp1, Hp2].
  intros x y Hx Hy Hxy Hyx. rewrite Hp1 in Hx. rewrite Hp2 in Hy.
  apply (NoDup_fmap_same key rows); [done..|by apply Hanti].
Qed.


End ModelsFacts.

(** X7. Saving a new site and looking it up: [Archive.save] of an object
    without id inserts a row under the next id of the sequence, hands that
    id back and sets it on the object; [get_by_id] with that id then returns
    the object, and every other id is found as before. *)
Theorem archive_save_insert_then_get (self : Catalog.Archive) (d : Catalog.db) :
  Catalog.truthy_id (Catalog.a_id self) = false →
  Models.archives_seq_fresh d →
  (Catalog.archive_save self d).1.1 = Some (Catalog.archives_seq d) ∧
  (Catalog.archive_save self d).1.2
    = Catalog.with_id self (Some (Catalog.archives_seq d)) ∧
  Models.archive_get_by_id (Catalog.archive_save self d).2 (Catalog.archives_seq d)
    = Some (Catalog.with_id self (Some (Catalog.archives_seq d))) ∧
  (∀ j, j ≠ Catalog.archives_seq d →
        Models.archive_get_by_id (Catalog.archive_save self d).2 j
        = Models.archive_get_by_id d j) ∧
  Catalog.archives_seq (Catalog.archive_save self d).2 = Catalog.archives_seq d + 1.
Proof.
  intros Hfalsy Hfresh. unfold Catalog.archive_save. rewrite Hfalsy. simpl.
  do 2 (split; [done|]). unfold Models.archive_get_by_id. simpl.
  split; [|split; [|done]].
  - rewrite head_filter_snoc, head_filter_None.
    + destruct (decide _) as [|Hne]; [reflexivity|]. exfalso. apply Hne. reflexivity.
    + exact Hfresh.
  - intros j Hj. rewrite head_filter_snoc.
    destruct (head _); [done|]. rewrite decide_False; [done|].
    simpl. intros Heq. by injection Heq.
Qed.

Lemma archive_save_insert_then_get_witness :
  Models.archive_get_by_id
    (Catalog.archive_save (Catalog.with_id Catalog.sample_site None)
       Catalog.sample_sites).2 2
  = Some (Catalog.with_id Catalog.sample_site (Some 2)).
Proof.
  refine (proj1 (proj2 (proj2 (archive_save_insert_then_get
            (Catalog.with_id Catalog.sample_site None) Catalog.sample_sites _ _)))).
  - reflexivity.
  - repeat constructor. simpl. discriminate.
Defined.

(** X8. Saving a site that has an id: the row with that id takes every
    column from the object but keeps its own [created_at]; rows with other
    ids are found as before; and when no row has the id the table is left
    as it was, while [save] still returns the id. *)
Theorem archive_save_update_then_get (self : Catalog.Archive) (d : Catalog.db) (i : Z) :
  Catalog.a_id self = Some i →
  i ≠ 0 →
  (Catalog.archive_save self d).1 = (Some i, self) ∧
  (∀ row, Models.archive_get_by_id d i = Some row →
          Models.archive_get_by_id (Catalog.archive_save self d).2 i
          = Some (Models.saved_over self row)) ∧
  (Models.archive_get_by_id d i = None → (Catalog.archive_save self d).2 = d) ∧
  (∀ j, j ≠ i →
        Models.archive_get_by_id (Catalog.archive_save self d).2 j
        = Models.archive_get_by_id d j) ∧
  length (Catalog.archives (Catalog.archive_save self d).2)
    = length (Catalog.archives d).
Proof.
  intros Hid Hnz. unfold Catalog.archive_save.
  assert (Htruthy : Catalog.truthy_id (Catalog.a_id self) = true).
  { rewrite Hid. simpl. by rewrite bool_decide_eq_false_2. }
  rewrite Htruthy. simpl. rewrite Hid. split; [done|].
  split; [|split; [|split]].
  - intros row Hrow. rewrite get_by_id_update_archives by done. rewrite Hrow.
    cbn [fmap option_fmap option_map]. by rewrite (get_by_id_Some_matches _ _ _ Hrow).
  - intros Hnone. apply update_archives_no_row. by apply get_by_id_None_no_row.
  - intros j Hj. rewrite get_by_id_update_archives by done.
    destruct (Models.archive_get_by_id d j) as [row|] eqn:Hrow; [|done]. simpl.
    rewrite (get_by_id_Some_id _ _ _ Hrow). simpl.
    by rewrite bool_decide_eq_false_2.
  - simpl. by rewrite length_map.
Qed.

Lemma archive_save_update_then_get_witness :
  Models.archive_get_by_id
    (Catalog.archive_save
       (Catalog.with_times Catalog.sample_site None None) Catalog.sample_sites).2 1
  = Some (Models.saved_over (Catalog.with_times Catalog.sample_site None None)
            Catalog.sample_site).
Proof.
  refine (proj1 (proj2 (archive_save_update_then_get
            (Catalog.with_times Catalog.sample_site None None)
            Catalog.sample_sites 1 eq_refl _)) Catalog.sample_site eq_refl).
  lia.
Defined.

(** X9. The timestamps as the database sees them.  [update_check_time]
    sets the row's [last_checked_at] to the current time and leaves its
    [last_changed_at]; [update_change_time] sets the row's [last_changed_at]
    to the current time and overwrites the row's [last_checked_at] with the
    value the object holds, whatever the row held.  Rows with other ids are
    found as before. *)
Theorem update_times_then_get (self : Catalog.Archive) (d : Catalog.db)
    (i now : Z) (row : Catalog.Archive) :
  Catalog.a_id self = Some i →
  Models.archive_get_by_id d i = Some row →
  Models.archive_get_by_id (Catalog.update_check_time self d now).2 i
    = Some (Catalog.with_times row (Some now) (Catalog.last_changed_at row)) ∧
  Models.archive_get_by_id (Catalog.update_change_time self d now).2 i
    = Some (Catalog.with_times row (Catalog.last_checked_at self) (Some now)) ∧
  (∀ j, j ≠ i →
        Models.archive_get_by_id (Catalog.update_check_time self d now).2 j
        = Models.archive_get_by_id d j ∧
        Models.archive_get_by_id (Catalog.update_change_time self d now).2 j
        = Models.archive_get_by_id d j).
Proof.
  intros Hid Hrow. unfold Catalog.update_check_time, Catalog.update_change_time.
  simpl. rewrite Hid.
  rewrite !get_by_id_update_archives by done. rewrite Hrow.
  cbn [fmap option_fmap option_map]. rewrite (get_by_id_Some_matches _ _ _ Hrow).
  do 2 (split; [done|]).
  intros j Hj. rewrite !get_by_id_update_archives by done.
  destruct (Models.archive_get_by_id d j) as [row'|] eqn:Hrow'; [|done]. simpl.
  rewrite (get_by_id_Some_id _ _ _ Hrow'). simpl.
  by rewrite bool_decide_eq_false_2.
Qed.

Lemma update_times_then_get_witness :
  Models.archive_get_by_id
    (Catalog.update_change_time
       (Catalog.with_times Catalog.sample_site (Some 7) None)
       Catalog.sample_sites 2000).2 1
  = Some (Catalog.with_times Catalog.sample_site (Some 7) (Some 2000)).
Proof.
  exact (proj1 (proj2 (update_times_then_get
           (Catalog.with_times Catalog.sample_site (Some 7) None)
           Catalog.sample_sites 1 2000 Catalog.sample_site eq_refl eq_refl))).
Defined.



(** X11. Pages of a site's snapshots: a page has at most [limit] rows, all
    of the site, newest first.  When no two snapshots of the site were
    captured at the same time, the page of [n] rows followed by the page of
    [m] rows at offset [n] is the page of [n + m] rows.  (With equal
    capture times the database may order the rows differently from one
    query to the next.) *)
Theorem get_for_archive_pages (d : Catalog.db) (i : option Z) (n m : nat)
    (first_page next_page : list Catalog.Snapshot) :
  Models.get_for_archive d i n 0 first_page →
  Models.get_for_archive d i m n next_page →
  (length next_page ≤ m)%nat ∧
  (∀ s, s ∈ next_page →
        s ∈ Catalog.snapshots d ∧ Catalog.id_matches (Catalog.archive_id s) i = true) ∧
  StronglySorted Models.newest_first next_page ∧
  (Models.distinct_capture_times d i →
   ∀ both, Models.get_for_archive d i (n + m) 0 both → both = first_page ++ next_page).
Proof.
  intros (o1 & Ho1 & ->) (o2 & Ho2 & ->).
  split; [rewrite length_take; lia|].
  split.
  { intros s Hs. apply (subseteq_take m), (subseteq_drop n) in Hs.
    destruct Ho2 as [Hperm _]. rewrite Hperm in Hs.
    by apply list_elem_of_filter in Hs as [? ?]. }
  split.
  { destruct Ho2 as [_ Hsorted].
    rewrite <- (take_drop n o2) in Hsorted. apply StronglySorted_app_1_r in Hsorted.
    rewrite <- (take_drop m (drop n o2)) in Hsorted.
    by apply StronglySorted_app_1_l in Hsorted. }
  intros Hnd both (o3 & Ho3 & ->).
  assert (Hanti : ∀ x y : Catalog.Snapshot,
            Models.newest_first x y → Models.newest_first y x →
            Catalog.capture_timestamp x = Catalog.capture_timestamp y).
  { intros x y. unfold Models.newest_first. lia. }
  rewrite (ordered_by_unique _ _ _ _ _ Hanti Hnd Ho1 Ho3),
          (ordered_by_unique _ _ _ _ _ Hanti Hnd Ho2 Ho3).
  rewrite !drop_0. symmetry. apply take_take_drop.
Qed.

Lemma get_for_archive_pages_witness :
  ∃ both, Models.get_for_archive Models.sample_history (Some 1) 2 0 both
          ∧ Catalog.s_id <$> both = [Some 3; Some 4].
Proof.
  set (rows := filter (λ s, Catalog.id_matches (Catalog.archive_id s) (Some 1) = true)
                 (Catalog.snapshots Models.sample_history)).
  set (ordered := merge_sort Models.newest_first rows).
  assert (Hord : Models.ordered_by Models.newest_first rows ordered)
    by apply (ordered_by_merge_sort Models.newest_first).
  assert (Hboth : Models.get_for_archive Models.sample_history (Some 1) 2 0
                    (take 2 (drop 0 ordered))) by (by exists ordered).
  exists (take 2 (drop 0 ordered)). split; [exact Hboth|].
  destruct (get_for_archive_pages Models.sample_history (Some 1) 1 1
              (take 1 (drop 0 ordered)) (take 1 (drop 1 ordered)))
    as (_ & _ & _ & Hpages).
  - exists ordered. done.
  - exists ordered. done.
  - assert (Hnd : Models.distinct_capture_times Models.sample_history (Some 1)).
    { unfold Models.distinct_capture_times. apply (bool_decide_unpack _).
      vm_compute. exact I. }
    rewrite (Hpages Hnd _ Hboth). vm_compute. reflexivity.
Defined.

(** X12. Saving a new snapshot and reading it back: [Snapshot.save] of an
    object without id inserts a row under the next id of the sequence;
    [get_by_id] with that id returns it and other ids are found as before;
    [get_latest_for_archive] returns it for its own site when every stored
    snapshot of that site is older, and is unchanged for other sites. *)
Theorem snapshot_save_then_get (self : Catalog.Snapshot) (d : Catalog.db) :
  Catalog.truthy_id (Catalog.s_id self) = false →
  Models.snapshots_seq_fresh d →
  (Catalog.snapshot_save self d).1
    = (Some (Catalog.snapshots_seq d),
       Catalog.snapshot_with_id self (Some (Catalog.snapshots_seq d))) ∧
  Catalog.snapshot_get_by_id (Catalog.snapshot_save self d).2 (Catalog.snapshots_seq d)
    = Some (Catalog.snapshot_with_id self (Some (Catalog.snapshots_seq d))) ∧
  (∀ j, j ≠ Catalog.snapshots_seq d →
        Catalog.snapshot_get_by_id (Catalog.snapshot_save self d).2 j
        = Catalog.snapshot_get_by_id d j) ∧
  (∀ i, Catalog.id_matches (Catalog.archive_id self) i = true →
        (∀ s, s ∈ Catalog.snapshots d →
              Catalog.id_matches (Catalog.archive_id s) i = true →
              Catalog.capture_timestamp s < Catalog.capture_timestamp self) →
        Catalog.get_latest_for_archive (Catalog.snapshot_save self d).2 i
        = Some (Catalog.snapshot_with_id self (Some (Catalog.snapshots_seq d)))) ∧
  (∀ i, Catalog.id_matches (Catalog.archive_id self) i = false →
        Catalog.get_latest_for_archive (Catalog.snapshot_save self d).2 i
        = Catalog.get_latest_for_archive d i).
Proof.
  intros Hfalsy Hfresh. unfold Catalog.snapshot_save. rewrite Hfalsy. simpl.
  split; [done|]. unfold Catalog.snapshot_get_by_id. simpl.
  split; [|split; [|split]].
  - rewrite head_filter_snoc, head_filter_None.
    + destruct (decide _) as [|Hne]; [reflexivity|]. exfalso. apply Hne. reflexivity.
    + exact Hfresh.
  - intros j Hj. rewrite head_filter_snoc.
    destruct (head _); [done|]. rewrite decide_False; [done|].
    simpl. intros Heq. by injection Heq.
  - intros i Hmine Hold. by apply latest_is_new.
  - intros i Hother. unfold Catalog.get_latest_for_archive. simpl.
    rewrite filter_app, filter_cons, decide_False; [by rewrite app_nil_r|].
    simpl. by rewrite Hother.
Qed.

Lemma snapshot_save_then_get_witness :
  Catalog.snapshot_get_by_id
    (Catalog.snapshot_save (Diff.sample_snapshot 0 30 "/s/3.html" "h3") Diff.sample_db).2 3
  = Some (Diff.sample_snapshot 3 30 "/s/3.html" "h3") ∧
  Catalog.get_latest_for_archive
    (Catalog.snapshot_save (Diff.sample_snapshot 0 30 "/s/3.html" "h3") Diff.sample_db).2
    (Some 1)
  = Some (Diff.sample_snapshot 3 30 "/s/3.html" "h3").
Proof.
  destruct (snapshot_save_then_get (Diff.sample_snapshot 0 30 "/s/3.html" "h3")
              Diff.sample_db) as (_ & Hget & _ & Hlatest & _).
  - reflexivity.
  - repeat constructor; simpl; discriminate.
  - split; [exact Hget|]. apply (Hlatest (Some 1)); [reflexivity|].
    intros s Hs _. simpl in Hs.
    apply elem_of_cons in Hs as [->|Hs]; [simpl; lia|].
    apply list_elem_of_singleton in Hs as ->. simpl. lia.
Defined.

(** ** Scheduler *)

Section SchedulerFacts.
Import Catalog Crawl Scheduler.

Lemma schedule_all_effect cfg clk pending : ∀ w k,
  archive_queue (w_db (schedule_all cfg w clk k pending))
    = archive_queue (w_db w)
      ++ crawl_entries cfg clk k (queue_seq (w_db w)) pending ∧
  archives (w_db (schedule_all cfg w clk k pending)) = archives (w_db w) ∧
  snapshots (w_db (schedule_all cfg w clk k pending)) = snapshots (w_db w) ∧
  active_crawls (schedule_all cfg w clk k pending) = active_crawls w.
Proof.
  induction pending as [|a rest IH]; intros w k; simpl.
  - by rewrite app_nil_r.
  - destruct (IH (_schedule_archive cfg w a (clk k)) (S k)) as (Hq & Ha & Hs & Hact).
    rewrite Hq, Ha, Hs, Hact. unfold _schedule_archive. simpl.
    by rewrite <- app_assoc.
Qed.

Lemma crawl_entries_shape cfg clk pending : ∀ k q_id,
  Forall (λ q, operation q = "crawl" ∧ q_status q = "pending"
               ∧ (q_priority q = 1 ∨ q_priority q = 3 ∨ q_priority q = 5))
         (crawl_entries cfg clk k q_id pending) ∧
  length (crawl_entries cfg clk k q_id pending) = length pending.
Proof.
  induction pending as [|a rest IH]; intros k q_id; simpl; [by split|].
  destruct (IH (S k) (q_id + 1)) as [Hall Hlen]. split; [|by rewrite Hlen].
  constructor; [|done]. simpl. do 2 (split; [done|]).
  unfold queue_priority. repeat case_bool_decide; auto.
Qed.

Lemma crawl_entries_covers cfg clk pending a : ∀ k q_id,
  a ∈ pending →
  ∃ i now, crawl_entry cfg a i now ∈ crawl_entries cfg clk k q_id pending.
Proof.
  induction pending as [|b rest IH]; intros k q_id Hin; [by apply elem_of_nil in Hin|].
  apply elem_of_cons in Hin as [->|Hin]; simpl.
  - eexists _, _. left.
  - destruct (IH (S k) (q_id + 1) Hin) as (i & now & Hi). eexists _, _. by right.
Qed.

(** What [get_pending] returns passes the [WHERE] clause. *)
Lemma get_pending_elem d n a :
  a ∈ get_pending d n → pending_row d a = true ∧ a ∈ archives d.
Proof.
  intros Ha.
  assert (Hin : a ∈ merge_sort pending_le
                     (filter (λ a, pending_row d a = true) (archives d))).
  { rewrite <- (get_pending_sorted_prefix d n). apply elem_of_app. by left. }
  rewrite merge_sort_Permutation in Hin. by apply list_elem_of_filter in Hin.
Qed.

Lemma pending_row_false_with_entry d a q :
  q ∈ archive_queue d → outstanding_for a q = true → pending_row d a = false.
Proof.
  intros Hq Hout. unfold pending_row.
  assert (Hex : existsb (outstanding_for a) (archive_queue d) = true).
  { apply existsb_exists. exists q. split; [by apply list_elem_of_In|done]. }
  rewrite Hex. apply andb_false_r.
Qed.

End SchedulerFacts.

(** X13. One [process_queue] appends one queue row per scheduled site, each
    with operation crawl, status pending and priority 1, 3 or 5; it schedules
    at most [MAX_CONCURRENT_CRAWLS - |active|] sites and none at all when the
    active set is full; the sites table and the active set are not touched. *)
Theorem process_queue_schedules (cfg : Config) (w : Crawl.world) (clk : nat → Z * Z) :
  Catalog.archive_queue (Crawl.w_db (Scheduler.process_queue cfg w clk))
    = Catalog.archive_queue (Crawl.w_db w)
      ++ Scheduler.crawl_entries cfg clk 0 (Catalog.queue_seq (Crawl.w_db w))
           (Scheduler.scheduled cfg w) ∧
  Forall (λ q, Catalog.operation q = "crawl" ∧ Catalog.q_status q = "pending"
               ∧ (Catalog.q_priority q = 1 ∨ Catalog.q_priority q = 3
                  ∨ Catalog.q_priority q = 5))
         (Scheduler.crawl_entries cfg clk 0 (Catalog.queue_seq (Crawl.w_db w))
            (Scheduler.scheduled cfg w)) ∧
  Z.of_nat (length (Scheduler.scheduled cfg w))
    ≤ Z.max 0 (MAX_CONCURRENT_CRAWLS cfg - Z.of_nat (size (Crawl.active_crawls w))) ∧
  Catalog.archives (Crawl.w_db (Scheduler.process_queue cfg w clk))
    = Catalog.archives (Crawl.w_db w) ∧
  Crawl.active_crawls (Scheduler.process_queue cfg w clk) = Crawl.active_crawls w ∧
  (MAX_CONCURRENT_CRAWLS cfg ≤ Z.of_nat (size (Crawl.active_crawls w)) →
     Scheduler.process_queue cfg w clk = w).
Proof.
  unfold Scheduler.process_queue, Scheduler.scheduled.
  split; [|split; [apply crawl_entries_shape|]].
  - case_bool_decide; [simpl; by rewrite app_nil_r|]. apply schedule_all_effect.
  - split.
    + case_bool_decide; [simpl; lia|].
      unfold Catalog.get_pending. rewrite length_take. lia.
    + case_bool_decide as Hfull; [done|].
      split; [apply schedule_all_effect|]. split; [apply schedule_all_effect|].
      intros Hge. by destruct Hfull.
Qed.

(** X14. A scheduled site is not scheduled twice: after [process_queue],
    no site it scheduled (and that has an id) is returned by [get_pending]
    again, whatever the limit. *)
Theorem scheduled_site_not_pending_again (cfg : Config) (w : Crawl.world)
    (clk : nat → Z * Z) (a : Catalog.Archive) (n : nat) :
  a ∈ Scheduler.scheduled cfg w →
  is_Some (Catalog.a_id a) →
  a ∉ Catalog.get_pending (Crawl.w_db (Scheduler.process_queue cfg w clk)) n.
Proof.
  intros Hsched [i Hid] Hagain.
  apply get_pending_elem in Hagain as [Hrow _].
  destruct (crawl_entries_covers cfg clk _ a 0 (Catalog.queue_seq (Crawl.w_db w)) Hsched)
    as (qi & now & Hentry).
  rewrite (pending_row_false_with_entry _ a (Scheduler.crawl_entry cfg a qi now)) in Hrow;
    [done| |].
  - unfold Scheduler.process_queue, Scheduler.scheduled in *.
    case_bool_decide; [by apply elem_of_nil in Hsched|].
    rewrite (proj1 (schedule_all_effect _ _ _ _ _)). apply elem_of_app. by right.
  - unfold Catalog.outstanding_for. simpl. rewrite Hid. simpl.
    by rewrite bool_decide_eq_true_2.
Qed.

Lemma scheduled_site_not_pending_again_witness :
  Crawl.sample_site ∈ Scheduler.scheduled default_config Crawl.sample_world ∧
  Crawl.sample_site
    ∉ Catalog.get_pending
        (Crawl.w_db (Scheduler.process_queue default_config Crawl.sample_world
                       Scheduler.sample_ticks)) 3.
Proof.
  assert (Hin : Crawl.sample_site ∈ Scheduler.scheduled default_config Crawl.sample_world).
  { assert (Heq : Scheduler.scheduled default_config Crawl.sample_world
                  = [Crawl.sample_site]) by (vm_compute; reflexivity).
    rewrite Heq. left. }
  split; [exact Hin|].
  apply (scheduled_site_not_pending_again default_config Crawl.sample_world
           Scheduler.sample_ticks Crawl.sample_site 3 Hin).
  by eexists.
Defined.

(** ** Capture worker: outcomes of a capture *)

Section CaptureFacts.
Import Catalog Crawl.
Context `{HashLib}.

Lemma remove_added (X : gset (option Z)) (x : option Z) :
  x ∉ X → ({[x]} ∪ X) ∖ {[x]} = X.
Proof.
  intros Hx. apply set_eq. intros y.
  rewrite elem_of_difference, elem_of_union, elem_of_singleton.
  split; [intros [[?|?] ?]; done|].
  intros Hy. split; [by right|]. by intros ->.
Qed.

(** The crawl succeeds exactly on a 200 response whose local steps get to
    the end; the fields a snapshot is built from are then those of the
    undisturbed crawl. *)
Lemma crawl_success cfg dom now f env fault :
  success (Capture.crawl cfg dom now f env fault) = true
  ↔ (∃ text url, f = Capture.Got (Response 200 text url))
    ∧ Capture.local_ok fault = true.
Proof.
  unfold Capture.crawl. destruct f as [[code text url|msg]|msg]; cbn zeta beta iota.
  - destruct (decide (code = 200)) as [->|Hcode].
    + rewrite bool_decide_eq_true_2 by done. cbn [negb].
      destruct fault as [[msg|msg|msg]|]; cbn [success Capture.local_ok].
      * split; [done|by intros [_ ?]].
      * split; [done|by intros [_ ?]].
      * split; [|done]. intros _. split; [by eexists _, _|done].
      * split; [|done]. intros _. split; [by eexists _, _|done].
    + rewrite bool_decide_eq_false_2 by done. cbn [negb].
      rewrite crawl_non_200 by done. cbn [success].
      split; [done|]. intros [(text' & url' & Heq) _]. by simplify_eq.
  - split; [done|]. by intros [(text' & url' & Heq) _].
  - split; [done|]. by intros [(text' & url' & Heq) _].
Qed.

Lemma crawl_fields cfg dom now text url env fault :
  Capture.local_ok fault = true →
  let result := Capture.crawl cfg dom now (Capture.Got (Response 200 text url)) env fault in
  let r := crawl cfg dom now (Response 200 text url) env in
  success result = true ∧
  r_warc_path result = r_warc_path r ∧ r_screenshot_path result = r_screenshot_path r ∧
  r_html_path result = r_html_path r ∧ r_text_path result = r_text_path r ∧
  r_pdf_path result = r_pdf_path r ∧ r_content_hash result = r_content_hash r ∧
  status_code result = status_code r ∧ r_size_bytes result = r_size_bytes r ∧
  r_metadata result = r_metadata r.
Proof.
  intros Hok. unfold Capture.crawl. simpl.
  destruct fault as [[msg|msg|msg]|]; try done; simpl; by repeat split.
Qed.

(** The change detector with its calls, against the one without. *)
Lemma process_changes_returned raises d r act a new_snapshot t d' r' a' :
  Capture._process_changes raises d r a new_snapshot t = (true, d', r', a') →
  _process_changes (mkWorld d r act) a new_snapshot t = (mkWorld d' r' act, a').
Proof.
  unfold Capture._process_changes, _process_changes. simpl.
  destruct (raises Capture.LatestQuery); [done|].
  destruct (get_latest_for_archive d (a_id a)) as [previous|]; [|by intros [= <- <- <-]].
  case_bool_decide; [by intros [= <- <- <-]|].
  case_bool_decide; [by intros [= <- <- <-]|].
  destruct (raises Capture.ChangeUpdate); [done|].
  destruct (raises Capture.JobStore); [done|].
  unfold Capture.store_job. cbn zeta beta iota.
  destruct (raises Capture.JobQueue); [done|].
  destruct (raises Capture.QueueInsert); [done|].
  by intros [= <- <- <-].
Qed.

Lemma process_changes_no_raise raises d r a new_snapshot t :
  Capture.no_call_raises raises →
  (Capture._process_changes raises d r a new_snapshot t).1.1.1 = true.
Proof.
  intros Hno. unfold Capture._process_changes. rewrite !Hno.
  destruct (get_latest_for_archive d (a_id a)) as [previous|]; [|done].
  repeat case_bool_decide; try done.
Qed.

(** What the change detector may have written when it stops. *)
Lemma process_changes_writes raises d r a new_snapshot t :
  let out := Capture._process_changes raises d r a new_snapshot t in
  snapshots out.1.1.2 = snapshots d ∧
  snapshots_seq out.1.1.2 = snapshots_seq d ∧
  length (archives out.1.1.2) = length (archives d) ∧
  last_checked_at out.2 = last_checked_at a ∧
  (out.1.1.1 = false → archive_queue out.1.1.2 = archive_queue d).
Proof.
  unfold Capture._process_changes.
  destruct (raises Capture.LatestQuery); [done|].
  destruct (get_latest_for_archive d (a_id a)) as [previous|]; [|done].
  case_bool_decide; [done|]. case_bool_decide; [done|].
  assert (Hlen : length (archives (update_change_time a d (t_change t)).2)
                 = length (archives d)).
  { unfold update_change_time, update_archives. simpl. by rewrite length_map. }
  destruct (raises Capture.ChangeUpdate); [done|].
  destruct (raises Capture.JobStore); [done|].
  unfold Capture.store_job. cbn zeta beta iota.
  destruct (raises Capture.JobQueue); [done|].
  destruct (raises Capture.QueueInsert); done.
Qed.

(** A capture of a 200 response whose local steps get to the end, call by
    call. *)
Lemma crawl_archive_200 cfg w a text url env fault raises t :
  a_id a ∉ active_crawls w →
  Capture.local_ok fault = true →
  let r := crawl cfg (domain a) (t_crawl t) (Response 200 text url) env in
  let a1 := with_times a (Some (t_check t)) (last_changed_at a) in
  let d1 := (update_check_time a (w_db w) (t_check t)).2 in
  let snapshot :=
    mkSnapshot (Some (snapshots_seq d1)) (a_id a) (t_capture t) (r_warc_path r)
      (r_screenshot_path r) (r_html_path r) (r_text_path r) (r_pdf_path r)
      (r_content_hash r) (status_code r) (r_size_bytes r) None (r_metadata r) in
  let d2 := set_snapshots d1 (snapshots d1 ++ [snapshot]) (snapshots_seq d1 + 1) in
  let pc := Capture._process_changes raises d2 (w_redis w) a1 snapshot t in
  Capture.crawl_archive cfg w a (Capture.Got (Response 200 text url)) env fault raises t
  = if raises Capture.CheckUpdate
    then (false, mkWorld (w_db w) (w_redis w) (active_crawls w), a1)
    else if raises Capture.SnapshotInsert
    then (false, mkWorld d1 (w_redis w) (active_crawls w), a1)
    else (pc.1.1.1, mkWorld pc.1.1.2 pc.1.2 (active_crawls w), pc.2).
Proof.
  intros Hactive Hlocal. cbn zeta. unfold Capture.crawl_archive.
  rewrite bool_decide_eq_false_2 by done.
  destruct (crawl_fields cfg (domain a) (t_crawl t) text url env fault Hlocal)
    as (-> & -> & -> & -> & -> & -> & -> & -> & -> & ->).
  cbn zeta beta iota. rewrite (remove_added _ _ Hactive).
  destruct (raises Capture.CheckUpdate); [done|].
  destruct (raises Capture.SnapshotInsert); [done|].
  unfold snapshot_save. simpl truthy_id. cbn zeta beta iota.
  unfold snapshot_with_id. simpl.
  by destruct (Capture._process_changes _ _ _ _ _ _) as [[[flag d'] r'] a'].
Qed.

End CaptureFacts.

(** X15. Outcomes of [crawl_archive], exception handlers included.  The
    active set is afterwards what it was before.  [True] is returned only
    for a site that is not already being crawled, on a 200 response whose
    local steps get to the end, and the state is then the one of the
    undisturbed capture; it is returned whenever, in addition, no database
    or redis call raises.  When [False] is returned no queue row was added,
    no site row was added or removed and at most one snapshot row was
    added; and if no call raised, the database, the work queue and the site
    object are unchanged. *)
Theorem crawl_archive_outcome {hl : Crawl.HashLib} (cfg : Config) (w : Crawl.world)
    (a : Catalog.Archive) (f : Capture.fetch_outcome) (env : Crawl.rendered)
    (fault : option Capture.local_fault) (raises : Capture.call → bool)
    (t : Crawl.clock) :
  let out := Capture.crawl_archive cfg w a f env fault raises t in
  Crawl.active_crawls out.1.2 = Crawl.active_crawls w ∧
  (out.1.1 = true →
     (Catalog.a_id a ∉ Crawl.active_crawls w) ∧
     Capture.local_ok fault = true ∧
     ∃ text url, f = Capture.Got (Crawl.Response 200 text url) ∧
                 out = Crawl.crawl_archive cfg w a (Crawl.Response 200 text url) env t) ∧
  ((Catalog.a_id a ∉ Crawl.active_crawls w) →
   (∃ text url, f = Capture.Got (Crawl.Response 200 text url)) →
   Capture.local_ok fault = true →
   Capture.no_call_raises raises →
   out.1.1 = true) ∧
  (out.1.1 = false →
     Catalog.archive_queue (Crawl.w_db out.1.2) = Catalog.archive_queue (Crawl.w_db w) ∧
     length (Catalog.archives (Crawl.w_db out.1.2))
       = length (Catalog.archives (Crawl.w_db w)) ∧
     (Catalog.snapshots (Crawl.w_db out.1.2) = Catalog.snapshots (Crawl.w_db w)
      ∨ ∃ row, Catalog.snapshots (Crawl.w_db out.1.2)
               = Catalog.snapshots (Crawl.w_db w) ++ [row]) ∧
     (Capture.no_call_raises raises →
        Crawl.w_db out.1.2 = Crawl.w_db w ∧
        Crawl.w_redis out.1.2 = Crawl.w_redis w ∧
        out.2 = a)).
Proof.
  cbn zeta. unfold Capture.crawl_archive.
  case_bool_decide as Hactive.
  { split; [done|]. split; [done|]. split; [by intros ?|].
    intros _. split; [done|]. split; [done|]. split; [by left|done]. }
  pose proof (crawl_success cfg (Catalog.domain a) (Crawl.t_crawl t) f env fault) as Hok.
  destruct (Crawl.success (Capture.crawl _ _ _ f env fault)) eqn:Hsuccess.
  2:{ cbn zeta beta iota. cbn [fst snd].
      split; [by apply remove_added|]. split; [done|]. split.
      - intros _ Hresp Hlocal _. apply Hok. by split.
      - intros _. split; [done|]. split; [done|]. split; [by left|done]. }
  destruct (proj1 Hok eq_refl) as [(text & url & ->) Hlocal].
  destruct (crawl_fields cfg (Catalog.domain a) (Crawl.t_crawl t) text url env fault Hlocal)
    as (_ & -> & -> & -> & -> & -> & -> & -> & -> & ->).
  set (r := Crawl.crawl cfg (Catalog.domain a) (Crawl.t_crawl t)
              (Crawl.Response 200 text url) env).
  assert (Hrun : Crawl.crawl_archive cfg w a (Crawl.Response 200 text url) env t
    = let archive1 := Catalog.with_times a (Some (Crawl.t_check t))
                        (Catalog.last_changed_at a) in
      let d1 := (Catalog.update_check_time a (Crawl.w_db w) (Crawl.t_check t)).2 in
      let snapshot :=
        Catalog.mkSnapshot None (Catalog.a_id archive1) (Crawl.t_capture t)
          (Crawl.r_warc_path r) (Crawl.r_screenshot_path r) (Crawl.r_html_path r)
          (Crawl.r_text_path r) (Crawl.r_pdf_path r) (Crawl.r_content_hash r)
          (Crawl.status_code r) (Crawl.r_size_bytes r) None (Crawl.r_metadata r) in
      let pc := Crawl._process_changes
                  (Crawl.mkWorld (Catalog.snapshot_save snapshot d1).2
                     (Crawl.w_redis w) ({[Catalog.a_id a]} ∪ Crawl.active_crawls w))
                  archive1 (Catalog.snapshot_save snapshot d1).1.2 t in
      (true,
       Crawl.mkWorld (Crawl.w_db pc.1) (Crawl.w_redis pc.1)
         (Crawl.active_crawls pc.1 ∖ {[Catalog.a_id a]}),
       pc.2)).
  { unfold Crawl.crawl_archive. rewrite bool_decide_eq_false_2 by done.
    fold r. cbn zeta.
    assert (Crawl.success r = true) as -> by done.
    unfold Catalog.update_check_time. cbn zeta beta iota.
    destruct (Catalog.snapshot_save _ _) as [[sid snap'] d2]. cbn [fst snd].
    by destruct (Crawl._process_changes _ _ _ t) as [w' a']. }
  cbn zeta in Hrun.
  cbn zeta beta iota. cbn [fst snd].
  destruct (raises Capture.CheckUpdate) eqn:Hc1.
  { cbn [fst snd Crawl.active_crawls Crawl.w_db Crawl.w_redis].
    split; [by apply remove_added|]. split; [done|]. split.
    - intros _ _ _ Hno. by rewrite Hno in Hc1.
    - intros _. split; [done|]. split; [done|]. split; [by left|].
      intros Hno. by rewrite Hno in Hc1. }
  destruct (raises Capture.SnapshotInsert) eqn:Hc2.
  { cbn [fst snd Crawl.active_crawls Crawl.w_db Crawl.w_redis].
    split; [by apply remove_added|]. split; [done|]. split.
    - intros _ _ _ Hno. by rewrite Hno in Hc2.
    - intros _. split; [done|].
      split; [unfold Catalog.update_check_time, Catalog.update_archives; simpl;
              by rewrite length_map|].
      split; [by left|]. intros Hno. by rewrite Hno in Hc2. }
  match goal with
  | |- context [Catalog.snapshot_save ?snap ?db1] =>
      set (snapshot := snap) in *; set (d1 := db1) in *
  end.
  assert (Hsave : Catalog.snapshot_save snapshot d1
                  = (Some (Catalog.snapshots_seq d1),
                     Catalog.snapshot_with_id snapshot (Some (Catalog.snapshots_seq d1)),
                     Catalog.set_snapshots d1
                       (Catalog.snapshots d1
                          ++ [Catalog.snapshot_with_id snapshot
                                (Some (Catalog.snapshots_seq d1))])
                       (Catalog.snapshots_seq d1 + 1))) by done.
  rewrite Hsave. cbn [fst snd].
  set (d2 := Catalog.set_snapshots d1 _ _).
  set (snapshot' := Catalog.snapshot_with_id snapshot _).
  set (a1 := Catalog.with_times a (Some (Crawl.t_check t)) (Catalog.last_changed_at a)).
  pose proof (process_changes_writes raises d2 (Crawl.w_redis w) a1 snapshot' t)
    as (Hsn & _ & Hlen & _ & Hq).
  pose proof (process_changes_returned raises d2 (Crawl.w_redis w)
                ({[Catalog.a_id a]} ∪ Crawl.active_crawls w) a1 snapshot' t) as Hret.
  pose proof (process_changes_no_raise raises d2 (Crawl.w_redis w) a1 snapshot' t)
    as Hnoraise.
  cbn zeta in Hsn, Hlen, Hq.
  destruct (Capture._process_changes raises d2 (Crawl.w_redis w) a1 snapshot' t)
    as [[[flag d'] r'] a'].
  cbn [fst snd Crawl.active_crawls Crawl.w_db Crawl.w_redis] in *.
  split; [by apply remove_added|]. split; [|split].
  - intros ->. split; [done|]. split; [done|]. exists text, url. split; [done|].
    rewrite Hrun. fold a1 d1 snapshot. rewrite Hsave. cbn [fst snd]. fold d2 snapshot'.
    by rewrite (Hret d' r' a' eq_refl).
  - intros _ _ _ Hno. by apply Hnoraise.
  - intros ->. rewrite (Hq eq_refl). split; [done|]. rewrite Hlen.
    split; [unfold d1, Catalog.update_check_time, Catalog.update_archives; simpl;
            by rewrite length_map|].
    split; [right; rewrite Hsn; by eexists|].
    intros Hno. by specialize (Hnoraise Hno).
Qed.

(** X16. A capture of a 200 response of a site that is not being crawled,
    when the local steps get to the end.  If no database or redis call
    raises, [True] is returned and exactly one snapshot row is appended: it
    carries the next id of the sequence, the site's id, the capture time,
    status 200, the SHA-256 of the body as [content_hash], the length of
    the body as size, and an [html_path] inside the temporary directory of
    the capture; the site object's [last_checked_at] is the check time.
    If the insert of the snapshot row raises after the update of the check
    time went through, [False] is returned and no snapshot row is written,
    yet the site's row and the site object carry the new check time. *)
Theorem crawl_archive_saves_snapshot {hl : Crawl.HashLib} (cfg : Config)
    (w : Crawl.world) (a : Catalog.Archive) (text url : string)
    (env : Crawl.rendered) (fault : option Capture.local_fault)
    (raises : Capture.call → bool) (t : Crawl.clock) :
  Catalog.a_id a ∉ Crawl.active_crawls w →
  Capture.local_ok fault = true →
  (Capture.no_call_raises raises →
   ∃ w' a' row,
     Capture.crawl_archive cfg w a (Capture.Got (Crawl.Response 200 text url))
       env fault raises t = (true, w', a') ∧
     Catalog.snapshots (Crawl.w_db w') = Catalog.snapshots (Crawl.w_db w) ++ [row] ∧
     Catalog.snapshots_seq (Crawl.w_db w') = Catalog.snapshots_seq (Crawl.w_db w) + 1 ∧
     Catalog.s_id row = Some (Catalog.snapshots_seq (Crawl.w_db w)) ∧
     Catalog.archive_id row = Catalog.a_id a ∧
     Catalog.capture_timestamp row = Crawl.t_capture t ∧
     Catalog.status row = Some 200 ∧
     Catalog.content_hash row = Some (Crawl.sha256_hex text) ∧
     Catalog.size_bytes row = Some (Z.of_nat (String.length text)) ∧
     Catalog.html_path row
       = Some (Storage.path_join (Crawl.temp_dir env) "content.html") ∧
     Catalog.last_checked_at a' = Some (Crawl.t_check t)) ∧
  (raises Capture.CheckUpdate = false →
   raises Capture.SnapshotInsert = true →
   Capture.crawl_archive cfg w a (Capture.Got (Crawl.Response 200 text url))
     env fault raises t
   = (false,
      Crawl.mkWorld (Catalog.update_check_time a (Crawl.w_db w) (Crawl.t_check t)).2
        (Crawl.w_redis w) (Crawl.active_crawls w),
      Catalog.with_times a (Some (Crawl.t_check t)) (Catalog.last_changed_at a))).
Proof.
  intros Hactive Hlocal.
  rewrite (crawl_archive_200 cfg w a text url env fault raises t Hactive Hlocal).
  split.
  - intros Hno. rewrite !Hno.
    match goal with
    | |- context [Capture._process_changes raises ?d2 ?r0 ?a1 ?s0 t] =>
        pose proof (process_changes_writes raises d2 r0 a1 s0 t)
          as (Hsn & Hseq & _ & Hchk & _);
        pose proof (process_changes_no_raise raises d2 r0 a1 s0 t Hno) as Hflag;
        destruct (Capture._process_changes raises d2 r0 a1 s0 t)
          as [[[flag d'] r'] a'] eqn:Hpc
    end.
    cbn [fst snd] in *. subst flag.
    eexists _, _, _. split; [reflexivity|]. cbn [Crawl.w_db].
    split; [exact Hsn|]. split; [exact Hseq|]. by repeat split.
  - by intros -> ->.
Qed.

Lemma crawl_archive_saves_snapshot_witness :
  (∃ w' a' row,
     Capture.crawl_archive (H := Crawl.sample_hash) default_config Crawl.sample_world
       Crawl.sample_site (Capture.Got (Crawl.Response 200 "new page" "https://example.gov"))
       Crawl.sample_rendered None (λ _, false) Crawl.sample_clock = (true, w', a') ∧
     Catalog.snapshots (Crawl.w_db w')
       = Catalog.snapshots (Crawl.w_db Crawl.sample_world) ++ [row] ∧
     Catalog.content_hash row = Some "sha256:new page") ∧
  ∃ w' a',
    Capture.crawl_archive (H := Crawl.sample_hash) default_config Crawl.sample_world
      Crawl.sample_site (Capture.Got (Crawl.Response 200 "new page" "https://example.gov"))
      Crawl.sample_rendered None Capture.insert_raises Crawl.sample_clock
      = (false, w', a') ∧
    Catalog.snapshots (Crawl.w_db w') = Catalog.snapshots (Crawl.w_db Crawl.sample_world) ∧
    Catalog.last_checked_at a' = Some 11.
Proof.
  split.
  - destruct (crawl_archive_saves_snapshot (hl := Crawl.sample_hash) default_config
                Crawl.sample_world Crawl.sample_site "new page" "https://example.gov"
                Crawl.sample_rendered None (λ _, false) Crawl.sample_clock)
      as [Hgood _].
    + apply not_elem_of_empty.
    + reflexivity.
    + destruct Hgood as (w' & a' & row & Hrun & Hrows & _ & _ & _ & _ & _ & Hhash & _);
        [by intros c|].
      exists w', a', row. split; [exact Hrun|]. split; [exact Hrows|exact Hhash].
  - destruct (crawl_archive_saves_snapshot (hl := Crawl.sample_hash) default_config
                Crawl.sample_world Crawl.sample_site "new page" "https://example.gov"
                Crawl.sample_rendered None Capture.insert_raises Crawl.sample_clock)
      as [_ Hbad].
    + apply not_elem_of_empty.
    + reflexivity.
    + eexists _, _. split; [apply Hbad; reflexivity|]. split; reflexivity.
Defined.

(** ** Diff engine: counting what the opcodes ask for *)

Section DiffCountFacts.
Import Catalog Diff DiffCount.

Implicit Types (s : loop_state) (o : opcode) (cs : list change)
  (acc : Z * Z * Z).

(** Closes an equation between counter triples by arithmetic. *)
Ltac triple :=
  repeat match goal with
         | |- (_, _) = (_, _) => apply pair_equal_spec; split
         end; lia.

Lemma tally_app acc cs1 cs2 : tally acc (cs1 ++ cs2) = tally (tally acc cs1) cs2.
Proof. unfold tally. apply foldl_app. Qed.

Lemma tally_hunks_snoc acc hs h :
  tally_hunks acc (hs ++ [h]) = tally (tally_hunks acc hs) (h_changes h).
Proof. unfold tally_hunks. by rewrite foldl_app. Qed.

Lemma tally_context acc cs :
  Forall (λ c, c_type c = "context") cs → tally acc cs = acc.
Proof.
  intros Hcs. revert acc. induction Hcs as [|c cs Hc _ IH]; intros acc; [done|].
  unfold tally in *. simpl. rewrite IH. destruct acc as [[a d] ch].
  unfold count_change. by rewrite Hc.
Qed.

Lemma count_change_delete (a d ch : Z) c :
  c_type c = "delete" → count_change (a, d, ch) c = (a, d + 1, ch).
Proof. intros Hc. unfold count_change. by rewrite Hc. Qed.

Lemma count_change_insert (a d ch : Z) c :
  c_type c = "insert" → count_change (a, d, ch) c = (a + 1, d, ch).
Proof. intros Hc. unfold count_change. by rewrite Hc. Qed.

Lemma tally_cons acc c cs : tally acc (c :: cs) = tally (count_change acc c) cs.
Proof. reflexivity. Qed.

Lemma tally_delete (a d ch : Z) cs :
  Forall (λ c, c_type c = "delete") cs →
  tally (a, d, ch) cs = (a, d + Z.of_nat (length cs), ch).
Proof.
  intros Hcs. revert d. induction Hcs as [|c cs Hc _ IH]; intros d.
  - simpl. triple.
  - rewrite tally_cons, (count_change_delete _ _ _ _ Hc), IH.
    simpl length. triple.
Qed.

Lemma tally_insert (a d ch : Z) cs :
  Forall (λ c, c_type c = "insert") cs →
  tally (a, d, ch) cs = (a + Z.of_nat (length cs), d, ch).
Proof.
  intros Hcs. revert a. induction Hcs as [|c cs Hc _ IH]; intros a.
  - simpl. triple.
  - rewrite tally_cons, (count_change_insert _ _ _ _ Hc), IH.
    simpl length. triple.
Qed.

Lemma no_change_all_context cs :
  existsb (λ c, negb (is_context c)) cs = false →
  Forall (λ c, c_type c = "context") cs.
Proof.
  induction cs as [|c cs IH]; [done|]. simpl.
  intros [Hc Hcs]%orb_false_iff. constructor; [|by apply IH].
  apply negb_false_iff in Hc. unfold is_context in Hc. by apply String.eqb_eq in Hc.
Qed.

Lemma step_tally old_lines new_lines s s' o :
  step old_lines new_lines s o = Some s' →
  state_tally s' = add3 (state_tally s) (inserted_by o) (deleted_by o).
Proof.
  unfold step, state_tally, inserted_by, deleted_by.
  destruct (tally (tally_hunks (0, 0, 0) (hunks s)) (hunk_changes s))
    as [[a d] ch] eqn:Hs.
  destruct (op_tag o).
  - case_bool_decide.
    + unfold split_equal. intros Hstep.
      destruct (collect old_lines (i1 o) _ _) as [lead|] eqn:Hlead; [|done].
      simpl in Hstep.
      destruct (collect old_lines (max _ _) _ _) as [trail|] eqn:Htrail; [|done].
      simpl in Hstep. injection Hstep as <-. simpl.
      assert (Hlc : Forall (λ c, c_type c = "context") lead)
        by (eapply collect_Forall; [|exact Hlead]; done).
      assert (Htc : Forall (λ c, c_type c = "context") trail)
        by (eapply collect_Forall; [|exact Htrail]; done).
      rewrite (tally_context _ _ Htc). unfold add3. simpl.
      destruct (existsb _ (hunk_changes s ++ lead)) eqn:Hex.
      * rewrite tally_hunks_snoc. simpl.
        rewrite tally_app, Hs, (tally_context _ _ Hlc). triple.
      * rewrite existsb_app_context in Hex by done.
        rewrite (tally_context _ _ (no_change_all_context _ Hex)) in Hs.
        rewrite Hs. triple.
    + intros Hstep. destruct (context_of _ _ _) as [cs|] eqn:Hcs; [|done].
      injection Hstep as <-. simpl. rewrite tally_app, Hs.
      rewrite tally_context by (eapply collect_Forall; [|exact Hcs]; done).
      unfold add3. simpl. triple.
  - intros Hstep.
    destruct (deletions_of _ _ _) as [dels|] eqn:Hd; [|done]. simpl in Hstep.
    destruct (insertions_of _ _ _) as [ins|] eqn:Hi; [|done]. simpl in Hstep.
    injection Hstep as <-. simpl. rewrite !tally_app, Hs.
    rewrite tally_delete by (eapply collect_Forall; [|exact Hd]; done).
    rewrite tally_insert by (eapply collect_Forall; [|exact Hi]; done).
    rewrite (collect_length _ _ _ _ _ Hd), (collect_length _ _ _ _ _ Hi).
    unfold add3. simpl. triple.
  - intros Hstep. destruct (deletions_of _ _ _) as [cs|] eqn:Hcs; [|done].
    injection Hstep as <-. simpl. rewrite tally_app, Hs.
    rewrite tally_delete by (eapply collect_Forall; [|exact Hcs]; done).
    rewrite (collect_length _ _ _ _ _ Hcs).
    unfold add3. simpl. triple.
  - intros Hstep. destruct (insertions_of _ _ _) as [cs|] eqn:Hcs; [|done].
    injection Hstep as <-. simpl. rewrite tally_app, Hs.
    rewrite tally_insert by (eapply collect_Forall; [|exact Hcs]; done).
    rewrite (collect_length _ _ _ _ _ Hcs).
    unfold add3. simpl. triple.
Qed.

Lemma run_loop_tally old_lines new_lines opcodes : ∀ s s',
  run_loop old_lines new_lines s opcodes = Some s' →
  state_tally s'
  = add3 (state_tally s) (inserted_lines opcodes) (deleted_lines opcodes).
Proof.
  induction opcodes as [|o rest IH]; intros s s' Hrun; simpl in Hrun.
  - injection Hrun as <-. unfold add3. simpl.
    destruct (state_tally s) as [[a d] ch]. simpl. triple.
  - destruct (step old_lines new_lines s o) as [s1|] eqn:Hstep; [|done].
    simpl in Hrun. rewrite (IH _ _ Hrun), (step_tally _ _ _ _ _ Hstep).
    unfold add3. simpl. triple.
Qed.

Lemma stats_of_tally (doc : list hunk) :
  additions (_calculate_diff_stats doc) = (tally_hunks (0, 0, 0) doc).1.1 ∧
  deletions (_calculate_diff_stats doc) = (tally_hunks (0, 0, 0) doc).1.2 ∧
  changes (_calculate_diff_stats doc) = (tally_hunks (0, 0, 0) doc).2.
Proof.
  unfold _calculate_diff_stats, tally_hunks, tally.
  by destruct (foldl _ _ doc) as [[a d] ch].
Qed.

(** The closed hunks of a loop state all hold a change. *)
Lemma step_closed_hunks old_lines new_lines s s' o :
  Forall (λ h, has_change h = true) (hunks s) →
  step old_lines new_lines s o = Some s' →
  Forall (λ h, has_change h = true) (hunks s').
Proof.
  intros Hs. unfold step. destruct (op_tag o).
  - case_bool_decide.
    + unfold split_equal. intros Hstep.
      destruct (collect old_lines (i1 o) _ _) as [lead|]; [|done]. simpl in Hstep.
      destruct (collect old_lines (max _ _) _ _) as [trail|]; [|done].
      simpl in Hstep. injection Hstep as <-. simpl.
      destruct (existsb _ (hunk_changes s ++ lead)) eqn:Hex; [|done].
      apply Forall_app. split; [done|]. by constructor.
    + intros Hstep. destruct (context_of _ _ _); [|done]. by injection Hstep as <-.
  - intros Hstep. destruct (deletions_of _ _ _); [|done]. simpl in Hstep.
    destruct (insertions_of _ _ _); [|done]. by injection Hstep as <-.
  - intros Hstep. destruct (deletions_of _ _ _); [|done]. by injection Hstep as <-.
  - intros Hstep. destruct (insertions_of _ _ _); [|done]. by injection Hstep as <-.
Qed.

Lemma run_loop_closed_hunks old_lines new_lines opcodes : ∀ s s',
  Forall (λ h, has_change h = true) (hunks s) →
  run_loop old_lines new_lines s opcodes = Some s' →
  Forall (λ h, has_change h = true) (hunks s').
Proof.
  induction opcodes as [|o rest IH]; intros s s' Hs Hrun; simpl in Hrun.
  - by injection Hrun as <-.
  - destruct (step old_lines new_lines s o) as [s1|] eqn:Hstep; [|done].
    simpl in Hrun. eapply IH; [|exact Hrun]. by eapply step_closed_hunks.
Qed.

End DiffCountFacts.

(** X17. No change is lost by the hunk splitting: the statistics of a
    document count exactly the lines the opcodes insert (replace and insert
    opcodes) and delete (replace and delete opcodes). *)
Theorem stats_count_opcode_lines (old_lines new_lines : list string)
    (opcodes : list Diff.opcode) (doc : list Diff.hunk) :
  Diff.hunks_of_opcodes old_lines new_lines opcodes = Some doc →
  Catalog.additions (Diff._calculate_diff_stats doc) = DiffCount.inserted_lines opcodes ∧
  Catalog.deletions (Diff._calculate_diff_stats doc) = DiffCount.deleted_lines opcodes ∧
  Catalog.total (Diff._calculate_diff_stats doc)
    = DiffCount.inserted_lines opcodes + DiffCount.deleted_lines opcodes.
Proof.
  intros Hdoc.
  assert (Htally : DiffCount.tally_hunks (0, 0, 0) doc
                   = (DiffCount.inserted_lines opcodes,
                      DiffCount.deleted_lines opcodes, 0)).
  { unfold Diff.hunks_of_opcodes in Hdoc.
    destruct (Diff.run_loop _ _ _ _) as [s|] eqn:Hrun; [|done]. simpl in Hdoc.
    apply run_loop_tally in Hrun.
    change (DiffCount.state_tally Diff.loop_init) with ((0, 0, 0) : Z * Z * Z) in Hrun.
    unfold DiffCount.add3 in Hrun. cbn [fst snd] in Hrun.
    rewrite !Z.add_0_l in Hrun. unfold DiffCount.state_tally in Hrun.
    destruct (Diff.hunk_changes s) as [|c cs] eqn:Hcs.
    - injection Hdoc as <-. exact Hrun.
    - destruct (last opcodes) as [o|]; [|done]. injection Hdoc as <-.
      rewrite tally_hunks_snoc. exact Hrun. }
  destruct (stats_of_tally doc) as (Ha & Hd & Hch).
  rewrite Htally in Ha, Hd, Hch. simpl in Ha, Hd, Hch.
  split; [exact Ha|]. split; [exact Hd|].
  rewrite stats_total, Ha, Hd, Hch. lia.
Qed.

Lemma stats_count_opcode_lines_witness :
  ∃ doc,
    Diff.hunks_of_opcodes ["a"; "b"; "c"] ["a"; "x"; "y"; "c"]
      [Diff.mkOpcode Diff.tag_equal 0 1 0 1;
       Diff.mkOpcode Diff.tag_replace 1 2 1 3;
       Diff.mkOpcode Diff.tag_equal 2 3 3 4] = Some doc ∧
    Catalog.additions (Diff._calculate_diff_stats doc) = 2 ∧
    Catalog.deletions (Diff._calculate_diff_stats doc) = 1.
Proof.
  destruct (Diff.hunks_of_opcodes ["a"; "b"; "c"] ["a"; "x"; "y"; "c"]
      [Diff.mkOpcode Diff.tag_equal 0 1 0 1;
       Diff.mkOpcode Diff.tag_replace 1 2 1 3;
       Diff.mkOpcode Diff.tag_equal 2 3 3 4]) as [doc|] eqn:Hdoc;
    [|vm_compute in Hdoc; discriminate].
  exists doc. split; [reflexivity|].
  destruct (stats_count_opcode_lines _ _ _ _ Hdoc) as (Ha & Hd & _).
  split; [exact Ha|exact Hd].
Defined.

(** X18. The shape of a document: no hunk has an empty list of entries,
    and every hunk but the last holds at least one delete or insert entry
    (a hunk of context lines only can only come last). *)
Theorem document_hunks_shape (old_lines new_lines : list string)
    (opcodes : list Diff.opcode) (doc : list Diff.hunk) :
  Diff.hunks_of_opcodes old_lines new_lines opcodes = Some doc →
  Forall (λ h, Diff.h_changes h ≠ []) doc ∧
  ∀ init final, doc = init ++ [final] →
                Forall (λ h, DiffCount.has_change h = true) init.
Proof.
  unfold Diff.hunks_of_opcodes. intros Hdoc.
  destruct (Diff.run_loop _ _ _ _) as [s|] eqn:Hrun; [|done]. simpl in Hdoc.
  assert (Hclosed : Forall (λ h, DiffCount.has_change h = true) (Diff.hunks s)).
  { eapply run_loop_closed_hunks; [|exact Hrun]. constructor. }
  assert (Hne : Forall (λ h, Diff.h_changes h ≠ []) (Diff.hunks s)).
  { eapply Forall_impl; [exact Hclosed|]. intros h Hh Hnil.
    unfold DiffCount.has_change in Hh. by rewrite Hnil in Hh. }
  destruct (Diff.hunk_changes s) as [|c cs] eqn:Hcs.
  - injection Hdoc as <-. split; [done|]. intros init final Heq.
    rewrite Heq in Hclosed. by apply Forall_app in Hclosed as [? _].
  - destruct (last opcodes) as [o|]; [|done]. injection Hdoc as <-. split.
    + apply Forall_app. split; [done|]. by constructor.
    + intros init final Heq. apply app_inj_tail in Heq as [<- _]. done.
Qed.

Lemma document_hunks_shape_witness :
  ∃ doc,
    Diff.hunks_of_opcodes (replicate 12 "x" ++ ["b"]) (replicate 12 "x" ++ ["c"])
      [Diff.mkOpcode Diff.tag_equal 0 12 0 12;
       Diff.mkOpcode Diff.tag_replace 12 13 12 13] = Some doc ∧
    Forall (λ h, Diff.h_changes h ≠ []) doc.
Proof.
  destruct (Diff.hunks_of_opcodes (replicate 12 "x" ++ ["b"]) (replicate 12 "x" ++ ["c"])
      [Diff.mkOpcode Diff.tag_equal 0 12 0 12;
       Diff.mkOpcode Diff.tag_replace 12 13 12 13]) as [doc|] eqn:Hdoc;
    [|vm_compute in Hdoc; discriminate].
  exists doc. split; [reflexivity|].
  exact (proj1 (document_hunks_shape _ _ _ _ Hdoc)).
Defined.

(** X19. Significance is always 1, 2 or 3, and it never goes down when the
    total goes up, whatever the configured threshold. *)
Theorem significance_range_and_order (cfg : Config) (st st' : Catalog.Stats) :
  (Diff._determine_significance cfg st = 1
   ∨ Diff._determine_significance cfg st = 2
   ∨ Diff._determine_significance cfg st = 3) ∧
  (Catalog.total st ≤ Catalog.total st' →
   Diff._determine_significance cfg st ≤ Diff._determine_significance cfg st').
Proof.
  unfold Diff._determine_significance. split.
  - repeat case_bool_decide; auto.
  - intros Hle. repeat case_bool_decide; lia.
Qed.

(** ** Diff engine: what [generate_diff] writes, and the diff jobs *)

Section DiffJobsFacts.
Import Catalog Diff DiffJobs.
Context `{DiffLib}.

(** [generate_diff] writes to the diffs table and the file store only. *)
Lemma write_diff_frame cfg d fs now aid a b so sn r d2 fs2 :
  write_diff cfg d fs now aid a b so sn = DiffReturned r d2 fs2 →
  archive_queue d2 = archive_queue d ∧ queue_seq d2 = queue_seq d ∧
  snapshots d2 = snapshots d ∧ archives d2 = archives d.
Proof.
  unfold write_diff.
  destruct (_get_snapshot_content fs so) as [oc|]; [|by intros [= _ <- _]].
  destruct (_get_snapshot_content fs sn) as [nc|]; [|by intros [= _ <- _]].
  destruct (String.eqb oc "" || String.eqb nc ""); [by intros [= _ <- _]|].
  destruct (_generate_text_diff oc nc) as [doc|]; [|done].
  unfold Storage.store_diff. cbn zeta beta iota.
  destruct (ENABLE_VISUAL_DIFF cfg && _ && _).
  - destruct (_generate_visual_diff _ _ _ _ _ _ _) as [[path|] fs']; by intros [= _ <- _].
  - by intros [= _ <- _].
Qed.

Lemma generate_diff_frame cfg d fs now aid a b r d2 fs2 :
  generate_diff cfg d fs now aid a b = DiffReturned r d2 fs2 →
  archive_queue d2 = archive_queue d ∧ queue_seq d2 = queue_seq d ∧
  snapshots d2 = snapshots d ∧ archives d2 = archives d.
Proof.
  unfold generate_diff.
  destruct (snapshot_get_by_id d a) as [so|]; [|by intros [= _ <- _]].
  destruct (snapshot_get_by_id d b) as [sn|]; [|by intros [= _ <- _]].
  cbn zeta. destruct (truthy_id _); [by intros [= _ <- _]|].
  apply write_diff_frame.
Qed.

Lemma path_join_file_inj dir (x y : string) :
  Storage.starts_with_slash x = false → Storage.starts_with_slash y = false →
  Storage.path_join dir x = Storage.path_join dir y → x = y.
Proof.
  intros Hx Hy. unfold Storage.path_join. rewrite Hx, Hy.
  destruct (String.eqb dir "" || Storage.ends_with_slash dir); intros Heq.
  - by apply string_app_inv_head in Heq.
  - by apply string_app_inv_head, string_app_inv_head in Heq.
Qed.

Lemma map_finish_rows (f g : QueueEntry → QueueEntry) i (rows : list QueueEntry) :
  (∀ q, q_id (f q) = q_id q) →
  map (λ q, if bool_decide (q_id q = i) then g q else q)
      (map (λ q, if bool_decide (q_id q = i) then f q else q) rows)
  = map (λ q, if bool_decide (q_id q = i) then g (f q) else q) rows.
Proof.
  intros Hf. rewrite map_map. apply map_ext. intros q.
  destruct (decide (q_id q = i)) as [Hq|Hq].
  - rewrite (bool_decide_eq_true_2 (q_id q = i)) by done.
    by rewrite bool_decide_eq_true_2 by (by rewrite Hf).
  - rewrite (bool_decide_eq_false_2 (q_id q = i)) by done.
    by rewrite bool_decide_eq_false_2 by done.
Qed.

(** One job: the rows with its id end completed or failed, the others are
    not touched. *)
Lemma process_job_queue cfg st job t :
  ∃ F, (∀ q, finished (F q) ∧ q_id (F q) = q_id q ∧ operation (F q) = operation q
             ∧ q_archive_id (F q) = q_archive_id q) ∧
       archive_queue (process_job cfg st job t).1
       = map (λ q, if bool_decide (q_id q = q_id job) then F q else q)
             (archive_queue st.1) ∧
       snapshots (process_job cfg st job t).1 = snapshots st.1 ∧
       archives (process_job cfg st job t).1 = archives st.1.
Proof.
  unfold process_job.
  set (d1 := update_queue st.1 (q_id job) (mark_in_progress t.1.1)).
  match goal with
  | |- context [match ?o with DiffReturned _ _ _ => _ | DiffRaised => _ end] =>
      set (outcome := o)
  end.
  assert (Hout : outcome = DiffRaised
                 ∨ ∃ r d2 fs2, outcome = DiffReturned r d2 fs2
                               ∧ archive_queue d2 = archive_queue d1
                               ∧ snapshots d2 = snapshots d1
                               ∧ archives d2 = archives d1).
  { unfold outcome.
    destruct (latest_pair d1 (q_archive_id job)) as [[[o|] [n|]]|];
      destruct (q_archive_id job) as [aid|];
      try (right; by eexists _, _, _).
    case_bool_decide; [|right; by eexists _, _, _].
    destruct (generate_diff cfg d1 st.2 t.1.2 aid o n) as [r d2 fs2|] eqn:Hg; [|by left].
    right. exists r, d2, fs2. apply generate_diff_frame in Hg as (? & _ & ? & ?). done. }
  destruct Hout as [->|(r & d2 & fs2 & -> & Hq & Hs & Ha)].
  - exists (λ q, mark_failed "list index out of range" (mark_in_progress t.1.1 q)).
    split; [intros q; repeat split; by right|]. simpl.
    split; [by apply map_finish_rows|done].
  - exists (λ q, mark_completed t.2 (mark_in_progress t.1.1 q)).
    split; [intros q; repeat split; by left|]. simpl. rewrite Hq, Hs, Ha.
    split; [by apply map_finish_rows|done].
Qed.

Lemma rows_after_step ids i F (rows0 rows : list QueueEntry) :
  (∀ q, finished (F q) ∧ q_id (F q) = q_id q ∧ operation (F q) = operation q
        ∧ q_archive_id (F q) = q_archive_id q) →
  Forall2 (rows_after ids) rows0 rows →
  Forall2 (rows_after (ids ++ [i])) rows0
          (map (λ q, if bool_decide (q_id q = i) then F q else q) rows).
Proof.
  intros HF Hrows. induction Hrows as [|q q' rows0 rows Hq _ IH]; [constructor|].
  simpl. constructor; [|exact IH].
  destruct Hq as (Hid & Hop & Harch & Hdone & Hkeep).
  destruct (HF q') as (Hfin & HFid & HFop & HFarch).
  case_bool_decide as Hi.
  - split; [congruence|]. split; [congruence|]. split; [congruence|].
    split; [done|]. intros Hnot. exfalso. apply Hnot.
    apply elem_of_app. right. apply list_elem_of_singleton. congruence.
  - split; [done|]. split; [done|]. split; [done|]. split.
    + intros [Hin|Hin%list_elem_of_singleton]%elem_of_app; [by apply Hdone|].
      congruence.
    + intros Hnot. apply Hkeep. intros Hin. apply Hnot, elem_of_app. by left.
Qed.

Lemma process_jobs_queue cfg clk jobs : ∀ st k ids (rows0 : list QueueEntry),
  Forall2 (rows_after ids) rows0 (archive_queue st.1) →
  Forall2 (rows_after (ids ++ (q_id <$> jobs))) rows0
          (archive_queue (process_jobs cfg st clk k jobs).1) ∧
  snapshots (process_jobs cfg st clk k jobs).1 = snapshots st.1 ∧
  archives (process_jobs cfg st clk k jobs).1 = archives st.1.
Proof.
  induction jobs as [|job rest IH]; intros st k ids rows0 Hrows; simpl.
  - by rewrite app_nil_r.
  - destruct (process_job_queue cfg st job (clk k)) as (F & HF & Hq & Hs & Ha).
    destruct (IH (process_job cfg st job (clk k)) (S k) (ids ++ [q_id job]) rows0)
      as (Hrows' & Hs' & Ha').
    + rewrite Hq. by apply rows_after_step.
    + rewrite <- app_assoc in Hrows'. simpl in Hrows'.
      split; [exact Hrows'|]. by rewrite Hs', Ha', Hs, Ha.
Qed.

Lemma rows_after_nil (rows : list QueueEntry) : Forall2 (rows_after []) rows rows.
Proof.
  induction rows as [|q rows IH]; constructor; [|exact IH].
  split; [done|]. split; [done|]. split; [done|].
  split; [by intros Hin%elem_of_nil|done].
Qed.

#[global] Instance job_le_total : Total job_le.
Proof.
  intros a b. unfold job_le, nulls_last_le.
  destruct (scheduled_for a), (scheduled_for b);
    destruct (Z.lt_trichotomy (q_priority a) (q_priority b)) as [?|[?|?]]; lia.
Qed.

#[global] Instance job_le_trans : Transitive job_le.
Proof.
  intros a b c. unfold job_le, nulls_last_le.
  destruct (scheduled_for a), (scheduled_for b), (scheduled_for c); lia.
Qed.

Lemma pending_diff_jobs_sorted d :
  StronglySorted job_le
    (merge_sort job_le (filter pending_diff (archive_queue d))).
Proof. apply (StronglySorted_merge_sort job_le); apply _. Qed.

End DiffJobsFacts.

(** X20. [generate_diff] returns [None] exactly when one of the two
    snapshots is missing, or no usable diff row exists for the pair and the
    content of one of them cannot be read or is empty; in each of these cases
    the database and the stored files stay as they were. *)
Theorem generate_diff_returns_none {lib : Diff.DiffLib} (cfg : Config)
    (d d2 : Catalog.db) (fs fs2 : Storage.files) (now aid a b : Z) :
  Diff.generate_diff cfg d fs now aid a b = Diff.DiffReturned None d2 fs2
  ↔ d2 = d ∧ fs2 = fs ∧
    (Catalog.snapshot_get_by_id d a = None
     ∨ Catalog.snapshot_get_by_id d b = None
     ∨ (Catalog.truthy_id (Diff._check_diff_exists d a b) = false
        ∧ ∃ so sn, Catalog.snapshot_get_by_id d a = Some so
                   ∧ Catalog.snapshot_get_by_id d b = Some sn
                   ∧ (DiffJobs.unreadable fs so ∨ DiffJobs.unreadable fs sn))).
Proof.
  unfold Diff.generate_diff.
  destruct (Catalog.snapshot_get_by_id d a) as [so|] eqn:Ha.
  2:{ split; [intros [= <- <-]; by auto|by intros (-> & -> & _)]. }
  destruct (Catalog.snapshot_get_by_id d b) as [sn|] eqn:Hb.
  2:{ split; [intros [= <- <-]; by auto|by intros (-> & -> & _)]. }
  cbn zeta.
  destruct (Catalog.truthy_id (Diff._check_diff_exists d a b)) eqn:Hex.
  { split.
    - intros [= Hnone _ _]. rewrite Hnone in Hex. done.
    - intros (_ & _ & [?|[?|[? _]]]); done. }
  unfold Diff.write_diff, DiffJobs.unreadable.
  destruct (Diff._get_snapshot_content fs so) as [oc|] eqn:Hoc.
  2:{ split; [intros [= <- <-]|by intros (-> & -> & _)].
      do 2 (split; [done|]). right. right. split; [done|].
      exists so, sn. do 2 (split; [done|]). rewrite ?Hoc, ?Hnc. by auto. }
  destruct (Diff._get_snapshot_content fs sn) as [nc|] eqn:Hnc.
  2:{ split; [intros [= <- <-]|by intros (-> & -> & _)].
      do 2 (split; [done|]). right. right. split; [done|].
      exists so, sn. do 2 (split; [done|]). rewrite ?Hoc, ?Hnc. by auto. }
  destruct (String.eqb oc "") eqn:Hoe.
  { apply String.eqb_eq in Hoe. simpl.
    split; [intros [= <- <-]|by intros (-> & -> & _)].
    do 2 (split; [done|]). right. right. split; [done|].
    exists so, sn. do 2 (split; [done|]). rewrite ?Hoc, ?Hnc. by auto. }
  destruct (String.eqb nc "") eqn:Hne.
  { apply String.eqb_eq in Hne. simpl.
    split; [intros [= <- <-]|by intros (-> & -> & _)].
    do 2 (split; [done|]). right. right. split; [done|].
    exists so, sn. do 2 (split; [done|]). rewrite ?Hoc, ?Hnc. by auto. }
  apply String.eqb_neq in Hoe, Hne. simpl.
  split.
  - destruct (Diff._generate_text_diff oc nc) as [doc|]; [|done].
    unfold Storage.store_diff. cbn zeta beta iota.
    destruct (ENABLE_VISUAL_DIFF cfg && _ && _); [|done].
    by destruct (Diff._generate_visual_diff _ _ _ _ _ _ _) as [[path|] fs'].
  - intros (_ & _ & [?|[?|(_ & so' & sn' & ? & ? & Hun)]]); [done..|].
    simplify_eq. rewrite Hoc, Hnc in Hun. by destruct Hun.
Qed.

(** X21. When both snapshots exist, no diff row exists for the pair, both
    contents are readable and not empty and the text diff is produced,
    [generate_diff] returns the next id of the diffs sequence and appends
    exactly one row with that id: the row carries the pair, the given time,
    the statistics and the significance computed from the document, and its
    [diff_path] names the file that holds the serialised document, also
    after a visual diff was stored.  Snapshots, sites and queue rows stay. *)
Theorem generate_diff_stores_document {lib : Diff.DiffLib} (cfg : Config)
    (d : Catalog.db) (fs : Storage.files) (now aid a b : Z)
    (so sn : Catalog.Snapshot) (oc nc : string) (doc : Diff.diff_data) :
  Catalog.snapshot_get_by_id d a = Some so →
  Catalog.snapshot_get_by_id d b = Some sn →
  Catalog.truthy_id (Diff._check_diff_exists d a b) = false →
  Diff._get_snapshot_content fs so = Some oc →
  Diff._get_snapshot_content fs sn = Some nc →
  oc ≠ "" → nc ≠ "" →
  Diff._generate_text_diff oc nc = Some doc →
  DiffJobs.diffs_seq_fresh d →
  ∃ d2 fs2 row,
    Diff.generate_diff cfg d fs now aid a b
      = Diff.DiffReturned (Some (Catalog.diffs_seq d)) d2 fs2 ∧
    Catalog.diffs d2 = Catalog.diffs d ++ [row] ∧
    Catalog.diffs_seq d2 = Catalog.diffs_seq d + 1 ∧
    Catalog.d_id row = Catalog.diffs_seq d ∧
    Catalog.d_archive_id row = aid ∧
    Catalog.old_snapshot_id row = a ∧
    Catalog.new_snapshot_id row = b ∧
    Catalog.diff_timestamp row = now ∧
    Catalog.stats row = Diff._calculate_diff_stats doc ∧
    Catalog.significance row = Diff._determine_significance cfg (Catalog.stats row) ∧
    Catalog.diff_path row
      = Storage.path_join (Storage.get_diff_path cfg aid a b) "diff.json" ∧
    fs2 !! Catalog.diff_path row = Some (Diff.json_dumps doc) ∧
    (ENABLE_VISUAL_DIFF cfg = false →
       Catalog.visual_diff_path row = None
       ∧ fs2 = <[Catalog.diff_path row := Diff.json_dumps doc]> fs) ∧
    Catalog.snapshots d2 = Catalog.snapshots d ∧
    Catalog.archives d2 = Catalog.archives d ∧
    Catalog.archive_queue d2 = Catalog.archive_queue d.
Proof.
  intros Ha Hb Hex Hoc Hnc Hoe Hne Hdoc Hfresh.
  unfold Diff.generate_diff. rewrite Ha, Hb. cbn zeta. rewrite Hex.
  unfold Diff.write_diff. rewrite Hoc, Hnc.
  apply String.eqb_neq in Hoe, Hne. rewrite Hoe, Hne. simpl orb. cbn iota.
  rewrite Hdoc. unfold Storage.store_diff. cbn zeta beta iota.
  set (target := Storage.path_join (Storage.get_diff_path cfg aid a b) "diff.json").
  set (st := Diff._calculate_diff_stats doc).
  set (row0 := Catalog.mkDiffRow (Catalog.diffs_seq d) aid a b now target st
                 (Diff._determine_significance cfg st) None).
  destruct (ENABLE_VISUAL_DIFF cfg) eqn:Hvis; simpl andb.
  2:{ exists (Catalog.set_diffs d (Catalog.diffs d ++ [row0]) (Catalog.diffs_seq d + 1)),
        (<[target := Diff.json_dumps doc]> fs), row0.
      repeat (split; [done|]). split; [by rewrite lookup_insert_eq|].
      by repeat split. }
  destruct (truthy_str (Catalog.screenshot_path so)
            && truthy_str (Catalog.screenshot_path sn)).
  2:{ exists (Catalog.set_diffs d (Catalog.diffs d ++ [row0]) (Catalog.diffs_seq d + 1)),
        (<[target := Diff.json_dumps doc]> fs), row0.
      repeat (split; [done|]). split; [by rewrite lookup_insert_eq|].
      by repeat split. }
  assert (Hvisual :
    ∀ p fs', Diff._generate_visual_diff cfg (<[target := Diff.json_dumps doc]> fs)
               aid a b (default "" (Catalog.screenshot_path so))
               (default "" (Catalog.screenshot_path sn)) = (p, fs') →
             fs' !! target = Some (Diff.json_dumps doc)).
  { intros p fs'. unfold Diff._generate_visual_diff.
    destruct (_ !! default "" (Catalog.screenshot_path so)) as [img1|];
      [|intros [= _ <-]; by rewrite lookup_insert_eq].
    destruct (_ !! default "" (Catalog.screenshot_path sn)) as [img2|];
      [|intros [= _ <-]; by rewrite lookup_insert_eq].
    destruct (Diff.cv2_visual_diff img1 img2) as [image|];
      [|intros [= _ <-]; by rewrite lookup_insert_eq].
    unfold Storage.store_visual_diff. intros [= _ <-].
    rewrite lookup_insert_ne; [by rewrite lookup_insert_eq|].
    intros Heq. apply path_join_file_inj in Heq; done. }
  destruct (Diff._generate_visual_diff _ _ _ _ _ _ _) as [[path|] fs'] eqn:Hv.
  - exists (Diff.set_visual_diff_path
              (Catalog.set_diffs d (Catalog.diffs d ++ [row0]) (Catalog.diffs_seq d + 1))
              (Catalog.diffs_seq d) path), fs',
      (Catalog.mkDiffRow (Catalog.diffs_seq d) aid a b now target st
         (Diff._determine_significance cfg st) (Some path)).
    split; [done|]. split.
    { unfold Diff.set_visual_diff_path. simpl. rewrite map_app. simpl.
      rewrite bool_decide_eq_true_2 by done. f_equal.
      rewrite <- (map_id (Catalog.diffs d)) at 2. apply map_ext_in.
      intros r Hr%list_elem_of_In. unfold DiffJobs.diffs_seq_fresh in Hfresh.
      rewrite Forall_forall in Hfresh. by rewrite bool_decide_eq_false_2 by by apply Hfresh. }
    repeat (split; [done|]). split; [by apply (Hvisual _ _ eq_refl)|].
    by repeat split.
  - exists (Catalog.set_diffs d (Catalog.diffs d ++ [row0]) (Catalog.diffs_seq d + 1)),
      fs', row0.
    repeat (split; [done|]). split; [by apply (Hvisual _ _ eq_refl)|].
    by repeat split.
Qed.

Lemma generate_diff_stores_document_witness :
  ∃ d2 fs2 row,
    Diff.generate_diff (H := Diff.sample_lib) default_config Diff.sample_db
      Diff.sample_fs 50 1 1 2 = Diff.DiffReturned (Some 1) d2 fs2 ∧
    Catalog.diffs d2 = [row] ∧
    Catalog.diff_timestamp row = 50 ∧
    fs2 !! Catalog.diff_path row
      = (Diff.json_dumps (DiffLib := Diff.sample_lib))
          <$> Diff._generate_text_diff (H := Diff.sample_lib) "old" "new".
Proof.
  set (doc := default [] (Diff._generate_text_diff (H := Diff.sample_lib) "old" "new")).
  assert (Hdoc : Diff._generate_text_diff (H := Diff.sample_lib) "old" "new" = Some doc)
    by (vm_compute; reflexivity).
  destruct (generate_diff_stores_document (lib := Diff.sample_lib) default_config
              Diff.sample_db Diff.sample_fs 50 1 1 2
              (Diff.sample_snapshot 1 10 "/s/1.html" "h1")
              (Diff.sample_snapshot 2 20 "/s/2.html" "h2") "old" "new" doc)
    as (d2 & fs2 & row & Hrun & Hrows & _ & _ & _ & _ & _ & Htime & _ & _ & _ & Hfile & _).
  - reflexivity.
  - reflexivity.
  - reflexivity.
  - reflexivity.
  - reflexivity.
  - discriminate.
  - discriminate.
  - exact Hdoc.
  - constructor.
  - exists d2, fs2, row. split; [exact Hrun|]. split; [exact Hrows|].
    split; [exact Htime|]. rewrite Hdoc. exact Hfile.
Defined.

(** X22. [process_pending_diffs] fetches at most five queue rows, each a
    pending diff job of the table, in the order of the query (priority, then
    [scheduled_for]); a pending diff job that was not fetched sorts at or
    after every fetched one.  Afterwards every row whose id is the id
    of a fetched job is completed or failed, every other row is as it was,
    no row is added or removed, and snapshots and sites are untouched.  When
    the table held at most five pending diff jobs, none is pending after the
    call. *)
Theorem process_pending_diffs_finishes_jobs {lib : Diff.DiffLib} (cfg : Config)
    (d : Catalog.db) (fs : Storage.files) (clk : nat → Z * Z * Z) :
  let jobs := DiffJobs.pending_diff_jobs d in
  let d' := (DiffJobs.process_pending_diffs cfg d fs clk).1 in
  (length jobs ≤ 5)%nat ∧
  Forall (λ q, q ∈ Catalog.archive_queue d ∧ DiffJobs.pending_diff q) jobs ∧
  StronglySorted DiffJobs.job_le jobs ∧
  (∀ q j, q ∈ Catalog.archive_queue d → DiffJobs.pending_diff q → (q ∉ jobs) →
          j ∈ jobs → DiffJobs.job_le j q) ∧
  Forall2 (DiffJobs.rows_after (Catalog.q_id <$> jobs))
          (Catalog.archive_queue d) (Catalog.archive_queue d') ∧
  Catalog.snapshots d' = Catalog.snapshots d ∧
  Catalog.archives d' = Catalog.archives d ∧
  ((length (filter DiffJobs.pending_diff (Catalog.archive_queue d)) ≤ 5)%nat →
   Forall (λ q, ¬ DiffJobs.pending_diff q) (Catalog.archive_queue d')).
Proof.
  intros jobs d'.
  assert (Hlen : (length jobs ≤ 5)%nat).
  { unfold jobs, DiffJobs.pending_diff_jobs. rewrite length_take. lia. }
  assert (Hjobs : ∀ q, q ∈ jobs → q ∈ Catalog.archive_queue d ∧ DiffJobs.pending_diff q).
  { intros q Hq. unfold jobs, DiffJobs.pending_diff_jobs in Hq.
    apply (subseteq_take 5) in Hq.
    rewrite merge_sort_Permutation in Hq. apply list_elem_of_filter in Hq as [? ?].
    done. }
  destruct (process_jobs_queue cfg clk jobs (d, fs) 0%nat [] (Catalog.archive_queue d)
              (rows_after_nil _)) as (Hrows & Hsnap & Harch).
  simpl app in Hrows.
  split; [exact Hlen|]. split; [by apply Forall_forall|].
  pose proof (pending_diff_jobs_sorted d) as Hsorted.
  rewrite <- (take_drop 5) in Hsorted.
  split; [exact (StronglySorted_app_1_l _ _ _ Hsorted)|].
  split.
  { intros q j Hq Hp Hout Hj.
    apply (StronglySorted_app_1_elem_of _ _ _ _ _ Hsorted); [exact Hj|].
    assert (Hin : q ∈ merge_sort DiffJobs.job_le
                        (filter DiffJobs.pending_diff (Catalog.archive_queue d))).
    { rewrite merge_sort_Permutation. by apply list_elem_of_filter. }
    rewrite <- (take_drop 5) in Hin. apply elem_of_app in Hin as [Hin|Hin]; [|exact Hin].
    by destruct Hout. }
  split; [exact Hrows|]. split; [exact Hsnap|]. split; [exact Harch|].
  intros Hfew.
  assert (Hall : ∀ q, q ∈ Catalog.archive_queue d → DiffJobs.pending_diff q → q ∈ jobs).
  { intros q Hq Hp. unfold jobs, DiffJobs.pending_diff_jobs.
    rewrite take_ge.
    - rewrite merge_sort_Permutation. apply list_elem_of_filter. done.
    - rewrite merge_sort_Permutation. exact Hfew. }
  fold d' in Hrows.
  assert (Hids : ∀ q, q ∈ Catalog.archive_queue d → DiffJobs.pending_diff q →
                      Catalog.q_id q ∈ Catalog.q_id <$> jobs).
  { intros q Hq Hp. apply list_elem_of_fmap. exists q. split; [done|]. by apply Hall. }
  clear Hall. apply Forall_forall. intros q' Hq'.
  apply list_elem_of_lookup_1 in Hq' as [i Hi].
  destruct (Forall2_lookup_r _ _ _ _ _ Hrows Hi) as (q & Hq & Hrel).
  apply list_elem_of_lookup_2 in Hq.
  destruct Hrel as (_ & _ & _ & Hdone & Hkeep).
  intros [Hop Hst].
  destruct (decide (Catalog.q_id q ∈ Catalog.q_id <$> jobs)) as [Hin|Hout].
  - destruct (Hdone Hin) as [Hf|Hf]; rewrite Hst in Hf; discriminate.
  - apply Hout. rewrite (Hkeep Hout) in Hop, Hst. by apply Hids.
Qed.

Lemma process_pending_diffs_finishes_jobs_witness :
  let d' := (DiffJobs.process_pending_diffs (H := Diff.sample_lib) default_config
               DiffJobs.sample_jobs Diff.sample_fs DiffJobs.sample_ticks).1 in
  Catalog.q_status <$> Catalog.archive_queue d' = ["completed"] ∧
  Forall (λ q, ¬ DiffJobs.pending_diff q) (Catalog.archive_queue d').
Proof.
  destruct (process_pending_diffs_finishes_jobs (lib := Diff.sample_lib) default_config
              DiffJobs.sample_jobs Diff.sample_fs DiffJobs.sample_ticks)
    as (_ & _ & _ & _ & _ & _ & _ & Hnone).
  split; [vm_compute; reflexivity|].
  apply Hnone. vm_compute. lia.
Defined.

(** ** Import of the domain list *)

Section ImportFacts.
Import Catalog Models Importers.
Context `{TextLib}.








Lemma load_priority_None rows : ∀ acc,
  load_priority rows acc = None ↔ Exists short_row rows.
Proof.
  induction rows as [|row rest IH]; intros acc; simpl.
  - split; [done|by intros ?%Exists_nil].
  - rewrite Exists_cons. unfold short_row at 1.
    destruct (row !! "domain") as [[v|]|] eqn:Hrow.
    + rewrite IH. split; [by right|]. by intros [?|?].
    + split; [by left|done].
    + rewrite IH. split; [by right|]. by intros [?|?].
Qed.

Lemma import_row_None prio st row now :
  import_row prio st row now = None ↔ short_row row.
Proof.
  destruct st as [c d]. unfold import_row, row_get_or_empty, short_row.
  destruct (row !! "domain") as [[v|]|]; simpl.
  - split; [|done]. destruct (String.eqb (lower v) ""); [done|].
    by destruct (get_by_domain d (lower v)).
  - done.
  - split; [|done]. destruct (String.eqb (lower "") ""); [done|].
    by destruct (get_by_domain d (lower "")).
Qed.

Lemma import_rows_None prio clk rows : ∀ st k,
  import_rows prio st clk k rows = None ↔ Exists short_row rows.
Proof.
  induction rows as [|row rest IH]; intros st k; cbn [import_rows].
  - split; [done|by intros ?%Exists_nil].
  - rewrite Exists_cons, <- (import_row_None prio st row (clk k)).
    destruct (import_row prio st row (clk k)) as [st1|]; simpl.
    + rewrite IH. split; [by right|]. by intros [?|?].
    + split; [by left|done].
Qed.

End ImportFacts.



(** X24. [import_domains] fails (with the [AttributeError] of
    [None.lower()]) exactly when a line of the domain file or of the
    priority file is too short to have a domain field; otherwise it returns
    its counts. *)
Theorem import_domains_fails_on_short_line {tl : Importers.TextLib} (d : Catalog.db)
    (rows : list Importers.csv_row) (priority_rows : option (list Importers.csv_row))
    (clk : nat → Z) :
  Importers.import_domains d rows priority_rows clk = None
  ↔ Exists Importers.short_row rows
    ∨ ∃ prows, priority_rows = Some prows ∧ Exists Importers.short_row prows.
Proof.
  unfold Importers.import_domains, Importers.priority_set.
  destruct priority_rows as [prows|].
  - destruct (Importers.load_priority prows ∅) as [prio|] eqn:Hprio; simpl.
    + assert (Hno : ¬ Exists Importers.short_row prows).
      { rewrite <- (load_priority_None prows ∅). by rewrite Hprio. }
      destruct (Importers.import_rows prio _ clk 0 rows) as [[c d1]|] eqn:Hrows; simpl.
      * split; [done|]. intros [Hex|(? & [= <-] & Hex)]; [|done].
        apply (import_rows_None prio clk rows (Importers.mkCounts 0 0 0, d) 0%nat) in Hex.
        by rewrite Hrows in Hex.
      * split; [|done]. intros _. left.
        by apply (import_rows_None prio clk rows (Importers.mkCounts 0 0 0, d) 0%nat).
    + split; [|done]. intros _. right. exists prows. split; [done|].
      by apply (load_priority_None prows ∅).
  - simpl.
    destruct (Importers.import_rows ∅ _ clk 0 rows) as [[c d1]|] eqn:Hrows; simpl.
    + split; [done|]. intros [Hex|(? & [=] & _)].
      apply (import_rows_None ∅ clk rows (Importers.mkCounts 0 0 0, d) 0%nat) in Hex.
      by rewrite Hrows in Hex.
    + split; [|done]. intros _. left.
      by apply (import_rows_None ∅ clk rows (Importers.mkCounts 0 0 0, d) 0%nat).
Qed.
